(** * LocalApi: the file-backed content store of tyzo-cli

    A shallow embedding of [src/localApi.ts] (class [LocalApi]): the
    collection registry, the entry store ([getEntry], [setEntry]), the
    query pipeline of [getEntries], and the asset store ([uploadAsset],
    [getAsset], [listAssets]).

    Conventions of the embedding.
    - JavaScript values are the inductive [value]; numbers are integers
      ([Z]), fractional and non-finite numbers are outside the model.
    - Property access is modelled for own properties of plain objects.
    - The file system is a finite map from directory paths to flat
      directory listings (file name, content) kept in [readdir] order.
      Paths are not normalised: the model is faithful for file names
      that are one path segment ([flat_name], and [plain_name] where
      the empty name, [.] and [..] would name a directory). A name with
      a path separator is outside the model (no listing holds such a
      name and the model's write to it fails, where [path.join] would
      resolve it into another directory), so every property that
      depends on which file a call reads or writes states the names as
      hypotheses.
    - Promises are run to completion one after the other: an [async]
      method is a function from the store to a [result] (and the new
      store when it writes).
    - Builtins and collaborators the class calls but does not define
      ([JSON], [Date], [localeCompare], ajv, [convertZodSchema],
      [doesMatchFilter], sharp) are section variables. *)

From stdpp Require Import gmap strings list fin_maps pretty.
From Stdlib Require Import Ascii ZArith Sorting.Sorted Sorting.Permutation.

Local Open Scope string_scope.
Local Open Scope Z_scope.

(** ** JavaScript values and exceptions *)

#[warnings="-register-all"]
Inductive value : Type :=
  | VUndefined
  | VNull
  | VBool (b : bool)
  | VNum (n : Z)
  | VStr (s : string)
  | VArr (items : list value)
  | VObj (fields : list (string * value)).

Inductive error : Type :=
  | JsError (message : string)   (* throw new Error(message) *)
  | TypeError                    (* property read on null / undefined, bad path argument *)
  | SyntaxError                  (* JSON.parse *)
  | FsError.                     (* rejected node:fs promise (ENOENT, ...) *)

Inductive result (A : Type) : Type :=
  | Ok (a : A)
  | Throw (e : error).
Arguments Ok {A} a.
Arguments Throw {A} e.

Definition bind {A B} (m : result A) (k : A -> result B) : result B :=
  match m with
  | Ok a => k a
  | Throw e => Throw e
  end.

Notation "'do' x <- m ; k" := (bind m (fun x => k))
  (at level 10, x name, m at level 100, k at level 200).

Definition or_throw {A} (o : option A) (e : error) : result A :=
  match o with
  | Some a => Ok a
  | None => Throw e
  end.

(* try { body } catch { return fallback } *)
Definition try_catch {A} (body : result A) (fallback : A) : A :=
  match body with
  | Ok a => a
  | Throw _ => fallback
  end.

Definition is_nullish (v : value) : bool :=
  match v with
  | VUndefined | VNull => true
  | _ => false
  end.

Definition is_undefined (v : value) : bool :=
  match v with
  | VUndefined => true
  | _ => false
  end.

Definition is_null (v : value) : bool :=
  match v with
  | VNull => true
  | _ => false
  end.

(* ToBoolean *)
Definition truthy (v : value) : bool :=
  match v with
  | VUndefined | VNull => false
  | VBool b => b
  | VNum n => negb (n =? 0)
  | VStr s => negb (String.eqb s "")
  | VArr _ | VObj _ => true
  end.

Fixpoint assoc_get {A} (k : string) (fields : list (string * A)) : option A :=
  match fields with
  | [] => None
  | (k', v) :: rest => if String.eqb k k' then Some v else assoc_get k rest
  end.

Fixpoint assoc_set {A} (k : string) (v : A) (fields : list (string * A))
  : list (string * A) :=
  match fields with
  | [] => [(k, v)]
  | (k', v') :: rest =>
      if String.eqb k k' then (k, v) :: rest else (k', v') :: assoc_set k v rest
  end.

(* v[k] on a value that is not null or undefined *)
Definition prop (v : value) (k : string) : value :=
  match v with
  | VObj fields => default VUndefined (assoc_get k fields)
  | _ => VUndefined
  end.

(* v[k] *)
Definition js_get (v : value) (k : string) : result value :=
  if is_nullish v then Throw TypeError else Ok (prop v k).

(* v?.k *)
Definition opt_get (v : value) (k : string) : value :=
  if is_nullish v then VUndefined else prop v k.

(* v[k] = x *)
Definition js_set (v : value) (k : string) (x : value) : value :=
  match v with
  | VObj fields => VObj (assoc_set k x fields)
  | _ => v
  end.

Fixpoint join (sep : string) (parts : list string) : string :=
  match parts with
  | [] => ""
  | [p] => p
  | p :: rest => p +:+ sep +:+ join sep rest
  end.

(* String(v), also the conversion of a template literal *)
Fixpoint js_to_string (v : value) : string :=
  match v with
  | VUndefined => "undefined"
  | VNull => "null"
  | VBool true => "true"
  | VBool false => "false"
  | VNum n => pretty n
  | VStr s => s
  | VArr items =>
      join "," (map (fun x => if is_nullish x then "" else js_to_string x) items)
  | VObj _ => "[object Object]"
  end.

(* Array.prototype.slice(start, end) *)
Definition rel_index (len : nat) (i : Z) : nat :=
  if i <? 0 then Z.to_nat (Z.max (Z.of_nat len + i) 0)
  else Nat.min (Z.to_nat i) len.

Definition js_slice {A} (start : Z) (stop : option Z) (l : list A) : list A :=
  let from := rel_index (length l) start in
  let to := match stop with
            | Some e => rel_index (length l) e
            | None => length l
            end in
  take (to - from)%nat (drop from l).

(** ** Strings: path, extension, case *)

Definition path_join (a b : string) : string := a +:+ "/" +:+ b.

Fixpoint string_contains_char (c : ascii) (s : string) : bool :=
  match s with
  | EmptyString => false
  | String c' s' => if Ascii.eqb c c' then true else string_contains_char c s'
  end.

Definition flat_name (s : string) : bool :=
  negb (string_contains_char "/"%char s).

(* A name that path.join appends as it is and that names a file: one
   path segment that is neither empty nor a reference to the directory
   or its parent. *)
Definition plain_name (s : string) : bool :=
  flat_name s && negb (String.eqb s "") && negb (String.eqb s ".")
  && negb (String.eqb s "..").

Fixpoint string_prefix (p s : string) : bool :=
  match p, s with
  | EmptyString, _ => true
  | String a p', String b s' => if Ascii.eqb a b then string_prefix p' s' else false
  | String _ _, EmptyString => false
  end.

(* s.includes(sub) *)
Fixpoint string_includes (sub s : string) : bool :=
  if string_prefix sub s then true
  else match s with
       | EmptyString => false
       | String _ s' => string_includes sub s'
       end.

(* s.endsWith(suffix) *)
Fixpoint string_endsWith (suffix s : string) : bool :=
  if String.eqb suffix s then true
  else match s with
       | EmptyString => false
       | String _ s' => string_endsWith suffix s'
       end.

Definition lower_char (c : ascii) : ascii :=
  let n := nat_of_ascii c in
  if (65 <=? n)%nat && (n <=? 90)%nat then ascii_of_nat (n + 32) else c.

(* s.toLowerCase() on ASCII text *)
Fixpoint toLowerCase (s : string) : string :=
  match s with
  | EmptyString => EmptyString
  | String c s' => String (lower_char c) (toLowerCase s')
  end.

(* The position of the last dot of a flat name, as the pair (text before
   the dot, text from the dot on); None when the name has no dot. *)
Fixpoint split_last_dot (s : string) : option (string * string) :=
  match s with
  | EmptyString => None
  | String c s' =>
      match split_last_dot s' with
      | Some (pre, ext) => Some (String c pre, ext)
      | None => if Ascii.eqb c "."%char then Some (EmptyString, s) else None
      end
  end.

(* path.extname(name) for a flat name: the text from the last dot on,
   empty when there is no dot, when the only dot is the first character,
   and for the name [..]. *)
Definition extname (name : string) : string :=
  match split_last_dot name with
  | Some (pre, ext) =>
      if String.eqb pre "" || String.eqb name ".." then "" else ext
  | None => ""
  end.

(* path.basename(name, ext) for a flat name and ext = extname(name) *)
Definition basename (name ext : string) : string :=
  match split_last_dot name with
  | Some (pre, ext') =>
      if String.eqb ext "" then name
      else if String.eqb ext ext' then pre else name
  | None => name
  end.

(** ** The file system *)

(* A directory: its files in [readdir] order. *)
Abbreviation listing := (list (string * string)).

Fixpoint assoc_remove {A} (k : string) (fields : list (string * A))
  : list (string * A) :=
  match fields with
  | [] => []
  | (k', v') :: rest =>
      if String.eqb k k' then rest else (k', v') :: assoc_remove k rest
  end.

Abbreviation FS := (gmap string listing).

(* fs.mkdir(dir, { recursive: true }) *)
Definition fs_mkdir (dir : string) (fs : FS) : FS :=
  match fs !! dir with
  | Some _ => fs
  | None => <[dir := []]> fs
  end.

(* fs.readdir(dir) *)
Definition fs_readdir (fs : FS) (dir : string) : option (list string) :=
  map fst <$> fs !! dir.

(* fs.readFile(path.join(dir, file)) *)
Definition fs_readFile (fs : FS) (dir file : string) : option string :=
  fs !! dir ≫= assoc_get file.

(* fs.access(path.join(dir, file)).then(() => true).catch(() => false),
   for a file name that is one path segment and names a file
   ([plain_name]); the empty name, [.] and [..] name a directory, which
   exists where the model says false. *)
Definition fs_access (fs : FS) (dir file : string) : bool :=
  match fs_readFile fs dir file with
  | Some _ => true
  | None => false
  end.

(* fs.writeFile(path.join(dir, file), content) for a file name that is
   one path segment: replaces the content of an existing file, adds a
   new file to the listing otherwise; fails when the directory does not
   exist. A name with a path separator is outside the model (the write
   fails here; node resolves the path and may write into another
   directory). *)
Definition fs_writeFile (fs : FS) (dir file content : string) : option FS :=
  if flat_name file then
    match fs !! dir with
    | Some l => Some (<[dir := assoc_set file content l]> fs)
    | None => None
    end
  else None.

(* fs.unlink(path.join(dir, file)) *)
Definition fs_unlink (fs : FS) (dir file : string) : option FS :=
  match fs_readFile fs dir file, fs !! dir with
  | Some _, Some l => Some (<[dir := assoc_remove file l]> fs)
  | _, _ => None
  end.

(* (await fs.stat(path.join(dir, file))).size *)
Definition fs_stat_size (fs : FS) (dir file : string) : option Z :=
  (fun content => Z.of_nat (String.length content)) <$> fs_readFile fs dir file.

(** ** Registry *)

Record Collection (Schema : Type) : Type := {
  name : string;
  schema : Schema;
}.
Arguments name {Schema} _.
Arguments schema {Schema} _.

Record Global (Schema : Type) : Type := {
  global_name : string;
  global_schema : Schema;
}.
Arguments global_name {Schema} _.
Arguments global_schema {Schema} _.

(* CollectionReference = string | Collection *)
Inductive CollectionReference (Schema : Type) : Type :=
  | RefName (ref : string)
  | RefHandle (col : Collection Schema).
Arguments RefName {Schema} ref.
Arguments RefHandle {Schema} col.

Inductive GlobalReference (Schema : Type) : Type :=
  | GlobalName (ref : string)
  | GlobalHandle (glob : Global Schema).
Arguments GlobalName {Schema} ref.
Arguments GlobalHandle {Schema} glob.

Record LocalApi (Schema : Type) : Type := {
  collections : gmap string (Collection Schema);
  globals : gmap string (Global Schema);
  contentDir : string;
}.
Arguments collections {Schema} _.
Arguments globals {Schema} _.
Arguments contentDir {Schema} _.

(* new Map(list.map((c) => [c.name, c])): a later declaration of a name
   replaces an earlier one. *)
Definition collection_map {Schema} (l : list (Collection Schema))
  : gmap string (Collection Schema) :=
  foldl (fun m c => <[name c := c]> m) ∅ l.

Definition global_map {Schema} (l : list (Global Schema))
  : gmap string (Global Schema) :=
  foldl (fun m g => <[global_name g := g]> m) ∅ l.

(* constructor *)
Definition new_LocalApi {Schema} (cols : list (Collection Schema))
  (globs : list (Global Schema)) (dir : string) : LocalApi Schema :=
  {| collections := collection_map cols;
     globals := global_map globs;
     contentDir := dir |}.

Definition setConfig {Schema} (api : LocalApi Schema)
  (cols : list (Collection Schema)) (globs : list (Global Schema))
  : LocalApi Schema :=
  {| collections := collection_map cols;
     globals := global_map globs;
     contentDir := contentDir api |}.

Definition getCollectionRef {Schema} (api : LocalApi Schema)
  (ref : CollectionReference Schema) : result (Collection Schema) :=
  match ref with
  | RefName ref =>
      match collections api !! ref with
      | Some collection => Ok collection
      | None => Throw (JsError ("Collection " +:+ ref +:+ " not found"))
      end
  | RefHandle col => Ok col
  end.

Definition getGlobalRef {Schema} (api : LocalApi Schema)
  (ref : GlobalReference Schema) : result (Global Schema) :=
  match ref with
  | GlobalName ref =>
      match globals api !! ref with
      | Some global => Ok global
      | None => Throw (JsError ("Global " +:+ ref +:+ " not found"))
      end
  | GlobalHandle glob => Ok glob
  end.

(** ** Options and results of the query methods *)

Inductive direction : Type := Asc | Desc.

Record EntriesOptions : Type := {
  opt_includeCount : bool;
  opt_include : option (list string);
  opt_limit : option Z;
  opt_offset : option Z;
  opt_filters : option value;
  opt_sort : option (list (string * direction));
}.

(* a call without the options argument *)
Definition no_options : EntriesOptions :=
  {| opt_includeCount := false; opt_include := None; opt_limit := None;
     opt_offset := None; opt_filters := None; opt_sort := None |}.

Record EntriesResult : Type := {
  entries : list value;
  limit : Z;
  offset : Z;
  count : option Z;
}.

Fixpoint result_map {A B} (f : A -> result B) (l : list A) : result (list B) :=
  match l with
  | [] => Ok []
  | x :: rest =>
      do y <- f x;
      do ys <- result_map f rest;
      Ok (y :: ys)
  end.

Fixpoint result_fold {A B} (f : B -> A -> result B) (acc : B) (l : list A) : result B :=
  match l with
  | [] => Ok acc
  | x :: rest =>
      do acc' <- f acc x;
      result_fold f acc' rest
  end.

(** ** Array.prototype.sort

    The sort is stable (ECMAScript 2019). With a consistent comparator
    every stable sort returns the same array; the model is the stable
    insertion sort. Elements that are [undefined] go to the end without
    a call of the comparator. *)

Section Sort.
Context {A : Type} (cmp : A -> A -> Z).

Fixpoint insert (x : A) (l : list A) : list A :=
  match l with
  | [] => [x]
  | y :: rest => if 0 <? cmp x y then y :: insert x rest else x :: y :: rest
  end.

Fixpoint insertion_sort (l : list A) : list A :=
  match l with
  | [] => []
  | x :: rest => insert x (insertion_sort rest)
  end.
End Sort.

Section LocalApi.
Context {Schema JsonSchema AjvFormats AjvError : Type}.

(** JSON.stringify(v, null, 2) and JSON.parse (None: SyntaxError) *)
Variable JSON_stringify : value -> string.
Variable JSON_parse : string -> option value.

(** schemas.js, validate.js and ajv: [ajv_validate formats schema data]
    is the pair of [validate(data)] and [validate.errors] for
    [validate = new Ajv({ formats }).compile(schema)]. *)
Variable convertZodSchema : Schema -> gmap string Schema -> JsonSchema.
Variable ajvFormats : list string -> AjvFormats.
Variable ajv_validate : AjvFormats -> JsonSchema -> value -> bool * list AjvError.
Variable ajv_errorsText : list AjvError -> string.

(** zod: schema.parse(data) *)
Variable zod_parse : Schema -> value -> result value.

(** applyFilters.js *)
Variable doesMatchFilter : value -> value -> bool.

(** new Date(s).getTime(), None for NaN; a.localeCompare(b) *)
Variable Date_getTime : string -> option Z.
Variable localeCompare : string -> string -> Z.

Implicit Types (api : LocalApi Schema) (fs : FS).

(** *** Entry store *)

(* The body of the try block of getEntry up to [const entry]:
   [colName] is [col.name], None when it is not a string (path.join
   throws). *)
Definition readEntry api fs (colName : option string) (id : value)
  : result value :=
  do col_name <- or_throw colName TypeError;
  let dir := path_join (contentDir api) col_name in
  do content <- or_throw (fs_readFile fs dir (js_to_string id +:+ ".json")) FsError;
  do data <- or_throw (JSON_parse content) SyntaxError;
  js_get data "data".

(* [this.getEntry(value.collection, value.id)] on the runtime values
   of a reference field: a string is looked up in the registry, any
   other value is passed through as the collection handle. *)
Definition getEntry_nested api fs (collection id : value) : result value :=
  match collection with
  | VStr ref =>
      do col <- getCollectionRef api (RefName ref);
      Ok (try_catch (readEntry api fs (Some (name col)) id) VNull)
  | _ =>
      let colName := match prop collection "name" with
                     | VStr s => Some s
                     | _ => None
                     end in
      Ok (try_catch (readEntry api fs colName id) VNull)
  end.

(* One round of the include loop:
     const value = entry[include];
     if (value?.id && value?.collection) {
       const other = await this.getEntry(value.collection, value.id);
       entry[include].entry = other;
     } *)
Definition resolveInclude api fs (entry : value) (include : string)
  : result value :=
  do value <- js_get entry include;
  if truthy (opt_get value "id") && truthy (opt_get value "collection") then
    do other <- getEntry_nested api fs (prop value "collection") (prop value "id");
    Ok (js_set entry include (js_set value "entry" other))
  else Ok entry.

Definition getEntry api fs (collection : CollectionReference Schema)
  (id : value) (include : option (list string)) : result value :=
  do col <- getCollectionRef api collection;
  Ok (try_catch
        (do entry <- readEntry api fs (Some (name col)) id;
         if truthy entry && negb (length (default [] include) =? 0)%nat then
           result_fold (resolveInclude api fs) entry (default [] include)
         else Ok entry)
        VNull).

Definition _getCollections api : list (Collection Schema) :=
  (map_to_list (collections api)).*2.

(* [validate(data)] and [validate.errors] for the validator that
   setEntry compiles from the schema of [col] and the schemas of all
   registered collections. *)
Definition validateEntry api (col : Collection Schema) (data : value)
  : bool * list AjvError :=
  let collections := _getCollections api in
  let schema :=
    convertZodSchema (schema col)
      (foldl (fun acc col => <[name col := schema col]> acc) ∅ collections) in
  let validate := ajv_validate (ajvFormats (map name collections)) schema in
  validate data.

Definition setEntry api fs (collection : CollectionReference Schema)
  (id : value) (data : value) : result unit * FS :=
  match getCollectionRef api collection with
  | Throw e => (Throw e, fs)
  | Ok col =>
      let dir := path_join (contentDir api) (name col) in
      let fs := fs_mkdir dir fs in
      let '(valid, errors) := validateEntry api col data in
      if negb valid then (Throw (JsError (ajv_errorsText errors)), fs)
      else
        match fs_writeFile fs dir (js_to_string id +:+ ".json")
                (JSON_stringify (VObj [("data", data)])) with
        | Some fs' => (Ok tt, fs')
        | None => (Throw FsError, fs)
        end
  end.

Definition deleteEntry api fs (collection : CollectionReference Schema)
  (id : value) : result bool * FS :=
  match getCollectionRef api collection with
  | Throw e => (Throw e, fs)
  | Ok col =>
      match fs_unlink fs (path_join (contentDir api) (name col))
              (js_to_string id +:+ ".json") with
      | Some fs' => (Ok true, fs')
      | None => (Ok false, fs)
      end
  end.

Definition getCollection api (ref : CollectionReference Schema)
  : result (Collection Schema) :=
  getCollectionRef api ref.

(* The values of the Map; the model keeps them without the insertion
   order of the Map. *)
Definition getCollections api : list (Collection Schema) :=
  _getCollections api.

(** *** Query engine *)

(* The comparator of getEntries for one [key, direction] pair, on
   entries that are not null or undefined. Values are read from JSON
   files, so none is a Date object and the [instanceof Date] branch
   is never taken. *)
Definition compareEntries (sort : string * direction) (a b : value) : Z :=
  let '(key, direction) := sort in
  let valueA := prop a key in
  let valueB := prop b key in
  let asc := match direction with Asc => true | Desc => false end in
  let byString :=
    if asc then localeCompare (js_to_string valueA) (js_to_string valueB)
    else localeCompare (js_to_string valueB) (js_to_string valueA) in
  if is_nullish valueA && is_nullish valueB then 0
  else if is_nullish valueA then (if asc then -1 else 1)
  else if is_nullish valueB then (if asc then 1 else -1)
  else
    match valueA, valueB with
    | VNum x, VNum y => if asc then x - y else y - x
    | VStr x, VStr y =>
        match Date_getTime x, Date_getTime y with
        | Some dateA, Some dateB =>
            if asc then dateA - dateB else dateB - dateA
        | _, _ => byString
        end
    | _, _ => byString
    end.

(* entries.sort((a, b) => ...) for one pair: [a[key]] throws on a null
   entry as soon as the comparator is called, that is when two entries
   or more are compared. *)
Definition sort_pass (entries : list value) (sort : string * direction)
  : result (list value) :=
  let defined := List.filter (fun e => negb (is_undefined e)) entries in
  let undefineds := List.filter is_undefined entries in
  if (2 <=? length defined)%nat && existsb is_null defined then Throw TypeError
  else Ok (insertion_sort (compareEntries sort) defined ++ undefineds)%list.

Definition readEntryFile fs (dir file : string) : result value :=
  do content <- or_throw (fs_readFile fs dir file) FsError;
  do data <- or_throw (JSON_parse content) SyntaxError;
  js_get data "data".

Definition paginate (options : EntriesOptions) (entries : list value)
  : list value :=
  let entries :=
    match opt_offset options with
    | Some o => if o =? 0 then entries else js_slice o None entries
    | None => entries
    end in
  js_slice 0 (Some (default 1000 (opt_limit options))) entries.

Definition applyFilters (options : EntriesOptions) (entries : list value)
  : list value :=
  match opt_filters options with
  | Some filters =>
      if truthy filters
      then List.filter (fun entry => doesMatchFilter entry filters) entries
      else entries
  | None => entries
  end.

(* for (const sort of options?.sort ?? []) entries.sort(...) *)
Definition sortEntries (options : EntriesOptions) (entries : list value)
  : result (list value) :=
  result_fold sort_pass entries (default [] (opt_sort options)).

(* if (options?.include?.length) for (const entry of entries) ... *)
Definition includeEntries api fs (options : EntriesOptions)
  (entries : list value) : result (list value) :=
  if (length (default [] (opt_include options)) =? 0)%nat then Ok entries
  else result_map
         (fun entry =>
            result_fold (resolveInclude api fs) entry
              (default [] (opt_include options)))
         entries.

Definition getEntries api fs (collection : CollectionReference Schema)
  (options : EntriesOptions) : result EntriesResult :=
  let limit := default 1000 (opt_limit options) in
  do col <- getCollectionRef api collection;
  let dir := path_join (contentDir api) (name col) in
  match fs_readdir fs dir with
  | None =>
      Ok {| entries := []; limit := limit;
            offset := default 0 (opt_offset options); count := None |}
  | Some files =>
      do entries <-
        result_map (readEntryFile fs dir)
             (List.filter (string_endsWith ".json") files);
      let entries := applyFilters options entries in
      let totalCount := Z.of_nat (length entries) in
      let entries := paginate options entries in
      do entries <- sortEntries options entries;
      do entries <- includeEntries api fs options entries;
      Ok {| entries := entries; limit := limit;
            offset := default 0 (opt_offset options);
            count := if opt_includeCount options then Some totalCount
                     else None |}
  end.

(** *** Global store *)

Definition _getGlobalValue api fs (glob : Global Schema) : value :=
  try_catch
    (do content <- or_throw (fs_readFile fs (path_join (contentDir api) "globals")
                               (global_name glob +:+ ".json")) FsError;
     do data <- or_throw (JSON_parse content) SyntaxError;
     js_get data "data")
    VNull.

Definition _getGlobals api : list (Global Schema) :=
  (map_to_list (globals api)).*2.

Definition getGlobals api : list (Global Schema) := _getGlobals api.

Definition getGlobal api (ref : GlobalReference Schema)
  : result (Global Schema) :=
  getGlobalRef api ref.

Definition getGlobalValues api fs : list value :=
  map (_getGlobalValue api fs) (_getGlobals api).

Definition getGlobalValue api fs (ref : GlobalReference Schema)
  : result value :=
  do global <- getGlobalRef api ref;
  Ok (_getGlobalValue api fs global).

Definition setGlobalValue api fs (global : GlobalReference Schema)
  (data : value) : result unit * FS :=
  match getGlobalRef api global with
  | Throw e => (Throw e, fs)
  | Ok glob =>
      let dir := path_join (contentDir api) "globals" in
      let fs := fs_mkdir dir fs in
      match zod_parse (global_schema glob) data with
      | Throw e => (Throw e, fs)
      | Ok parsed =>
          match fs_writeFile fs dir (global_name glob +:+ ".json")
                  (JSON_stringify (VObj [("data", parsed)])) with
          | Some fs' => (Ok tt, fs')
          | None => (Throw FsError, fs)
          end
      end
  end.
End LocalApi.

(** ** Asset store *)

(* The extension -> MIME table of getContentType. *)
Definition contentTypes : list (string * string) :=
  [ (".jpg", "image/jpeg"); (".jpeg", "image/jpeg"); (".png", "image/png");
    (".gif", "image/gif"); (".webp", "image/webp"); (".avif", "image/avif");
    (".svg", "image/svg+xml");
    (".mp4", "video/mp4"); (".webm", "video/webm");
    (".mp3", "audio/mpeg"); (".wav", "audio/wav"); (".ogg", "audio/ogg");
    (".pdf", "application/pdf"); (".doc", "application/msword");
    (".docx",
     "application/vnd.openxmlformats-officedocument.wordprocessingml.document");
    (".zip", "application/zip"); (".rar", "application/x-rar-compressed");
    (".json", "application/json"); (".xml", "application/xml");
    (".txt", "text/plain") ].

Definition getContentType (filename : string) : option string :=
  let ext := toLowerCase (extname filename) in
  assoc_get ext contentTypes.

Inductive image_format : Type := Avif | Webp | Jpeg | Png.

Record ResizeOptions : Type := {
  fit : option string;
  position : option value;
  background : option string;
  withoutEnlargement : option bool;
  withoutReduction : option bool;
}.

Record AssetOptions : Type := {
  width : option Z;
  height : option Z;
  format : option image_format;
  quality : option Z;
  resizeOptions : ResizeOptions;
}.

Definition no_resizeOptions : ResizeOptions :=
  {| fit := None; position := None; background := None;
     withoutEnlargement := None; withoutReduction := None |}.

Definition no_assetOptions : AssetOptions :=
  {| width := None; height := None; format := None; quality := None;
     resizeOptions := no_resizeOptions |}.

Record UploadResult : Type := {
  up_filename : string;
  up_path : string;
  up_size : Z;
  up_contentType : option string;
}.

Record AssetData : Type := {
  data : string;
  contentType : option string;
  data_width : option Z;
  data_height : option Z;
}.

Record Asset : Type := {
  asset_name : string;
  key : string;
  size : Z;
  metadata : option Z * option Z;
  httpMetadata : option string;
}.

(* a number option in a condition: undefined, 0 are falsy *)
Definition truthy_num (o : option Z) : bool :=
  match o with
  | Some n => negb (n =? 0)
  | None => false
  end.

Definition truthy_str (o : option string) : bool :=
  match o with
  | Some s => negb (String.eqb s "")
  | None => false
  end.

Definition is_some {A} (o : option A) : bool :=
  match o with
  | Some _ => true
  | None => false
  end.

(* contentType?.startsWith("image/") *)
Definition is_image (contentType : option string) : bool :=
  match contentType with
  | Some c => string_prefix "image/" c
  | None => false
  end.

(* files.indexOf(x), None for -1 *)
Fixpoint indexOf (x : string) (files : list string) : option nat :=
  match files with
  | [] => None
  | f :: rest => if String.eqb f x then Some 0%nat else S <$> indexOf x rest
  end.

(* filename.split("/").pop() *)
Fixpoint last_segment (s : string) : string :=
  match s with
  | EmptyString => EmptyString
  | String c s' =>
      if string_contains_char "/"%char s then
        (if Ascii.eqb c "/"%char && negb (string_contains_char "/"%char s')
         then s' else last_segment s')
      else s
  end.

Section Assets.
Context {Schema : Type} {Sharp : Type}.

(** The optional image library: [sharp data] is [require("sharp")(data)],
    None when the module is missing or the call throws; the other
    operations return None when they throw. *)
Variable sharp : string -> option Sharp.
Variable sharp_metadata : Sharp -> option (option Z * option Z).
Variable sharp_resize :
  Sharp -> option Z -> option Z -> ResizeOptions -> option Sharp.
Variable sharp_toFormat : Sharp -> image_format -> option Z -> option Sharp.
Variable sharp_toBuffer : Sharp -> option string.

Implicit Types (api : LocalApi Schema) (fs : FS).

Definition getAssetDir api : string := path_join (contentDir api) "assets".

Definition ensureAssetDir api fs : string * FS :=
  let dir := getAssetDir api in
  (dir, fs_mkdir dir fs).

Definition getAssetPath api (filename : string) : string :=
  path_join (getAssetDir api) filename.

(* The loop of uploadAsset that looks for a free name; one unit of
   fuel per evaluation of the loop condition. *)
Fixpoint uniqueFilename (fuel : nat) fs (dir filename finalFilename : string)
  (counter : nat) : option string :=
  match fuel with
  | O => None
  | S fuel' =>
      if fs_access fs dir finalFilename then
        let ext := extname filename in
        let base := basename filename ext in
        uniqueFilename fuel' fs dir filename
          (base +:+ "-" +:+ pretty counter +:+ ext) (S counter)
      else Some finalFilename
  end.

(* A directory of n files rejects at most n of the candidate names,
   so n + 2 evaluations of the condition are enough. *)
Definition uploadAsset_fuel fs (dir : string) : nat :=
  S (S (length (default [] (fs !! dir)))).

Definition uploadAsset api fs (file : string) (filename : string)
  (contentType : option string) : result UploadResult * FS :=
  let '(dir, fs) := ensureAssetDir api fs in
  let contentType :=
    match contentType with
    | Some c => Some c
    | None => getContentType filename
    end in
  match uniqueFilename (uploadAsset_fuel fs dir) fs dir filename filename 1 with
  | None => (Throw FsError, fs)
  | Some finalFilename =>
      match fs_writeFile fs dir finalFilename file with
      | None => (Throw FsError, fs)
      | Some fs' =>
          match fs_stat_size fs' dir finalFilename with
          | None => (Throw FsError, fs')
          | Some size =>
              (Ok {| up_filename := finalFilename;
                     up_path := path_join dir finalFilename;
                     up_size := size;
                     up_contentType := contentType |}, fs')
          end
      end
  end.

Definition wants_transform (options : AssetOptions) : bool :=
  truthy_num (width options) || truthy_num (height options)
  || is_some (format options) || truthy_num (quality options).

(* The inner try block of getAsset, as the triple (data, width,
   height) reached when it ends or throws. *)
Definition transformImage (data : string) (options : AssetOptions)
  : string * option Z * option Z :=
  match sharp data with
  | None => (data, None, None)
  | Some transform =>
      match sharp_metadata transform with
      | None => (data, None, None)
      | Some (width0, height0) =>
          if wants_transform options then
            let resized :=
              if truthy_num (width options) || truthy_num (height options)
              then sharp_resize transform (width options) (height options)
                     (resizeOptions options)
              else Some transform in
            let formatted :=
              match resized, format options with
              | Some t, Some f => sharp_toFormat t f (quality options)
              | r, _ => r
              end in
            match formatted ≫= sharp_toBuffer with
            | None => (data, width0, height0)
            | Some data' =>
                match sharp data' ≫= sharp_metadata with
                | None => (data', width0, height0)
                | Some (width1, height1) => (data', width1, height1)
                end
            end
          else (data, width0, height0)
      end
  end.

Definition getAsset api fs (filename : string) (options : AssetOptions)
  : option AssetData :=
  match fs_readFile fs (getAssetDir api) filename with
  | None => None
  | Some data =>
      let contentType := getContentType filename in
      let '(data, width, height) :=
        if is_image contentType
        then transformImage data options
        else (data, None, None) in
      Some {| data := data; contentType := contentType;
              data_width := width; data_height := height |}
  end.

Record ListOptions : Type := {
  search : option string;
  list_limit : option Z;
  startAfter : option string;
}.

Definition no_listOptions : ListOptions :=
  {| search := None; list_limit := None; startAfter := None |}.

(* The three steps of listAssets on the directory listing. *)
Definition searchFiles (options : ListOptions) (files : list string)
  : list string :=
  match search options with
  | Some s =>
      if String.eqb s "" then files
      else List.filter
             (fun file => string_includes (toLowerCase s) (toLowerCase file))
             files
  | None => files
  end.

Definition cutAfter (options : ListOptions) (files : list string)
  : list string :=
  match startAfter options with
  | Some s =>
      if String.eqb s "" then files
      else match indexOf s files with
           | Some index => js_slice (Z.of_nat index + 1) None files
           | None => files
           end
  | None => files
  end.

Definition limitFiles (options : ListOptions) (files : list string)
  : list string :=
  if truthy_num (list_limit options)
  then js_slice 0 (list_limit options) files
  else files.

Definition describeAsset fs (dir filename : string) : option Asset :=
  match fs_stat_size fs dir filename with
  | None => None
  | Some size =>
      let contentType := getContentType filename in
      let dims : option Z * option Z :=
        if is_image contentType then
          match fs_readFile fs dir filename ≫= sharp with
          | Some image => default (None, None) (sharp_metadata image)
          | None => (None, None)
          end
        else (None, None) in
      Some {| asset_name := last_segment filename; key := filename;
              size := size; metadata := dims; httpMetadata := contentType |}
  end.

Definition listAssets api fs (options : ListOptions) : list Asset :=
  let dir := getAssetDir api in
  match fs_readdir fs dir with
  | None => []
  | Some files =>
      let files := searchFiles options files in
      let files := cutAfter options files in
      let files := limitFiles options files in
      default [] (mapM (describeAsset fs dir) files)
  end.

Definition deleteAsset api fs (filename : string) : bool * FS :=
  match fs_unlink fs (getAssetDir api) filename with
  | Some fs' => (true, fs')
  | None => (false, fs)
  end.
End Assets.

(** ** Reference instances of the builtins and collaborators

    Executable instances of the section variables, used to run the
    methods on concrete stores. *)

Definition dquote : ascii := ascii_of_nat 34.
Definition newline : ascii := ascii_of_nat 10.

Module JSON.
Fixpoint escape (s : string) : string :=
  match s with
  | EmptyString => EmptyString
  | String c s' =>
      if Ascii.eqb c dquote || Ascii.eqb c "\"%char
      then String "\"%char (String c (escape s'))
      else String c (escape s')
  end.

Definition quote (s : string) : string :=
  String dquote (escape s +:+ String dquote EmptyString).

Definition nl : string := String newline EmptyString.

(* JSON.stringify(v, null, 2) below the top level, at indentation
   [indent]: an undefined array element is written as null, an
   undefined property is left out. *)
Fixpoint stringify_at (indent : string) (v : value) : string :=
  let inner := indent +:+ "  " in
  match v with
  | VUndefined | VNull => "null"
  | VBool true => "true"
  | VBool false => "false"
  | VNum n => pretty n
  | VStr s => quote s
  | VArr [] => "[]"
  | VArr items =>
      "[" +:+ nl
      +:+ join ("," +:+ nl)
            (map (fun x => inner +:+ stringify_at inner x) items)
      +:+ nl +:+ indent +:+ "]"
  | VObj fields =>
      let members :=
        (fix members (l : list (string * value)) : list string :=
           match l with
           | [] => []
           | (k, x) :: rest =>
               if is_undefined x then members rest
               else (inner +:+ quote k +:+ ": " +:+ stringify_at inner x)
                      :: members rest
           end) fields in
      match members with
      | [] => "{}"
      | _ => "{" +:+ nl +:+ join ("," +:+ nl) members +:+ nl +:+ indent +:+ "}"
      end
  end.

Definition stringify (v : value) : string := stringify_at "" v.

Definition is_ws (c : ascii) : bool :=
  Ascii.eqb c " "%char || Ascii.eqb c newline
  || Ascii.eqb c (ascii_of_nat 9) || Ascii.eqb c (ascii_of_nat 13).

Fixpoint skip_ws (s : string) : string :=
  match s with
  | String c s' => if is_ws c then skip_ws s' else s
  | EmptyString => s
  end.

(* the text after the prefix [word] *)
Fixpoint strip_prefix (word s : string) : option string :=
  match word, s with
  | EmptyString, _ => Some s
  | String a word', String b s' =>
      if Ascii.eqb a b then strip_prefix word' s' else None
  | String _ _, EmptyString => None
  end.

Definition expect (word : string) (v : value) (s : string)
  : option (value * string) :=
  rest ← strip_prefix word s; Some (v, rest).

(* the characters of a string literal after its opening quote *)
Fixpoint parse_chars (s : string) : option (string * string) :=
  match s with
  | EmptyString => None
  | String c s' =>
      if Ascii.eqb c dquote then Some (EmptyString, s')
      else if Ascii.eqb c "\"%char then
        match s' with
        | String e s'' =>
            if Ascii.eqb e dquote || Ascii.eqb e "\"%char then
              '(str, rest) ← parse_chars s''; Some (String e str, rest)
            else None
        | EmptyString => None
        end
      else '(str, rest) ← parse_chars s'; Some (String c str, rest)
  end.

Definition digit (c : ascii) : option Z :=
  let n := nat_of_ascii c in
  if (48 <=? n)%nat && (n <=? 57)%nat then Some (Z.of_nat (n - 48)) else None.

Fixpoint parse_digits (acc : Z) (s : string) : Z * string :=
  match s with
  | String c s' =>
      match digit c with
      | Some d => parse_digits (10 * acc + d) s'
      | None => (acc, s)
      end
  | EmptyString => (acc, s)
  end.

Definition parse_number (s : string) : option (value * string) :=
  match s with
  | String c s' =>
      if Ascii.eqb c "-"%char then
        match s' with
        | String d _ =>
            if is_some (digit d)
            then let '(n, rest) := parse_digits 0 s' in Some (VNum (- n), rest)
            else None
        | EmptyString => None
        end
      else if is_some (digit c)
      then let '(n, rest) := parse_digits 0 s in Some (VNum n, rest)
      else None
  | EmptyString => None
  end.

(* the text after white space and the character [c] *)
Definition next_is (c : ascii) (s : string) : option string :=
  match skip_ws s with
  | String c' rest => if Ascii.eqb c' c then Some rest else None
  | EmptyString => None
  end.

(* The value that starts with the character [c], followed by [s]:
   [items] and [members] parse the elements of an array and the
   members of an object. *)
Definition dispatch (items : string → option (list value * string))
  (members : string → option (list (string * value) * string))
  (c : ascii) (s : string) : option (value * string) :=
  if Ascii.eqb c "n"%char then expect "null" VNull (String c s)
  else if Ascii.eqb c "t"%char then expect "true" (VBool true) (String c s)
  else if Ascii.eqb c "f"%char then expect "false" (VBool false) (String c s)
  else if Ascii.eqb c dquote then
    '(str, rest) ← parse_chars s; Some (VStr str, rest)
  else if Ascii.eqb c "["%char then
    match next_is "]" s with
    | Some rest => Some (VArr [], rest)
    | None => '(items, rest) ← items s; Some (VArr items, rest)
    end
  else if Ascii.eqb c "{"%char then
    match next_is "}" s with
    | Some rest => Some (VObj [], rest)
    | None =>
        '(fields, rest) ← members s;
        (* a repeated key keeps its first position and its last value *)
        Some (VObj (foldl (fun acc kv => assoc_set kv.1 kv.2 acc) [] fields),
              rest)
    end
  else parse_number (String c s).

Fixpoint parse_value (fuel : nat) (s : string) {struct fuel}
  : option (value * string) :=
  match fuel with
  | O => None
  | S fuel' =>
      match skip_ws s with
      | EmptyString => None
      | String c s' => dispatch (parse_items fuel') (parse_members fuel') c s'
      end
  end
with parse_items (fuel : nat) (s : string) {struct fuel}
  : option (list value * string) :=
  match fuel with
  | O => None
  | S fuel' =>
      '(v, rest) ← parse_value fuel' s;
      match next_is "," rest with
      | Some rest' =>
          '(items, rest'') ← parse_items fuel' rest'; Some (v :: items, rest'')
      | None => rest' ← next_is "]" rest; Some ([v], rest')
      end
  end
with parse_members (fuel : nat) (s : string) {struct fuel}
  : option (list (string * value) * string) :=
  match fuel with
  | O => None
  | S fuel' =>
      s' ← next_is dquote s;
      '(k, rest) ← parse_chars s';
      rest' ← next_is ":" rest;
      '(v, rest'') ← parse_value fuel' rest';
      match next_is "," rest'' with
      | Some rest3 =>
          '(fields, rest4) ← parse_members fuel' rest3;
          Some ((k, v) :: fields, rest4)
      | None => rest3 ← next_is "}" rest''; Some ([(k, v)], rest3)
      end
  end.

(* JSON.parse(text), None for a SyntaxError *)
Definition parse (text : string) : option value :=
  match parse_value (S (String.length text)) text with
  | Some (v, rest) =>
      match skip_ws rest with
      | EmptyString => Some v
      | _ => None
      end
  | None => None
  end.
End JSON.

Module Ref.
(** A structural validator in the place of zod, schemas.js and ajv:
    a schema lists the required fields of an entry with their types. *)
Inductive field_type : Type := TString | TNumber | TBoolean | TReference.

Definition Schema : Type := list (string * field_type).

Definition convertZodSchema (schema : Schema) (all : gmap string Schema)
  : Schema * gmap string Schema := (schema, all).

Definition ajvFormats (names : list string) : list string := names.

Definition type_name (ty : field_type) : string :=
  match ty with
  | TString => "string"
  | TNumber => "number"
  | TBoolean => "boolean"
  | TReference => "object"
  end.

Definition has_type (ty : field_type) (v : value) : bool :=
  match ty, v with
  | TString, VStr _ => true
  | TNumber, VNum _ => true
  | TBoolean, VBool _ => true
  | TReference, VObj _ =>
      truthy (prop v "id") && truthy (prop v "collection")
  | _, _ => false
  end.

Definition check_field (data : value) (field : string * field_type)
  : list string :=
  let '(k, ty) := field in
  match prop data k with
  | VUndefined => ["data must have required property '" +:+ k +:+ "'"]
  | v => if has_type ty v then []
         else ["data/" +:+ k +:+ " must be " +:+ type_name ty]
  end.

Definition ajv_validate (formats : list string)
  (schema : Schema * gmap string Schema) (data : value)
  : bool * list string :=
  match data with
  | VObj _ =>
      let errors := concat (map (check_field data) schema.1) in
      ((length errors =? 0)%nat, errors)
  | _ => (false, ["data must be object"])
  end.

Definition ajv_errorsText (errors : list string) : string :=
  join ", " errors.

Definition zod_parse (schema : Schema) (data : value) : result value :=
  if (ajv_validate [] (schema, ∅) data).1 then Ok data
  else Throw (JsError "ZodError").

Fixpoint value_eqb (a b : value) : bool :=
  match a, b with
  | VUndefined, VUndefined | VNull, VNull => true
  | VBool x, VBool y => Bool.eqb x y
  | VNum x, VNum y => x =? y
  | VStr x, VStr y => String.eqb x y
  | VArr xs, VArr ys =>
      (fix items (xs ys : list value) : bool :=
         match xs, ys with
         | [], [] => true
         | x :: xs', y :: ys' => value_eqb x y && items xs' ys'
         | _, _ => false
         end) xs ys
  | VObj xs, VObj ys =>
      (fix fields (xs ys : list (string * value)) : bool :=
         match xs, ys with
         | [], [] => true
         | (k, x) :: xs', (k', y) :: ys' =>
             String.eqb k k' && value_eqb x y && fields xs' ys'
         | _, _ => false
         end) xs ys
  | _, _ => false
  end.

(* An equality filter in the place of applyFilters.js: every field of
   the filter object equals the field of the entry. *)
Definition doesMatchFilter (entry filters : value) : bool :=
  match filters with
  | VObj fields =>
      forallb (fun kv => value_eqb (prop entry kv.1) kv.2) fields
  | _ => true
  end.

Definition all_digits (s : string) : option Z :=
  let '(n, rest) := JSON.parse_digits 0 s in
  if String.eqb rest "" && negb (String.eqb s "") then Some n else None.

(* days from 1970-01-01 to the civil date y-m-d *)
Definition days_from_civil (y m d : Z) : Z :=
  let y := if m <=? 2 then y - 1 else y in
  let era := y / 400 in
  let yoe := y - era * 400 in
  let doy := (153 * (if 2 <? m then m - 3 else m + 9) + 2) / 5 + d - 1 in
  let doe := yoe * 365 + yoe / 4 - yoe / 100 + doy in
  era * 146097 + doe - 719468.

(* new Date(s).getTime() for the date-only ISO form YYYY-MM-DD *)
Definition Date_getTime (s : string) : option Z :=
  if (String.length s =? 10)%nat
     && String.eqb (String.substring 4 1 s) "-"
     && String.eqb (String.substring 7 1 s) "-" then
    y ← all_digits (String.substring 0 4 s);
    m ← all_digits (String.substring 5 2 s);
    d ← all_digits (String.substring 8 2 s);
    if (1 <=? m) && (m <=? 12) && (1 <=? d) && (d <=? 31)
    then Some (days_from_civil y m d * 86400000)
    else None
  else None.

(* comparison by character codes in the place of the locale order *)
Definition localeCompare (a b : string) : Z :=
  match String.compare a b with
  | Lt => -1
  | Eq => 0
  | Gt => 1
  end.

(** An image library whose images are their bytes: the metadata of an
    image is (number of bytes, 1); resizing to width w keeps the first
    w bytes; a change of format puts the name of the format in front. *)
Definition Sharp : Type := string.

Definition sharp (data : string) : option Sharp := Some data.

Definition sharp_metadata (image : Sharp) : option (option Z * option Z) :=
  Some (Some (Z.of_nat (String.length image)), Some 1).

Definition sharp_resize (image : Sharp) (width height : option Z)
  (options : ResizeOptions) : option Sharp :=
  match width with
  | Some w => Some (String.substring 0 (Z.to_nat w) image)
  | None => Some image
  end.

Definition format_name (f : image_format) : string :=
  match f with
  | Avif => "avif"
  | Webp => "webp"
  | Jpeg => "jpeg"
  | Png => "png"
  end.

Definition sharp_toFormat (image : Sharp) (f : image_format)
  (quality : option Z) : option Sharp :=
  Some (format_name f +:+ ":" +:+ image).

Definition sharp_toBuffer (image : Sharp) : option string := Some image.

(** The methods at the reference instances. *)
Definition getEntry := @getEntry Schema JSON.parse.
Definition setEntry :=
  @setEntry Schema _ _ _ JSON.stringify convertZodSchema ajvFormats
    ajv_validate ajv_errorsText.
Definition validateEntry :=
  @validateEntry Schema _ _ _ convertZodSchema ajvFormats ajv_validate.
Definition getEntries :=
  @getEntries Schema JSON.parse doesMatchFilter Date_getTime localeCompare.
Definition compareEntries := compareEntries Date_getTime localeCompare.
Definition uploadAsset := @uploadAsset Schema.
Definition getAsset :=
  @getAsset Schema Sharp sharp sharp_metadata sharp_resize sharp_toFormat
    sharp_toBuffer.
Definition listAssets := @listAssets Schema Sharp sharp sharp_metadata.

(** A registry of two collections and some stores. *)
Definition posts : Collection Schema :=
  {| name := "posts";
     schema := [("title", TString); ("views", TNumber)] |}.

Definition authors : Collection Schema :=
  {| name := "authors"; schema := [("name", TString)] |}.

Definition api : LocalApi Schema :=
  new_LocalApi [posts; authors] [] "content".

Definition entry_file (id : string) (entry : value) : string * string :=
  (id +:+ ".json", JSON.stringify (VObj [("data", entry)])).
(** Entries, stores and options of the examples. *)
Definition hello : value :=
  VObj [("title", VStr "Hello"); ("views", VNum 3)].

(* the title is missing and views has the wrong type *)
Definition broken : value := VObj [("views", VStr "many")].

Definition post (title : string) (views : Z) (createdAt : value) : value :=
  VObj [("title", VStr title); ("views", VNum views);
        ("createdAt", createdAt)].

Definition p1 : value := post "b" 10 (VStr "2024-01-02").
Definition p2 : value := post "a" 10 (VStr "2023-06-30").
Definition p3 : value := post "c" 7 VNull.
Definition p4 : value := post "a" 12 (VStr "2024-03-15").

Definition posts_store : FS :=
  {[ "content/posts" :=
       [entry_file "p1" p1; entry_file "p2" p2; entry_file "p3" p3;
        entry_file "p4" p4] ]}.

(* a post whose author field refers to a collection that is not declared *)
Definition orphan : value :=
  VObj [("title", VStr "Orphan"); ("views", VNum 1);
        ("author", VObj [("id", VStr "a1"); ("collection", VStr "ghosts")])].

Definition orphan_store : FS :=
  {[ "content/posts" := [entry_file "orphan" orphan] ]}.

Definition sort_by (sorts : list (string * direction)) : EntriesOptions :=
  {| opt_includeCount := false; opt_include := None; opt_limit := None;
     opt_offset := None; opt_filters := None; opt_sort := Some sorts |}.

Definition with_count : EntriesOptions :=
  {| opt_includeCount := true; opt_include := None; opt_limit := None;
     opt_offset := None; opt_filters := None; opt_sort := None |}.

Definition limit_0 : EntriesOptions :=
  {| opt_includeCount := false; opt_include := None; opt_limit := Some 0;
     opt_offset := None; opt_filters := None; opt_sort := None |}.

Definition include_author : EntriesOptions :=
  {| opt_includeCount := false; opt_include := Some ["author"];
     opt_limit := None; opt_offset := None; opt_filters := None;
     opt_sort := None |}.

Definition result_of (l : list value) : EntriesResult :=
  {| entries := l; limit := 1000; offset := 0; count := None |}.

Definition photo_store : FS :=
  {[ "content/assets" := [("photo.jpg", "JPEGBYTES")] ]}.


Definition asset_files : list (string * string) :=
  [("a.png", "A"); ("Logo.svg", "L"); ("b.png", "B"); ("c-logo.txt", "C");
   ("d.png", "D")].

Definition assets_store : FS := {[ "content/assets" := asset_files ]}.
End Ref.

(** More stores and options for the examples. *)
Module Samples.
Import Ref.

Definition site : Global Schema :=
  {| global_name := "site"; global_schema := [("title", TString)] |}.

Definition api_site : LocalApi Schema :=
  new_LocalApi [posts; authors] [site] "content".

Definition my_site : value := VObj [("title", VStr "My site")].

(* a collection whose directory is the directory of the globals *)
Definition globals_collection : Collection Schema :=
  {| name := "globals"; schema := [("title", TString)] |}.

Definition ann : value := VObj [("name", VStr "Ann")].

Definition linked : value :=
  VObj [("title", VStr "Linked"); ("views", VNum 2);
        ("author", VObj [("id", VStr "a1"); ("collection", VStr "authors")])].

Definition linked_store : FS :=
  {[ "content/posts" := [entry_file "linked" linked];
     "content/authors" := [entry_file "a1" ann] ]}.

(* a store with a file that is not JSON *)
Definition corrupt_store : FS :=
  {[ "content/posts" := [entry_file "p1" p1; ("bad.json", "{oops")] ]}.

(* the store after setEntry("posts", "hello", hello) on posts_store *)
Definition posts_store_hello : FS :=
  <[ "content/posts" :=
       [entry_file "p1" p1; entry_file "p2" p2; entry_file "p3" p3;
        entry_file "p4" p4; entry_file "hello" hello] ]> posts_store.

Definition first_two_counted : EntriesOptions :=
  {| opt_includeCount := true; opt_include := None; opt_limit := Some 2;
     opt_offset := None; opt_filters := None; opt_sort := None |}.

Definition first_two_by_title : EntriesOptions :=
  {| opt_includeCount := false; opt_include := None; opt_limit := Some 2;
     opt_offset := None; opt_filters := None;
     opt_sort := Some [("title", Asc)] |}.

Definition by_title_a : EntriesOptions :=
  {| opt_includeCount := false; opt_include := None; opt_limit := None;
     opt_offset := None; opt_filters := Some (VObj [("title", VStr "a")]);
     opt_sort := None |}.

Definition setGlobalValue :=
  @setGlobalValue Schema JSON.stringify zod_parse.
Definition getGlobalValue := @getGlobalValue Schema JSON.parse.
Definition getGlobalValues := @getGlobalValues Schema JSON.parse.

(* the store after setGlobalValue("site", my_site) on the empty store *)
Definition site_store : FS :=
  {[ "content/globals" :=
       [("site.json", JSON.stringify (VObj [("data", my_site)]))] ]}.
End Samples.

(** * Properties *)

(** ** Strings and listings *)

Lemma string_contains_char_app c a b :
  string_contains_char c (a +:+ b)
  = string_contains_char c a || string_contains_char c b.
Proof.
  induction a as [|x a IH]; simpl; [done|].
  destruct (Ascii.eqb c x); [done|apply IH].
Qed.

Lemma flat_name_app a b :
  flat_name (a +:+ b) = flat_name a && flat_name b.
Proof.
  unfold flat_name. rewrite string_contains_char_app.
  by destruct (string_contains_char _ a), (string_contains_char _ b).
Qed.

Lemma plain_name_flat s : plain_name s = true → flat_name s = true.
Proof.
  unfold plain_name. intros H.
  by repeat (apply andb_prop in H as [H _]).
Qed.

Lemma string_length_app a b :
  String.length (a +:+ b) = (String.length a + String.length b)%nat.
Proof. induction a as [|x a IH]; simpl; [done|]. by rewrite IH. Qed.

Lemma string_app_cons c s t : String c s +:+ t = String c (s +:+ t).
Proof. reflexivity. Qed.

Lemma string_app_nil_r s : s +:+ "" = s.
Proof. induction s as [|c s IH]; [done|]. by rewrite string_app_cons, IH. Qed.

Lemma assoc_get_set_eq {A} k (v : A) l : assoc_get k (assoc_set k v l) = Some v.
Proof.
  induction l as [|[k' v'] l IH]; simpl.
  - by rewrite String.eqb_refl.
  - destruct (String.eqb k k') eqn:E; simpl; rewrite ?String.eqb_refl, ?E; done.
Qed.

Lemma assoc_get_set_ne {A} k k' (v : A) l :
  k ≠ k' → assoc_get k' (assoc_set k v l) = assoc_get k' l.
Proof.
  intros Hne. induction l as [|[k0 v0] l IH]; simpl.
  - destruct (String.eqb k' k) eqn:E; [|done].
    apply String.eqb_eq in E. congruence.
  - destruct (String.eqb k k0) eqn:E; simpl.
    + apply String.eqb_eq in E. subst k0.
      destruct (String.eqb k' k) eqn:E'; [|done].
      apply String.eqb_eq in E'. congruence.
    + by rewrite IH.
Qed.

Lemma assoc_get_Some_elem {A} k (v : A) l :
  assoc_get k l = Some v → k ∈ l.*1.
Proof.
  induction l as [|[k' v'] l IH]; simpl; [done|].
  destruct (String.eqb k k') eqn:E.
  - apply String.eqb_eq in E. subst. intros _. apply list_elem_of_here.
  - intros H. apply list_elem_of_further. auto.
Qed.

Lemma assoc_get_None_not_elem {A} k (l : list (string * A)) :
  assoc_get k l = None ↔ k ∉ l.*1.
Proof.
  induction l as [|[k' v'] l IH]; simpl.
  - split; [intros _; apply not_elem_of_nil|done].
  - destruct (String.eqb k k') eqn:E.
    + apply String.eqb_eq in E. subst. split; [done|].
      intros H. exfalso. apply H. apply list_elem_of_here.
    + apply String.eqb_neq in E. rewrite IH. rewrite not_elem_of_cons. tauto.
Qed.

(** ** The file system *)

Lemma fs_mkdir_lookup dir (fs : FS) :
  fs_mkdir dir fs !! dir = Some (default [] (fs !! dir)).
Proof.
  unfold fs_mkdir. destruct (fs !! dir) eqn:E; simpl.
  - done.
  - by rewrite lookup_insert_eq.
Qed.

Lemma fs_mkdir_lookup_ne dir dir' (fs : FS) :
  dir ≠ dir' → fs_mkdir dir fs !! dir' = fs !! dir'.
Proof.
  intros Hne. unfold fs_mkdir. destruct (fs !! dir); [done|].
  by rewrite lookup_insert_ne.
Qed.

(* Creating a directory adds no file and changes none. *)
Lemma fs_mkdir_readFile dir (fs : FS) d file :
  fs_readFile (fs_mkdir dir fs) d file = fs_readFile fs d file.
Proof.
  unfold fs_readFile. destruct (decide (dir = d)) as [->|Hne].
  - rewrite fs_mkdir_lookup. by destruct (fs !! d).
  - by rewrite fs_mkdir_lookup_ne.
Qed.

Lemma fs_mkdir_files dir (fs : FS) d :
  default [] (fs_mkdir dir fs !! d) = default [] (fs !! d).
Proof.
  destruct (decide (dir = d)) as [->|Hne].
  - by rewrite fs_mkdir_lookup.
  - by rewrite fs_mkdir_lookup_ne.
Qed.

Lemma fs_writeFile_Some (fs : FS) dir file content l :
  fs !! dir = Some l → flat_name file = true →
  fs_writeFile fs dir file content
  = Some (<[dir := assoc_set file content l]> fs).
Proof. intros Hl Hflat. unfold fs_writeFile. by rewrite Hflat, Hl. Qed.

Lemma fs_readFile_write_eq (fs fs' : FS) dir file content :
  fs_writeFile fs dir file content = Some fs' →
  fs_readFile fs' dir file = Some content.
Proof.
  unfold fs_writeFile, fs_readFile.
  destruct (flat_name file); [|done].
  destruct (fs !! dir) as [l|]; [|done].
  intros [= <-]. rewrite lookup_insert_eq. simpl. apply assoc_get_set_eq.
Qed.

Lemma fs_readFile_write_ne (fs fs' : FS) dir file content d f :
  fs_writeFile fs dir file content = Some fs' →
  (d, f) ≠ (dir, file) →
  fs_readFile fs' d f = fs_readFile fs d f.
Proof.
  unfold fs_writeFile, fs_readFile.
  destruct (flat_name file); [|done].
  destruct (fs !! dir) as [l|] eqn:El; [|done].
  intros [= <-] Hne. destruct (decide (dir = d)) as [->|Hd].
  - rewrite lookup_insert_eq, El. simpl. apply assoc_get_set_ne. congruence.
  - by rewrite lookup_insert_ne.
Qed.

(** ** The reference JSON codec

    [JSON.parse] inverts [JSON.stringify] on every JSON document. *)

Module JSONFacts.

(* A JSON document: no undefined inside, object keys distinct. *)
Fixpoint is_json (v : value) : bool :=
  match v with
  | VUndefined => false
  | VNull | VBool _ | VNum _ | VStr _ => true
  | VArr items => forallb is_json items
  | VObj fields =>
      forallb (fun kv => is_json kv.2) fields
      && bool_decide (NoDup fields.*1)
  end.

(* the fuel that parsing the text of a value takes *)
Fixpoint parse_fuel (v : value) : nat :=
  match v with
  | VArr items =>
      S ((fix go (l : list value) : nat :=
            match l with
            | [] => O
            | x :: l' => S (Nat.max (parse_fuel x) (go l'))
            end) items)
  | VObj fields =>
      S ((fix go (l : list (string * value)) : nat :=
            match l with
            | [] => O
            | kv :: l' => S (Nat.max (parse_fuel kv.2) (go l'))
            end) fields)
  | _ => 1%nat
  end.

Definition all_ws (s : string) : Prop := JSON.skip_ws s = "".

(* the text after a number does not go on with a digit *)
Definition ends_number (rest : string) : Prop :=
  match rest with
  | String c _ => JSON.digit c = None
  | EmptyString => True
  end.

Lemma value_ind' (P : value → Prop) :
  P VUndefined → P VNull → (∀ b, P (VBool b)) → (∀ n, P (VNum n)) →
  (∀ s, P (VStr s)) →
  (∀ items, Forall P items → P (VArr items)) →
  (∀ fields, Forall (fun kv => P kv.2) fields → P (VObj fields)) →
  ∀ v, P v.
Proof.
  intros HU HN HB HZ HS HA HO. fix IH 1. intros [| |b|n|s|items|fields].
  - exact HU.
  - exact HN.
  - apply HB.
  - apply HZ.
  - apply HS.
  - apply HA. induction items as [|x items IHl]; constructor; [apply IH|exact IHl].
  - apply HO. induction fields as [|[k x] fields IHl]; constructor;
      [apply IH|exact IHl].
Qed.

Lemma string_app_assoc a b c : (a +:+ b) +:+ c = a +:+ b +:+ c.
Proof.
  induction a as [|x a IH]; [done|]. by rewrite !string_app_cons, IH.
Qed.

Lemma skip_ws_app w s : all_ws w → JSON.skip_ws (w +:+ s) = JSON.skip_ws s.
Proof.
  unfold all_ws. induction w as [|c w IH]; [done|].
  rewrite string_app_cons. simpl. destruct (JSON.is_ws c); [exact IH|done].
Qed.

Lemma all_ws_app a b : all_ws a → all_ws b → all_ws (a +:+ b).
Proof. intros Ha Hb. unfold all_ws. by rewrite skip_ws_app. Qed.

Lemma strip_prefix_app word s : JSON.strip_prefix word (word +:+ s) = Some s.
Proof.
  induction word as [|c word IH]; [by destruct s|].
  rewrite string_app_cons. simpl. by rewrite Ascii.eqb_refl.
Qed.

Lemma parse_chars_escape s rest :
  JSON.parse_chars (JSON.escape s +:+ String dquote rest) = Some (s, rest).
Proof.
  induction s as [|c s IH]; cbn [JSON.escape].
  - change ("" +:+ String dquote rest) with (String dquote rest).
    cbn [JSON.parse_chars]. by rewrite Ascii.eqb_refl.
  - destruct (Ascii.eqb c dquote) eqn:E1; cbn [orb].
    + rewrite !string_app_cons. cbn [JSON.parse_chars].
      apply Ascii.eqb_eq in E1. subst c.
      change (Ascii.eqb "\" dquote) with false. rewrite Ascii.eqb_refl.
      cbn [orb]. by rewrite IH.
    + destruct (Ascii.eqb c "\") eqn:E2.
      * rewrite !string_app_cons. cbn [JSON.parse_chars].
        apply Ascii.eqb_eq in E2. subst c.
        rewrite Ascii.eqb_refl. change (Ascii.eqb "\" dquote) with false.
        cbn [orb]. by rewrite IH.
      * rewrite !string_app_cons. cbn [JSON.parse_chars].
        rewrite E1, E2. by rewrite IH.
Qed.

(** Numbers *)

Lemma digit_pretty_N_char (m : N) :
  (m < 10)%N → JSON.digit (pretty_N_char m) = Some (Z.of_N m).
Proof.
  intros H.
  assert (m = 0 ∨ m = 1 ∨ m = 2 ∨ m = 3 ∨ m = 4 ∨ m = 5 ∨ m = 6 ∨ m = 7
          ∨ m = 8 ∨ m = 9)%N as Hm by lia.
  repeat (destruct Hm as [->|Hm]; [reflexivity|]). by subst.
Qed.

Lemma pretty_N_go_app x s r : pretty_N_go x s +:+ r = pretty_N_go x (s +:+ r).
Proof.
  revert s. induction (N.lt_wf_0 x) as [x _ IH]; intros s.
  assert (x = 0 ∨ 0 < x)%N as [->|?] by lia.
  - by rewrite !pretty_N_go_0.
  - rewrite (pretty_N_go_step x s), (pretty_N_go_step x (s +:+ r)) by done.
    rewrite IH by by apply N.div_lt. by rewrite string_app_cons.
Qed.

Lemma parse_digits_pretty_N_go x s :
  ∃ k : Z, 0 ≤ k ∧ ∀ acc,
    JSON.parse_digits acc (pretty_N_go x s)
    = JSON.parse_digits (acc * 10 ^ k + Z.of_N x) s.
Proof.
  revert s. induction (N.lt_wf_0 x) as [x _ IH]; intros s.
  assert (x = 0 ∨ 0 < x)%N as [->|?] by lia.
  - exists 0. split; [done|]. intros acc. rewrite pretty_N_go_0. f_equal. lia.
  - rewrite pretty_N_go_step by done.
    destruct (IH (x `div` 10)%N ltac:(by apply N.div_lt)
                (String (pretty_N_char (x `mod` 10)) s)) as (k & Hk & Hacc).
    exists (k + 1). split; [lia|]. intros acc. rewrite Hacc.
    cbn [JSON.parse_digits].
    rewrite digit_pretty_N_char by (apply N.mod_lt; lia).
    f_equal. rewrite Z.pow_add_r by lia.
    pose proof (N.div_mod x 10 ltac:(lia)) as Hdm.
    apply (f_equal Z.of_N) in Hdm. rewrite N2Z.inj_add, N2Z.inj_mul in Hdm.
    lia.
Qed.

Lemma pretty_N_go_first x s :
  (0 < x)%N →
  ∃ c tl, pretty_N_go x s = String c tl ∧ is_some (JSON.digit c) = true.
Proof.
  revert s. induction (N.lt_wf_0 x) as [x _ IH]; intros s Hx.
  rewrite pretty_N_go_step by done.
  destruct (N.eq_0_gt_0_cases (x `div` 10)) as [->|Hd].
  - rewrite pretty_N_go_0. eexists _, _. split; [done|].
    rewrite digit_pretty_N_char by (apply N.mod_lt; lia). done.
  - apply IH; [by apply N.div_lt|done].
Qed.

Lemma parse_digits_end acc rest :
  ends_number rest → JSON.parse_digits acc rest = (acc, rest).
Proof. destruct rest as [|c rest]; simpl; [done|]. by intros ->. Qed.

(* the first character of a number is no other token *)
Lemma number_start c :
  is_some (JSON.digit c) = true ∨ c = "-"%char →
  JSON.is_ws c = false
  ∧ Ascii.eqb c "n" = false ∧ Ascii.eqb c "t" = false
  ∧ Ascii.eqb c "f" = false ∧ Ascii.eqb c dquote = false
  ∧ Ascii.eqb c "[" = false ∧ Ascii.eqb c "{" = false.
Proof.
  destruct c as [[] [] [] [] [] [] [] []]; vm_compute;
    intros [H|H]; try discriminate; repeat split; reflexivity.
Qed.

Lemma parse_number_pretty (n : Z) rest :
  ends_number rest →
  ∃ c tl, pretty n +:+ rest = String c tl
          ∧ (is_some (JSON.digit c) = true ∨ c = "-"%char)
          ∧ JSON.parse_number (String c tl) = Some (VNum n, rest).
Proof.
  intros Hrest. destruct n as [|p|p]; unfold pretty, pretty_Z.
  - exists "0"%char, rest. split; [done|]. split; [by left|].
    unfold JSON.parse_number.
    change (Ascii.eqb "0" "-") with false.
    change (is_some (JSON.digit "0")) with true. cbv iota.
    change (JSON.parse_digits 0 (String "0" rest))
      with (JSON.parse_digits 0 rest).
    by rewrite parse_digits_end.
  - unfold pretty, pretty_positive, pretty, pretty_N.
    case_decide; [done|]. rewrite pretty_N_go_app.
    change ("" +:+ rest) with rest.
    destruct (pretty_N_go_first (N.pos p) rest) as (c & tl & Hc & Hd); [lia|].
    exists c, tl. split; [done|]. split; [by left|].
    unfold JSON.parse_number.
    destruct (number_start c (or_introl Hd)) as (_ & _).
    assert (Ascii.eqb c "-" = false) as ->.
    { destruct (Ascii.eqb c "-") eqn:E; [|done].
      apply Ascii.eqb_eq in E. by subst. }
    rewrite Hd, <- Hc.
    destruct (parse_digits_pretty_N_go (N.pos p) rest) as (k & Hk & ->).
    rewrite parse_digits_end by done. simpl. done.
  - unfold pretty, pretty_positive, pretty, pretty_N.
    case_decide; [done|]. rewrite string_app_assoc, pretty_N_go_app.
    change ("" +:+ rest) with rest.
    destruct (pretty_N_go_first (N.pos p) rest) as (c & tl & Hc & Hd); [lia|].
    exists "-"%char, (pretty_N_go (N.pos p) rest). split; [done|].
    split; [by right|]. unfold JSON.parse_number.
    change (Ascii.eqb "-" "-") with true. cbv iota. rewrite Hc, Hd, <- Hc.
    destruct (parse_digits_pretty_N_go (N.pos p) rest) as (k & Hk & ->).
    rewrite parse_digits_end by done. simpl. done.
Qed.

(** Structure *)

Definition item (inner : string) (x : value) : string :=
  inner +:+ JSON.stringify_at inner x.

Definition member (inner : string) (kv : string * value) : string :=
  inner +:+ JSON.quote kv.1 +:+ ": " +:+ JSON.stringify_at inner kv.2.

Definition sep : string := "," +:+ JSON.nl.

Definition items_fuel (l : list value) : nat :=
  (fix go (l : list value) : nat :=
     match l with
     | [] => O
     | x :: l' => S (Nat.max (parse_fuel x) (go l'))
     end) l.

Definition fields_fuel (l : list (string * value)) : nat :=
  (fix go (l : list (string * value)) : nat :=
     match l with
     | [] => O
     | kv :: l' => S (Nat.max (parse_fuel kv.2) (go l'))
     end) l.

Lemma stringify_arr indent x l :
  JSON.stringify_at indent (VArr (x :: l))
  = "[" +:+ JSON.nl +:+ join sep (map (item (indent +:+ "  ")) (x :: l))
    +:+ JSON.nl +:+ indent +:+ "]".
Proof. reflexivity. Qed.

Lemma stringify_obj indent kv l :
  forallb (fun kv => is_json kv.2) (kv :: l) = true →
  JSON.stringify_at indent (VObj (kv :: l))
  = "{" +:+ JSON.nl +:+ join sep (map (member (indent +:+ "  ")) (kv :: l))
    +:+ JSON.nl +:+ indent +:+ "}".
Proof.
  destruct kv as [k x]. cbn [forallb]. intros [Hx Hl]%andb_prop.
  cbn [JSON.stringify_at].
  set (members := fix members (l : list (string * value)) : list string := _).
  assert (Hm : ∀ fs, forallb (fun kv => is_json kv.2) fs = true →
                 members fs = map (member (indent +:+ "  ")) fs).
  { induction fs as [|[k' x'] fs IH]; [done|]. cbn [forallb].
    intros [Hx' Hfs]%andb_prop. cbn [members map].
    rewrite IH by done. by destruct x'. }
  rewrite Hm by done. by destruct x.
Qed.

Lemma is_ws_not_digit c : JSON.is_ws c = true → JSON.digit c = None.
Proof. destruct c as [[] [] [] [] [] [] [] []]; vm_compute; congruence. Qed.

Lemma ends_number_ws w c rest :
  all_ws w → JSON.digit c = None → ends_number (w +:+ String c rest).
Proof.
  destruct w as [|x w]; [done|]. intros H _. unfold all_ws in H.
  rewrite string_app_cons. simpl in *.
  destruct (JSON.is_ws x) eqn:E; [by apply is_ws_not_digit|done].
Qed.

Lemma next_is_ws c w rest :
  all_ws w → JSON.is_ws c = false →
  JSON.next_is c (w +:+ String c rest) = Some rest.
Proof.
  intros Hw Hc. unfold JSON.next_is. rewrite skip_ws_app by done.
  cbn [JSON.skip_ws]. rewrite Hc. by rewrite Ascii.eqb_refl.
Qed.

Lemma next_is_here c rest :
  JSON.is_ws c = false → JSON.next_is c (String c rest) = Some rest.
Proof. intros H. by apply (next_is_ws c ""). Qed.

Lemma next_is_other c c' w rest :
  all_ws w → JSON.is_ws c' = false → c' ≠ c →
  JSON.next_is c (w +:+ String c' rest) = None.
Proof.
  intros Hw Hc Hne. unfold JSON.next_is. rewrite skip_ws_app by done.
  cbn [JSON.skip_ws]. rewrite Hc.
  destruct (Ascii.eqb c' c) eqn:E; [|done]. by apply Ascii.eqb_eq in E.
Qed.

(* The text of a JSON value starts with a character that is not white
   space and not a closing bracket. *)
Definition value_start (c : ascii) : Prop :=
  JSON.is_ws c = false ∧ c ≠ "]"%char.

Lemma stringify_start indent v rest :
  is_json v = true →
  ∃ c tl, JSON.stringify_at indent v +:+ rest = String c tl ∧ value_start c.
Proof.
  intros Hj. destruct v as [| |[]|n|s|[|x l]|[|kv l]]; try done;
    try (eexists _, _; split; [reflexivity|]; by split).
  - destruct (parse_number_pretty n "" I) as (c & tl & Hc & Hd & _).
    rewrite string_app_nil_r in Hc. cbn [JSON.stringify_at]. rewrite Hc.
    rewrite string_app_cons. eexists _, _. split; [done|].
    destruct (number_start c Hd) as (Hws & _). split; [done|].
    intros ->. by destruct Hd.
  - cbn [is_json] in Hj. apply andb_prop in Hj as [Hj _].
    rewrite stringify_obj by done. eexists _, _. split; [reflexivity|].
    by split.
Qed.

(** The parser on the text of a value *)

Definition parses (v : value) : Prop :=
  is_json v = true →
  ∀ indent w rest fuel,
    all_ws indent → all_ws w → ends_number rest →
    (parse_fuel v ≤ fuel)%nat →
    JSON.parse_value fuel (w +:+ JSON.stringify_at indent v +:+ rest)
    = Some (v, rest).

Lemma parse_value_S fuel w c tl :
  all_ws w → JSON.is_ws c = false →
  JSON.parse_value (S fuel) (w +:+ String c tl)
  = JSON.dispatch (JSON.parse_items fuel) (JSON.parse_members fuel) c tl.
Proof.
  intros Hw Hc. cbn [JSON.parse_value]. rewrite skip_ws_app by done.
  cbn [JSON.skip_ws]. by rewrite Hc.
Qed.

Lemma all_ws_nl : all_ws JSON.nl.
Proof. reflexivity. Qed.

Lemma all_ws_inner indent : all_ws indent → all_ws (indent +:+ "  ").
Proof. intros H. by apply all_ws_app. Qed.

Lemma parse_items_ok inner l :
  all_ws inner → l ≠ [] → Forall parses l → forallb is_json l = true →
  ∀ w ws2 rest fuel,
    all_ws w → all_ws ws2 → (items_fuel l ≤ fuel)%nat →
    JSON.parse_items fuel
      (w +:+ join sep (map (item inner) l) +:+ ws2 +:+ String "]" rest)
    = Some (l, rest).
Proof.
  intros Hinner Hne Hall Hjson. induction Hall as [|x l Hx Hall IH]; [done|].
  cbn [forallb] in Hjson. apply andb_prop in Hjson as [Hjx Hjl].
  intros w ws2 rest [|fuel] Hw Hws2 Hfuel; cbn [items_fuel] in Hfuel; [lia|].
  cbn [JSON.parse_items]. destruct l as [|y l].
  - cbn [map join]. unfold item. rewrite string_app_assoc.
    rewrite <- (string_app_assoc w inner).
    rewrite (Hx Hjx inner (w +:+ inner)); [|done|by apply all_ws_app
      |by apply ends_number_ws|lia].
    cbn [mbind option_bind].
    rewrite next_is_other; [|done|done|done].
    rewrite next_is_ws by done. done.
  - cbn [map]. change (join sep (?a :: ?b :: ?c))
      with (a +:+ sep +:+ join sep (b :: c)).
    unfold item at 1. rewrite !string_app_assoc.
    rewrite <- (string_app_assoc w inner).
    unfold sep at 1. rewrite !string_app_cons.
    change ("" +:+ ?s) with s.
    rewrite (Hx Hjx inner (w +:+ inner)); [|done|by apply all_ws_app|done|lia].
    cbn [mbind option_bind].
    rewrite next_is_here by done.
    change (item inner y :: map (item inner) l)
      with (map (item inner) (y :: l)).
    rewrite (IH ltac:(done) Hjl JSON.nl ws2 rest fuel); [done|done|done|].
    change (items_fuel (y :: l) ≤ fuel)%nat.
    change (S (Nat.max (parse_fuel x) (items_fuel (y :: l))) ≤ S fuel)%nat
      in Hfuel.
    lia.
Qed.

Lemma quote_app k s :
  JSON.quote k +:+ s = String dquote (JSON.escape k +:+ String dquote s).
Proof.
  unfold JSON.quote. rewrite string_app_cons, string_app_assoc.
  by rewrite string_app_cons.
Qed.

Lemma parse_member_head inner w k s :
  all_ws inner → all_ws w →
  (s' ← JSON.next_is dquote (w +:+ inner +:+ JSON.quote k +:+ ": " +:+ s);
   '(k', rest) ← JSON.parse_chars s';
   rest' ← JSON.next_is ":" rest; Some (k', rest'))
  = Some (k, " " +:+ s).
Proof.
  intros Hinner Hw. rewrite quote_app, <- (string_app_assoc w inner).
  rewrite next_is_ws; [|by apply all_ws_app|done].
  cbn [mbind option_bind]. rewrite parse_chars_escape.
  cbn [mbind option_bind]. rewrite !string_app_cons.
  by rewrite next_is_here.
Qed.

Lemma parse_members_ok inner l :
  all_ws inner → l ≠ [] → Forall (fun kv => parses kv.2) l →
  forallb (fun kv => is_json kv.2) l = true →
  ∀ w ws2 rest fuel,
    all_ws w → all_ws ws2 → (fields_fuel l ≤ fuel)%nat →
    JSON.parse_members fuel
      (w +:+ join sep (map (member inner) l) +:+ ws2 +:+ String "}" rest)
    = Some (l, rest).
Proof.
  intros Hinner Hne Hall Hjson. induction Hall as [|[k x] l Hx Hall IH]; [done|].
  cbn [forallb] in Hjson. apply andb_prop in Hjson as [Hjx Hjl].
  intros w ws2 rest [|fuel] Hw Hws2 Hfuel.
  { change (S (Nat.max (parse_fuel x) (fields_fuel l)) ≤ 0)%nat in Hfuel. lia. }
  change (S (Nat.max (parse_fuel x) (fields_fuel l)) ≤ S fuel)%nat in Hfuel.
  cbn [JSON.parse_members]. simpl in Hx, Hjx. destruct l as [|y l].
  - cbn [map join]. unfold member. cbn [fst snd].
    rewrite !string_app_assoc.
    pose proof (parse_member_head inner w k
      (JSON.stringify_at inner x +:+ ws2 +:+ String "}" rest) Hinner Hw) as Hh.
    destruct (JSON.next_is dquote _) as [s1|]; [|done].
    cbn [mbind option_bind] in Hh |- *.
    destruct (JSON.parse_chars s1) as [[k' r1]|]; [|done].
    cbn [mbind option_bind] in Hh |- *.
    destruct (JSON.next_is ":" r1) as [r2|]; [|done].
    cbn [mbind option_bind] in Hh |- *. injection Hh as -> ->.
    rewrite (Hx Hjx inner " "); [|done|done|by apply ends_number_ws|lia].
    cbn [mbind option_bind].
    rewrite next_is_other; [|done|done|done].
    rewrite next_is_ws by done. done.
  - cbn [map]. change (join sep (?a :: ?b :: ?c))
      with (a +:+ sep +:+ join sep (b :: c)).
    unfold member at 1. cbn [fst snd]. rewrite !string_app_assoc.
    unfold sep at 1. rewrite !string_app_cons. change ("" +:+ ?s) with s.
    pose proof (parse_member_head inner w k
      (JSON.stringify_at inner x +:+
       String "," (String newline (join sep (member inner y :: map (member inner) l)
                    +:+ ws2 +:+ String "}" rest))) Hinner Hw) as Hh.
    destruct (JSON.next_is dquote _) as [s1|]; [|done].
    cbn [mbind option_bind] in Hh |- *.
    destruct (JSON.parse_chars s1) as [[k' r1]|]; [|done].
    cbn [mbind option_bind] in Hh |- *.
    destruct (JSON.next_is ":" r1) as [r2|]; [|done].
    cbn [mbind option_bind] in Hh |- *. injection Hh as -> ->.
    rewrite (Hx Hjx inner " "); [|done|done|done|lia].
    cbn [mbind option_bind].
    rewrite next_is_here by done.
    change (JSON.parse_members fuel _)
      with (JSON.parse_members fuel
              (JSON.nl +:+ join sep (map (member inner) (y :: l))
               +:+ ws2 +:+ String "}" rest)).
    rewrite (IH ltac:(done) Hjl JSON.nl ws2 rest fuel); [done|done|done|].
    lia.
Qed.

Lemma foldl_assoc_set_nodup (acc fields : list (string * value)) :
  NoDup (acc ++ fields)%list.*1 →
  foldl (fun acc kv => assoc_set kv.1 kv.2 acc) acc fields
  = (acc ++ fields)%list.
Proof.
  revert acc. induction fields as [|[k x] fields IH]; intros acc Hnd; simpl.
  - by rewrite app_nil_r.
  - assert (Hset : assoc_set k x acc = (acc ++ [(k, x)])%list).
    { assert (Hk : k ∉ acc.*1).
      { rewrite fmap_app in Hnd. apply NoDup_app in Hnd as (_ & Hd & _).
        intros Hin. apply (Hd k Hin). simpl. apply list_elem_of_here. }
      clear -Hk. induction acc as [|[k' x'] acc IH]; simpl; [done|].
      apply not_elem_of_cons in Hk as [Hne Hk].
      destruct (String.eqb k k') eqn:E.
      - by apply String.eqb_eq in E.
      - by rewrite IH. }
    rewrite Hset, IH; rewrite <- app_assoc; done.
Qed.

Lemma dispatch_arr items members s :
  JSON.dispatch items members "[" s
  = match JSON.next_is "]" s with
    | Some rest => Some (VArr [], rest)
    | None => '(l, rest) ← items s; Some (VArr l, rest)
    end.
Proof. reflexivity. Qed.

Lemma dispatch_obj items members s :
  JSON.dispatch items members "{" s
  = match JSON.next_is "}" s with
    | Some rest => Some (VObj [], rest)
    | None =>
        '(fields, rest) ← members s;
        Some (VObj (foldl (fun acc kv => assoc_set kv.1 kv.2 acc) [] fields),
              rest)
    end.
Proof. reflexivity. Qed.

Lemma dispatch_str items members s :
  JSON.dispatch items members dquote s
  = '(str, rest) ← JSON.parse_chars s; Some (VStr str, rest).
Proof. reflexivity. Qed.

Lemma parse_value_stringify v : parses v.
Proof.
  induction v as [| |b|n|s|items IH|fields IH] using value_ind';
    intros Hj indent w rest fuel Hi Hw Hrest Hfuel; try done;
    (destruct fuel as [|fuel]; [simpl in Hfuel; lia|]).
  - cbn [JSON.stringify_at]. rewrite !string_app_cons.
    by rewrite (parse_value_S fuel w "n").
  - destruct b; cbn [JSON.stringify_at]; rewrite !string_app_cons.
    + by rewrite (parse_value_S fuel w "t").
    + by rewrite (parse_value_S fuel w "f").
  - cbn [JSON.stringify_at].
    destruct (parse_number_pretty n rest Hrest) as (c & tl & -> & Hc & Hp).
    destruct (number_start c Hc) as (Hws & Hn & Ht & Hf & Hq & Ha & Ho).
    rewrite parse_value_S by done. unfold JSON.dispatch.
    by rewrite Hn, Ht, Hf, Hq, Ha, Ho.
  - cbn [JSON.stringify_at]. rewrite quote_app.
    rewrite (parse_value_S fuel w dquote) by done.
    by rewrite dispatch_str, parse_chars_escape.
  - destruct items as [|x items].
    + cbn [JSON.stringify_at]. rewrite !string_app_cons.
      rewrite (parse_value_S fuel w "[") by done. rewrite dispatch_arr.
      change ("" +:+ rest) with rest. by rewrite next_is_here.
    + rewrite stringify_arr, !string_app_assoc, !string_app_cons.
      change ("" +:+ ?t) with t.
      rewrite (parse_value_S fuel w "[") by done. rewrite dispatch_arr.
      cbn [is_json] in Hj. change ("" +:+ rest) with rest.
      assert (Hno : JSON.next_is "]"
                (JSON.nl +:+
                 join sep (map (item (indent +:+ "  ")) (x :: items)) +:+
                 JSON.nl +:+ indent +:+ String "]" rest) = None).
      { pose proof Hj as Hj'. cbn [forallb] in Hj'.
        apply andb_prop in Hj' as [Hjx _].
        assert (∃ c tl, join sep (map (item (indent +:+ "  ")) (x :: items))
                        +:+ JSON.nl +:+ indent +:+ String "]" rest
                        = (indent +:+ "  ") +:+ String c tl ∧ value_start c)
          as (c & tl & Heq & Hws & Hne).
        { destruct items as [|y items].
          - cbn [map join]. unfold item. rewrite string_app_assoc.
            match goal with
            | |- context [JSON.stringify_at ?i x +:+ ?r] =>
                destruct (stringify_start i x r Hjx) as (c & tl & -> & Hc)
            end.
            exists c, tl. split; [by rewrite ?string_app_assoc|done].
          - cbn [map]. change (join sep (?a :: ?b :: ?c))
              with (a +:+ sep +:+ join sep (b :: c)).
            unfold item at 1. rewrite !string_app_assoc.
            match goal with
            | |- context [JSON.stringify_at ?i x +:+ ?r] =>
                destruct (stringify_start i x r Hjx) as (c & tl & -> & Hc)
            end.
            exists c, tl. split; [by rewrite ?string_app_assoc|done]. }
        rewrite Heq, <- string_app_assoc.
        apply next_is_other; [|done|done].
        apply all_ws_app; [done|by apply all_ws_inner]. }
      rewrite Hno, <- (string_app_assoc JSON.nl indent).
      change (S (items_fuel (x :: items)) ≤ S fuel)%nat in Hfuel.
      rewrite (parse_items_ok (indent +:+ "  ") (x :: items)
                 (all_ws_inner _ Hi) ltac:(done) IH Hj JSON.nl
                 (JSON.nl +:+ indent) rest fuel all_ws_nl
                 (all_ws_app _ _ all_ws_nl Hi) ltac:(lia)).
      done.
  - cbn [is_json] in Hj. apply andb_prop in Hj as [Hj Hnd].
    apply bool_decide_eq_true in Hnd.
    destruct fields as [|kv fields].
    + cbn [JSON.stringify_at]. rewrite !string_app_cons.
      rewrite (parse_value_S fuel w "{") by done. rewrite dispatch_obj.
      change ("" +:+ rest) with rest. by rewrite next_is_here.
    + rewrite stringify_obj by done.
      rewrite !string_app_assoc, !string_app_cons.
      change ("" +:+ ?t) with t.
      rewrite (parse_value_S fuel w "{") by done. rewrite dispatch_obj.
      change ("" +:+ rest) with rest.
      assert (Hno : JSON.next_is "}"
                (JSON.nl +:+
                 join sep (map (member (indent +:+ "  ")) (kv :: fields)) +:+
                 JSON.nl +:+ indent +:+ String "}" rest) = None).
      { assert (∃ tl, join sep (map (member (indent +:+ "  ")) (kv :: fields))
                        +:+ JSON.nl +:+ indent +:+ String "}" rest
                      = (indent +:+ "  ") +:+ String dquote tl) as (tl & ->).
        { destruct fields as [|y fields].
          - cbn [map join]. unfold member.
            rewrite !string_app_assoc, quote_app. eexists.
            by rewrite ?string_app_assoc.
          - cbn [map]. change (join sep (?a :: ?b :: ?c))
              with (a +:+ sep +:+ join sep (b :: c)).
            unfold member at 1. rewrite !string_app_assoc, quote_app.
            eexists. by rewrite ?string_app_assoc. }
        rewrite <- string_app_assoc.
        apply next_is_other; [|done|done].
        apply all_ws_app; [done|by apply all_ws_inner]. }
      rewrite Hno, <- (string_app_assoc JSON.nl indent).
      change (S (fields_fuel (kv :: fields)) ≤ S fuel)%nat in Hfuel.
      rewrite (parse_members_ok (indent +:+ "  ") (kv :: fields)
                 (all_ws_inner _ Hi) ltac:(done) IH Hj JSON.nl
                 (JSON.nl +:+ indent) rest fuel all_ws_nl
                 (all_ws_app _ _ all_ws_nl Hi) ltac:(lia)).
      cbn [mbind option_bind].
      by rewrite (foldl_assoc_set_nodup [] (kv :: fields)).
Qed.

(** The fuel of [JSON.parse] is enough *)

Lemma join_length_items inner l :
  l ≠ [] →
  Forall (fun x => ∀ indent,
            (parse_fuel x ≤ String.length (JSON.stringify_at indent x))%nat) l →
  (items_fuel l
   ≤ String.length (join sep (map (item (inner +:+ "  ")) l)))%nat.
Proof.
  intros Hne Hall. induction Hall as [|x l Hx Hall IH]; [done|].
  assert (Hitem : (S (parse_fuel x)
                   ≤ String.length (item (inner +:+ "  ") x))%nat).
  { unfold item. rewrite !string_length_app. simpl.
    specialize (Hx (inner +:+ "  ")). lia. }
  destruct l as [|y l].
  - cbn [map join]. change (items_fuel [x]) with (S (Nat.max (parse_fuel x) 0)).
    lia.
  - cbn [map]. change (join sep (?a :: ?b :: ?c))
      with (a +:+ sep +:+ join sep (b :: c)).
    rewrite !string_length_app.
    change (items_fuel (x :: y :: l))
      with (S (Nat.max (parse_fuel x) (items_fuel (y :: l)))).
    specialize (IH ltac:(done)). cbn [map] in IH. lia.
Qed.

Lemma join_length_members inner l :
  l ≠ [] →
  Forall (fun kv : string * value => ∀ indent,
            (parse_fuel kv.2
             ≤ String.length (JSON.stringify_at indent kv.2))%nat) l →
  (fields_fuel l
   ≤ String.length (join sep (map (member (inner +:+ "  ")) l)))%nat.
Proof.
  intros Hne Hall. induction Hall as [|[k x] l Hx Hall IH]; [done|].
  assert (Hitem : (S (parse_fuel x)
                   ≤ String.length (member (inner +:+ "  ") (k, x)))%nat).
  { unfold member. rewrite !string_length_app. simpl.
    specialize (Hx (inner +:+ "  ")). simpl in Hx. lia. }
  destruct l as [|y l].
  - cbn [map join].
    change (fields_fuel [(k, x)]) with (S (Nat.max (parse_fuel x) 0)). lia.
  - cbn [map]. change (join sep (?a :: ?b :: ?c))
      with (a +:+ sep +:+ join sep (b :: c)).
    rewrite !string_length_app.
    change (fields_fuel ((k, x) :: y :: l))
      with (S (Nat.max (parse_fuel x) (fields_fuel (y :: l)))).
    specialize (IH ltac:(done)). cbn [map] in IH. lia.
Qed.

Lemma parse_fuel_length v :
  is_json v = true →
  ∀ indent, (parse_fuel v ≤ String.length (JSON.stringify_at indent v))%nat.
Proof.
  induction v as [| |b|n|s|items IH|fields IH] using value_ind';
    intros Hj indent; try done.
  - simpl. lia.
  - destruct b; simpl; lia.
  - destruct (parse_number_pretty n "" I) as (c & tl & Hc & _).
    rewrite string_app_nil_r in Hc. cbn [JSON.stringify_at]. rewrite Hc.
    simpl. lia.
  - simpl. lia.
  - destruct items as [|x items]; [simpl; lia|].
    rewrite stringify_arr, !string_length_app.
    change (parse_fuel (VArr (x :: items))) with (S (items_fuel (x :: items))).
    cbn [is_json] in Hj.
    assert (Hall : Forall (fun x => ∀ indent,
              (parse_fuel x ≤ String.length (JSON.stringify_at indent x))%nat)
              (x :: items)).
    { apply Forall_forall. intros y Hy.
      rewrite Forall_forall in IH. apply IH; [done|].
      rewrite forallb_forall in Hj. apply Hj. by apply list_elem_of_In. }
    pose proof (join_length_items indent (x :: items) ltac:(done) Hall) as HJ.
    set (J := join sep _) in *. simpl String.length. lia.
  - cbn [is_json] in Hj. apply andb_prop in Hj as [Hj _].
    destruct fields as [|kv fields]; [simpl; lia|].
    rewrite stringify_obj by done. rewrite !string_length_app.
    change (parse_fuel (VObj (kv :: fields)))
      with (S (fields_fuel (kv :: fields))).
    assert (Hall : Forall (fun kv : string * value => ∀ indent,
              (parse_fuel kv.2
               ≤ String.length (JSON.stringify_at indent kv.2))%nat)
              (kv :: fields)).
    { apply Forall_forall. intros y Hy.
      rewrite Forall_forall in IH. apply IH; [done|].
      rewrite forallb_forall in Hj. apply (Hj y). by apply list_elem_of_In. }
    pose proof (join_length_members indent (kv :: fields) ltac:(done) Hall)
      as HJ.
    set (J := join sep _) in *. simpl String.length. lia.
Qed.

(* JSON.parse inverts JSON.stringify on JSON documents. *)
Theorem parse_stringify v :
  is_json v = true → JSON.parse (JSON.stringify v) = Some v.
Proof.
  intros Hj. unfold JSON.parse, JSON.stringify.
  pose proof (parse_value_stringify v Hj "" "" ""
                (S (String.length (JSON.stringify_at "" v)))
                eq_refl eq_refl I) as H.
  rewrite string_app_nil_r in H. change ("" +:+ ?s) with s in H.
  rewrite H; [done|]. pose proof (parse_fuel_length v Hj ""). lia.
Qed.
End JSONFacts.

(** ** Entry store and registry *)

Section EntryStoreProperties.
Context {Schema JsonSchema AjvFormats AjvError : Type}.
Variable JSON_stringify : value -> string.
Variable JSON_parse : string -> option value.
Variable convertZodSchema : Schema -> gmap string Schema -> JsonSchema.
Variable ajvFormats : list string -> AjvFormats.
Variable ajv_validate : AjvFormats -> JsonSchema -> value -> bool * list AjvError.
Variable ajv_errorsText : list AjvError -> string.
Variable zod_parse : Schema -> value -> result value.
Variable doesMatchFilter : value -> value -> bool.
Variable Date_getTime : string -> option Z.
Variable localeCompare : string -> string -> Z.

Implicit Types (api : LocalApi Schema) (fs : FS).

Local Abbreviation getEntry := (getEntry JSON_parse).
Local Abbreviation readEntry := (readEntry JSON_parse).
Local Abbreviation resolveInclude := (resolveInclude JSON_parse).
Local Abbreviation validateEntry :=
  (validateEntry convertZodSchema ajvFormats ajv_validate).
Local Abbreviation setEntry :=
  (setEntry JSON_stringify convertZodSchema ajvFormats ajv_validate
     ajv_errorsText).
Local Abbreviation getEntries :=
  (getEntries JSON_parse doesMatchFilter Date_getTime localeCompare).

Definition entry_dir api (col : Collection Schema) : string :=
  path_join (contentDir api) (name col).

Definition entry_file_name (id : value) : string :=
  js_to_string id +:+ ".json".

Definition envelope (entry : value) : value := VObj [("data", entry)].

(* What setEntry does once the collection is resolved. *)
Lemma setEntry_resolved api fs ref col id e :
  getCollectionRef api ref = Ok col →
  setEntry api fs ref id e =
    let fs1 := fs_mkdir (entry_dir api col) fs in
    if (validateEntry api col e).1 then
      match fs_writeFile fs1 (entry_dir api col) (entry_file_name id)
              (JSON_stringify (envelope e)) with
      | Some fs' => (Ok tt, fs')
      | None => (Throw FsError, fs1)
      end
    else (Throw (JsError (ajv_errorsText (validateEntry api col e).2)), fs1).
Proof.
  intros Hcol. unfold setEntry. rewrite Hcol.
  fold (entry_dir api col). fold (entry_file_name id). fold (envelope e).
  destruct (validateEntry api col e) as [valid errors]. simpl.
  by destruct valid.
Qed.

(** C1. An entry that is valid under the schema of a registered
    collection, written by setEntry under a filename-safe id, is
    returned unchanged by getEntry (called without include). The JSON
    text of the envelope is assumed to parse back to the envelope, as
    JSON.parse does for the text JSON.stringify produces. *)
Theorem setEntry_getEntry_roundtrip api fs ref col id e :
  getCollectionRef api ref = Ok col →
  flat_name (js_to_string id) = true →
  (validateEntry api col e).1 = true →
  JSON_parse (JSON_stringify (envelope e)) = Some (envelope e) →
  ∃ fs', setEntry api fs ref id e = (Ok tt, fs')
         ∧ getEntry api fs' ref id None = Ok e.
Proof.
  intros Hcol Hid Hvalid Hjson.
  rewrite (setEntry_resolved _ _ _ _ _ _ Hcol). simpl. rewrite Hvalid.
  assert (Hflat : flat_name (entry_file_name id) = true).
  { unfold entry_file_name. rewrite flat_name_app, Hid. done. }
  erewrite fs_writeFile_Some; [|apply fs_mkdir_lookup|exact Hflat].
  eexists; split; [reflexivity|].
  unfold getEntry. rewrite Hcol. simpl.
  unfold readEntry. simpl.
  fold (entry_dir api col). fold (entry_file_name id).
  unfold fs_readFile. rewrite lookup_insert_eq. simpl.
  rewrite assoc_get_set_eq. simpl. rewrite Hjson. simpl.
  by destruct (truthy e).
Qed.

(** C2. A payload that fails the schema check is rejected with an
    error whose message is the aggregated error text of the validator,
    and no file of the store is written or overwritten: every
    directory holds the same files with the same contents as before
    (the directory of the collection, when it did not exist, exists
    afterwards and is empty). *)
Theorem setEntry_invalid_rejected api fs ref col id e :
  getCollectionRef api ref = Ok col →
  (validateEntry api col e).1 = false →
  ∃ fs', setEntry api fs ref id e
           = (Throw (JsError (ajv_errorsText (validateEntry api col e).2)), fs')
         ∧ (∀ dir, default [] (fs' !! dir) = default [] (fs !! dir))
         ∧ (∀ dir file, fs_readFile fs' dir file = fs_readFile fs dir file).
Proof.
  intros Hcol Hinvalid.
  rewrite (setEntry_resolved _ _ _ _ _ _ Hcol). simpl. rewrite Hinvalid.
  eexists; split; [reflexivity|]. split.
  - intros dir. apply fs_mkdir_files.
  - intros dir file. apply fs_mkdir_readFile.
Qed.

(* The store after a rejected write: only mkdir has run. *)
Lemma setEntry_invalid_store api fs ref col id e :
  getCollectionRef api ref = Ok col →
  (validateEntry api col e).1 = false →
  (setEntry api fs ref id e).2 = fs_mkdir (entry_dir api col) fs.
Proof.
  intros Hcol Hinvalid.
  rewrite (setEntry_resolved _ _ _ _ _ _ Hcol). simpl. by rewrite Hinvalid.
Qed.

(** *** Names that are not in the registry *)

Definition collection_not_found (ref : string) : error :=
  JsError ("Collection " +:+ ref +:+ " not found").

Definition global_not_found (ref : string) : error :=
  JsError ("Global " +:+ ref +:+ " not found").

Lemma getCollectionRef_unregistered api ref :
  collections api !! ref = None →
  getCollectionRef api (RefName ref) = Throw (collection_not_found ref).
Proof. intros H. unfold getCollectionRef. by rewrite H. Qed.

Lemma getGlobalRef_unregistered api ref :
  globals api !! ref = None →
  getGlobalRef api (GlobalName ref) = Throw (global_not_found ref).
Proof. intros H. unfold getGlobalRef. by rewrite H. Qed.

(* Every method that takes a collection or a global by name raises
   the error of the registry, and the writing ones leave the store as
   it is. *)
Lemma methods_unregistered_collection api fs ref id e include options :
  collections api !! ref = None →
  getEntry api fs (RefName ref) id include = Throw (collection_not_found ref)
  ∧ getEntries api fs (RefName ref) options = Throw (collection_not_found ref)
  ∧ setEntry api fs (RefName ref) id e = (Throw (collection_not_found ref), fs)
  ∧ deleteEntry api fs (RefName ref) id = (Throw (collection_not_found ref), fs)
  ∧ getCollection api (RefName ref) = Throw (collection_not_found ref).
Proof.
  intros H. apply getCollectionRef_unregistered in H.
  unfold getEntry, getEntries,
    setEntry, deleteEntry, getCollection.
  rewrite H. done.
Qed.

Lemma methods_unregistered_global api fs ref v :
  globals api !! ref = None →
  getGlobal api (GlobalName ref) = Throw (global_not_found ref)
  ∧ getGlobalValue JSON_parse api fs (GlobalName ref)
    = Throw (global_not_found ref)
  ∧ setGlobalValue JSON_stringify zod_parse api fs (GlobalName ref) v
    = (Throw (global_not_found ref), fs).
Proof.
  intros H. apply getGlobalRef_unregistered in H.
  unfold getGlobal, getGlobalValue, setGlobalValue. rewrite H. done.
Qed.

(* A reference field: an object with a truthy id whose collection is
   the name [target]. *)
Definition refers_to (v : value) (target : string) : Prop :=
  truthy (opt_get v "id") = true ∧ opt_get v "collection" = VStr target
  ∧ target ≠ "".

Lemma resolveInclude_unregistered api fs entry include target :
  is_nullish entry = false →
  refers_to (prop entry include) target →
  collections api !! target = None →
  resolveInclude api fs entry include = Throw (collection_not_found target).
Proof.
  intros Hentry (Hid & Hcol & Hne) Hnone.
  unfold resolveInclude, js_get.
  rewrite Hentry. simpl. rewrite Hid, Hcol. simpl.
  assert (String.eqb target "" = false) as -> by by apply String.eqb_neq.
  simpl.
  assert (prop (prop entry include) "collection" = VStr target) as ->.
  { revert Hcol. unfold opt_get.
    destruct (is_nullish (prop entry include)); [discriminate|done]. }
  unfold getEntry_nested. rewrite getCollectionRef_unregistered; done.
Qed.

(* getEntries lets the error of the nested resolution through. *)
Lemma getEntries_include_unregistered api fs ref col options files
    entry rest include target :
  getCollectionRef api ref = Ok col →
  fs_readdir fs (entry_dir api col) = Some files →
  result_map (readEntryFile JSON_parse fs (entry_dir api col))
    (List.filter (string_endsWith ".json") files) = Ok (entry :: rest) →
  opt_filters options = None → opt_offset options = None →
  opt_limit options = None → opt_sort options = None →
  opt_include options = Some [include] →
  is_nullish entry = false →
  refers_to (prop entry include) target →
  collections api !! target = None →
  getEntries api fs ref options = Throw (collection_not_found target).
Proof.
  intros Hcol Hdir Hread Hf Ho Hl Hs Hi Hentry Href Hnone.
  unfold getEntries. rewrite Hcol. simpl.
  fold (entry_dir api col). rewrite Hdir, Hread. simpl.
  unfold applyFilters, paginate, sortEntries, includeEntries.
  rewrite Hf, Ho, Hl, Hs, Hi. simpl.
  unfold js_slice. simpl.
  destruct (Nat.min 1000 (S (length rest)) - 0)%nat eqn:E; [lia|].
  simpl. rewrite (resolveInclude_unregistered _ _ _ _ target); done.
Qed.

(** C3 (the code departs from the claim). In getEntry the nested
    resolution of a reference field runs inside the try block: when
    the field names a collection that is not in the registry, the
    error is caught and the call returns null in the place of the
    entry. *)
Theorem getEntry_include_swallows_not_found api fs ref col id entry
    include target :
  getCollectionRef api ref = Ok col →
  readEntry api fs (Some (name col)) id = Ok entry →
  refers_to (prop entry include) target →
  collections api !! target = None →
  getEntry api fs ref id (Some [include]) = Ok VNull.
Proof.
  intros Hcol Hread Href Hnone.
  unfold getEntry. rewrite Hcol. simpl.
  rewrite Hread. simpl.
  assert (Hobj : truthy entry = true ∧ is_nullish entry = false).
  { destruct Href as (Hid & _). destruct entry; simpl in *; try done. }
  destruct Hobj as [-> Hnn]. simpl.
  rewrite (resolveInclude_unregistered _ _ _ _ target); done.
Qed.
End EntryStoreProperties.

(** ** Stable sorting with a comparator *)

Section SortTheory.
Context {A : Type}.
Implicit Types (cmp : A → A → Z) (l : list A).

(* The order a comparator induces: [a] may stand before [b]. *)
Definition le_of cmp (a b : A) : Prop := cmp a b ≤ 0.

(* A comparator is consistent on a list when swapping the arguments
   swaps the sign and "not after" is transitive. *)
Definition consistent cmp l : Prop :=
  (∀ x y, x ∈ l → y ∈ l → 0 < cmp x y → cmp y x < 0)
  ∧ (∀ x y z, x ∈ l → y ∈ l → z ∈ l →
       cmp x y ≤ 0 → cmp y z ≤ 0 → cmp x z ≤ 0).

Definition consistentb cmp l : bool :=
  forallb (fun x =>
    forallb (fun y =>
      implb (0 <? cmp x y) (cmp y x <? 0)
      && forallb (fun z =>
           implb ((cmp x y <=? 0) && (cmp y z <=? 0)) (cmp x z <=? 0)) l) l) l.

(* the comparator [c2], ties broken by [c1] *)
Definition lex (c2 c1 : A → A → Z) (a b : A) : Z :=
  if c2 a b =? 0 then c1 a b else c2 a b.

Lemma consistentb_spec cmp l : consistentb cmp l = true → consistent cmp l.
Proof.
  unfold consistentb, consistent. rewrite forallb_forall. intros H. split.
  - intros x y Hx%list_elem_of_In Hy%list_elem_of_In Hlt.
    specialize (H x Hx). rewrite forallb_forall in H. specialize (H y Hy).
    apply andb_prop in H as [H _].
    destruct (0 <? cmp x y) eqn:E; [|lia]. simpl in H. lia.
  - intros x y z Hx%list_elem_of_In Hy%list_elem_of_In Hz%list_elem_of_In Hxy Hyz.
    specialize (H x Hx). rewrite forallb_forall in H. specialize (H y Hy).
    apply andb_prop in H as [_ H]. rewrite forallb_forall in H.
    specialize (H z Hz).
    destruct (cmp x y <=? 0) eqn:E1; [|lia].
    destruct (cmp y z <=? 0) eqn:E2; [|lia].
    simpl in H. lia.
Qed.

Lemma consistent_perm cmp l l' : l ≡ₚ l' → consistent cmp l → consistent cmp l'.
Proof.
  intros Hp [H1 H2]. split.
  - intros x y Hx Hy. rewrite <- Hp in Hx, Hy. by apply H1.
  - intros x y z Hx Hy Hz. rewrite <- Hp in Hx, Hy, Hz. by apply H2.
Qed.

Lemma consistent_incl cmp l l' :
  (∀ a, a ∈ l' → a ∈ l) → consistent cmp l → consistent cmp l'.
Proof.
  intros Hsub [H1 H2]. split.
  - intros a b Ha Hb. apply H1; by apply Hsub.
  - intros a b c Ha Hb Hc. apply H2; by apply Hsub.
Qed.

Lemma insert_perm cmp x l : insert cmp x l ≡ₚ x :: l.
Proof.
  induction l as [|y l IH]; simpl; [done|].
  destruct (0 <? cmp x y); [|done].
  rewrite IH. apply Permutation_swap.
Qed.

Lemma insertion_sort_perm cmp l : insertion_sort cmp l ≡ₚ l.
Proof.
  induction l as [|x l IH]; simpl; [done|].
  by rewrite insert_perm, IH.
Qed.

(* Inserting [x] with the comparator [c2] in a list sorted by
   [lex c2 c1], when [x] may stand before every element for [c1]. *)
Lemma insert_sorted_lex c2 c1 x l :
  consistent c2 (x :: l) →
  Forall (le_of c1 x) l →
  StronglySorted (le_of (lex c2 c1)) l →
  StronglySorted (le_of (lex c2 c1)) (insert c2 x l).
Proof.
  intros Hc Hx Hs. induction Hs as [|y l Hs IH Hy]; simpl.
  - repeat constructor.
  - assert (Ex : x ∈ x :: y :: l) by apply list_elem_of_here.
    assert (Ey : y ∈ x :: y :: l)
      by apply list_elem_of_further, list_elem_of_here.
    apply Forall_cons in Hx as [Hxy Hx].
    destruct (0 <? c2 x y) eqn:E.
    + constructor.
      * apply IH; [|done].
        eapply consistent_incl; [|exact Hc].
        intros a [->|Ha]%elem_of_cons; [done|].
        by do 2 apply list_elem_of_further.
      * rewrite insert_perm. constructor; [|done].
        destruct Hc as [Hanti _].
        assert (c2 y x < 0) by (apply Hanti; [done..|lia]).
        unfold le_of, lex. destruct (c2 y x =? 0) eqn:E'; lia.
    + destruct Hc as [_ Htrans].
      assert (Hle : c2 x y ≤ 0) by lia.
      constructor; [by constructor|].
      constructor.
      * unfold le_of, lex in *. destruct (c2 x y =? 0); lia.
      * rewrite Forall_forall in Hx, Hy |- *. intros z Hz.
        assert (c2 y z ≤ 0).
        { specialize (Hy z Hz). unfold le_of, lex in Hy.
          destruct (c2 y z =? 0) eqn:E'; lia. }
        assert (c2 x z ≤ 0).
        { apply (Htrans x y z); try done.
          by do 2 apply list_elem_of_further. }
        specialize (Hx z Hz). unfold le_of, lex in *.
        destruct (c2 x z =? 0); lia.
Qed.

(* A pass with the comparator [c2] over a list sorted by [c1] leaves
   it sorted by [c2], ties in the order of [c1]. *)
Lemma insertion_sort_lex c2 c1 l :
  consistent c2 l →
  StronglySorted (le_of c1) l →
  StronglySorted (le_of (lex c2 c1)) (insertion_sort c2 l).
Proof.
  intros Hc Hs. induction Hs as [|x l Hs IH Hx]; simpl; [constructor|].
  apply insert_sorted_lex.
  - eapply consistent_perm; [|exact Hc].
    by rewrite insertion_sort_perm.
  - by rewrite insertion_sort_perm.
  - apply IH. eapply consistent_incl; [|exact Hc].
    intros a Ha. by apply list_elem_of_further.
Qed.

Lemma StronglySorted_trivial (R : A → A → Prop) l :
  (∀ a b, R a b) → StronglySorted R l.
Proof.
  intros HR. induction l; constructor; [done|].
  apply Forall_forall. auto.
Qed.

Lemma StronglySorted_ext (R R' : A → A → Prop) l :
  (∀ a b, R a b → R' a b) → StronglySorted R l → StronglySorted R' l.
Proof.
  intros HR Hs. induction Hs; constructor; [done|].
  eapply Forall_impl; eauto.
Qed.

Lemma insertion_sort_sorted cmp l :
  consistent cmp l → StronglySorted (le_of cmp) (insertion_sort cmp l).
Proof.
  intros Hc.
  apply (StronglySorted_ext (le_of (lex cmp (fun _ _ => 0)))).
  - intros a b. unfold le_of, lex. destruct (cmp a b =? 0) eqn:E; lia.
  - apply insertion_sort_lex; [done|].
    apply StronglySorted_trivial. intros a b. unfold le_of. lia.
Qed.
End SortTheory.

(** ** Query engine *)

Definition without_sort (options : EntriesOptions) : EntriesOptions :=
  {| opt_includeCount := opt_includeCount options;
     opt_include := opt_include options;
     opt_limit := opt_limit options;
     opt_offset := opt_offset options;
     opt_filters := opt_filters options;
     opt_sort := None |}.

Lemma filter_defined_id (l : list value) :
  forallb (fun e => negb (is_undefined e)) l = true →
  List.filter (fun e => negb (is_undefined e)) l = l
  ∧ List.filter is_undefined l = [].
Proof.
  induction l as [|x l IH]; simpl; [done|].
  intros [Hx Hl]%andb_prop. destruct (IH Hl) as [-> ->].
  rewrite Hx. by destruct (is_undefined x).
Qed.

Lemma filter_partition_perm {A} (p : A → bool) (l : list A) :
  (List.filter (fun x => negb (p x)) l ++ List.filter p l)%list ≡ₚ l.
Proof.
  induction l as [|x l IH]; simpl; [done|].
  destruct (p x); simpl.
  - rewrite <- Permutation_middle. by rewrite IH.
  - by rewrite IH.
Qed.

Lemma forallb_perm {A} (p : A → bool) (l l' : list A) :
  l ≡ₚ l' → forallb p l = forallb p l'.
Proof.
  induction 1; simpl; try congruence.
  - destruct (p x), (p y); done.
Qed.

Lemma StronglySorted_ext_in {A} (R R' : A → A → Prop) (l : list A) :
  (∀ a b, a ∈ l → b ∈ l → R a b → R' a b) →
  StronglySorted R l → StronglySorted R' l.
Proof.
  intros HR Hs. induction Hs as [|x l Hs IH Hx]; constructor.
  - apply IH. intros a b Ha Hb. apply HR; by apply list_elem_of_further.
  - rewrite Forall_forall in Hx |- *. intros y Hy. apply HR; auto.
    + apply list_elem_of_here.
    + by apply list_elem_of_further.
Qed.

Section QueryProperties.
Context {Schema : Type}.
Variable JSON_parse : string -> option value.
Variable doesMatchFilter : value -> value -> bool.
Variable Date_getTime : string -> option Z.
Variable localeCompare : string -> string -> Z.

Implicit Types (api : LocalApi Schema) (fs : FS).

Local Abbreviation getEntries :=
  (getEntries JSON_parse doesMatchFilter Date_getTime localeCompare).
Local Abbreviation compareEntries :=
  (compareEntries Date_getTime localeCompare).
Local Abbreviation sort_pass := (sort_pass Date_getTime localeCompare).
Local Abbreviation sortEntries := (sortEntries Date_getTime localeCompare).
Local Abbreviation includeEntries := (includeEntries JSON_parse).
Local Abbreviation applyFilters := (applyFilters doesMatchFilter).

(* The result of a call that returns. *)
Lemma getEntries_Ok_inv api fs ref options r :
  getEntries api fs ref options = Ok r →
  ∃ col, getCollectionRef api ref = Ok col ∧
    match fs_readdir fs (entry_dir api col) with
    | None =>
        r = {| entries := []; limit := default 1000 (opt_limit options);
               offset := default 0 (opt_offset options); count := None |}
    | Some files =>
        ∃ stored sorted,
          result_map (readEntryFile JSON_parse fs (entry_dir api col))
            (List.filter (string_endsWith ".json") files) = Ok stored
          ∧ sortEntries options (paginate options (applyFilters options stored))
            = Ok sorted
          ∧ includeEntries api fs options sorted = Ok (entries r)
          ∧ limit r = default 1000 (opt_limit options)
          ∧ offset r = default 0 (opt_offset options)
          ∧ count r = if opt_includeCount options
                      then Some (Z.of_nat (length (applyFilters options stored)))
                      else None
    end.
Proof.
  unfold getEntries.
  destruct (getCollectionRef api ref) as [col|] eqn:Hcol; [|done]. simpl.
  intros H. exists col. split; [done|]. fold (entry_dir api col) in H.
  destruct (fs_readdir fs (entry_dir api col)) as [files|]; [|by inversion H].
  destruct (result_map _ _) as [stored|]; [|done]. simpl in H.
  destruct (sortEntries _ _) as [sorted|] eqn:Hs; [|done].
  simpl in H.
  destruct (includeEntries _ _ _ _) as [included|] eqn:Hi; [|done].
  simpl in H. inversion H; subst; clear H. simpl.
  exists stored, sorted. done.
Qed.

Lemma includeEntries_none api fs options l :
  opt_include options = None → includeEntries api fs options l = Ok l.
Proof. intros H. unfold includeEntries. by rewrite H. Qed.

(** *** Sorting *)

Lemma sort_pass_perm l s l' : sort_pass l s = Ok l' → l' ≡ₚ l.
Proof.
  unfold sort_pass.
  destruct (_ && _); [done|]. intros [= <-].
  rewrite insertion_sort_perm. apply filter_partition_perm.
Qed.

Lemma sort_pass_defined l s l' :
  forallb (fun e => negb (is_undefined e)) l = true →
  sort_pass l s = Ok l' → l' = insertion_sort (compareEntries s) l.
Proof.
  intros [Hd Hu]%filter_defined_id.
  unfold sort_pass. rewrite Hd, Hu.
  destruct (_ && _); [done|]. intros [= <-]. by rewrite app_nil_r.
Qed.

(* the sort passes one after the other, in the order of the list *)
Definition sort_passes (sorts : list (string * direction)) (l : list value)
  : list value :=
  foldl (fun l s => insertion_sort (compareEntries s) l) l sorts.

(* the comparator of the first pair, ties broken by the next ones *)
Fixpoint lex_compare (sorts : list (string * direction)) (a b : value) : Z :=
  match sorts with
  | [] => 0
  | s :: rest => lex (compareEntries s) (lex_compare rest) a b
  end.

Lemma sort_passes_perm sorts l : sort_passes sorts l ≡ₚ l.
Proof.
  revert l. induction sorts as [|s sorts IH]; intros l; simpl; [done|].
  unfold sort_passes in *. simpl. rewrite IH. apply insertion_sort_perm.
Qed.

Lemma result_fold_sort_pass sorts l l' :
  forallb (fun e => negb (is_undefined e)) l = true →
  result_fold sort_pass l sorts = Ok l' →
  l' = sort_passes sorts l.
Proof.
  revert l. induction sorts as [|s sorts IH]; intros l Hd; simpl.
  - by intros [= <-].
  - destruct (sort_pass l s) as [l1|] eqn:E; [|done]. simpl.
    pose proof (sort_pass_perm _ _ _ E) as Hp.
    apply sort_pass_defined in E; [|done]. subst l1.
    intros H. apply IH in H; [done|].
    by rewrite (forallb_perm _ _ _ Hp).
Qed.

Lemma result_fold_sort_pass_perm sorts l l' :
  result_fold sort_pass l sorts = Ok l' → l' ≡ₚ l.
Proof.
  revert l. induction sorts as [|s sorts IH]; intros l; simpl.
  - by intros [= <-].
  - destruct (sort_pass l s) as [l1|] eqn:E; [|done]. simpl.
    intros H%IH. rewrite H. by eapply sort_pass_perm.
Qed.

Lemma sort_passes_app sorts s l :
  sort_passes (sorts ++ [s])%list l
  = insertion_sort (compareEntries s) (sort_passes sorts l).
Proof. unfold sort_passes. by rewrite foldl_app. Qed.

(* After all passes the list is sorted by the last key, ties by the
   key before it, and so on back to the first key. *)
Lemma sort_passes_sorted sorts l :
  (∀ s, s ∈ sorts → consistent (compareEntries s) l) →
  StronglySorted (le_of (lex_compare (rev sorts))) (sort_passes sorts l).
Proof.
  induction sorts as [|s sorts IH] using rev_ind; intros Hc.
  - simpl. apply StronglySorted_trivial. intros a b. unfold le_of. lia.
  - rewrite sort_passes_app, rev_unit. simpl.
    apply insertion_sort_lex.
    + eapply consistent_perm; [symmetry; apply sort_passes_perm|].
      apply Hc. apply elem_of_app. right. apply list_elem_of_here.
    + apply IH. intros s' Hs'. apply Hc. apply elem_of_app. by left.
Qed.

Lemma getEntries_missing_dir api fs ref col options :
  getCollectionRef api ref = Ok col →
  fs_readdir fs (entry_dir api col) = None →
  getEntries api fs ref options
  = Ok {| entries := []; limit := default 1000 (opt_limit options);
          offset := default 0 (opt_offset options); count := None |}.
Proof.
  intros Hcol Hdir. unfold getEntries.
  rewrite Hcol. simpl. fold (entry_dir api col). by rewrite Hdir.
Qed.

Lemma getEntries_resolved api fs ref col options files stored :
  getCollectionRef api ref = Ok col →
  fs_readdir fs (entry_dir api col) = Some files →
  result_map (readEntryFile JSON_parse fs (entry_dir api col))
    (List.filter (string_endsWith ".json") files) = Ok stored →
  getEntries api fs ref options
  = (do sorted <- sortEntries options
                    (paginate options (applyFilters options stored));
     do included <- includeEntries api fs options sorted;
     Ok {| entries := included;
           limit := default 1000 (opt_limit options);
           offset := default 0 (opt_offset options);
           count := if opt_includeCount options
                    then Some (Z.of_nat (length (applyFilters options stored)))
                    else None |}).
Proof.
  intros Hcol Hdir Hread. unfold getEntries.
  rewrite Hcol. simpl. fold (entry_dir api col). by rewrite Hdir, Hread.
Qed.

(** *** Sorting and include resolution

    The include step runs after the sort and changes an entry only by
    adding the property [entry] to the objects of its reference fields.
    The comparator does not tell such an object from the one it
    replaces, so the step keeps the order of the sort. *)

(* equal values, or two objects *)
Definition same_class (v v' : value) : Prop :=
  v = v' ∨ ∃ f f', v = VObj f ∧ v' = VObj f'.

Definition similar (e e' : value) : Prop :=
  ∀ k, same_class (prop e k) (prop e' k).

(* the include step on one entry *)
Definition resolveIncludes api fs (options : EntriesOptions) (entry : value)
  : result value :=
  result_fold (resolveInclude JSON_parse api fs) entry
    (default [] (opt_include options)).

Lemma similar_refl e : similar e e.
Proof. intros k. by left. Qed.

Lemma similar_trans e1 e2 e3 : similar e1 e2 → similar e2 e3 → similar e1 e3.
Proof.
  intros H12 H23 k. destruct (H12 k) as [->|(f & f' & -> & E2)]; [done|].
  destruct (H23 k) as [<-|(g & g' & _ & ->)]; right; eauto.
Qed.

Lemma resolveInclude_similar api fs e include e' :
  resolveInclude JSON_parse api fs e include = Ok e' →
  similar e e' ∧ is_undefined e' = false.
Proof.
  unfold resolveInclude, js_get.
  destruct (is_nullish e) eqn:Hn; [done|]. simpl.
  assert (Hu : is_undefined e = false) by by destruct e.
  destruct (truthy (opt_get (prop e include) "id")
            && truthy (opt_get (prop e include) "collection")) eqn:Ht.
  2: { intros [= <-]. split; [apply similar_refl|done]. }
  destruct (getEntry_nested _ _ _ _ _) as [other|]; [|done]. simpl.
  intros [= <-].
  apply andb_prop in Ht as [Hid _].
  destruct e as [| | | | | |fields]; try done.
  destruct (prop (VObj fields) include) as [| | | | | |vf] eqn:Hv; try done.
  simpl. split; [|done]. intros k. unfold prop.
  destruct (decide (include = k)) as [->|Hne].
  - rewrite assoc_get_set_eq. simpl. right.
    unfold prop in Hv. rewrite Hv. eauto.
  - rewrite assoc_get_set_ne by done. by left.
Qed.

Lemma resolveIncludes_similar api fs options e e' :
  resolveIncludes api fs options e = Ok e' →
  similar e e' ∧ is_undefined e = is_undefined e'.
Proof.
  unfold resolveIncludes. generalize (default [] (opt_include options)).
  intros incs. revert e. induction incs as [|inc incs IH]; intros e; simpl.
  - intros [= <-]. split; [apply similar_refl|done].
  - destruct (resolveInclude _ _ _ _ _) as [e1|] eqn:E; [|done]. simpl.
    intros H. apply IH in H as [Hs Hu].
    pose proof (resolveInclude_similar _ _ _ _ _ E) as [Hs1 Hu1].
    split; [by eapply similar_trans|].
    rewrite <- Hu, Hu1. revert E. unfold resolveInclude, js_get.
    by destruct e.
Qed.

Lemma compareEntries_similar s a a' b b' :
  similar a a' → similar b b' →
  compareEntries s a' b' = compareEntries s a b.
Proof.
  destruct s as [key dir]. intros Ha Hb. unfold compareEntries.
  destruct (Ha key) as [<-|(fa & fa' & -> & ->)];
    destruct (Hb key) as [<-|(fb & fb' & -> & ->)]; try done.
  all: by destruct (prop a key).
Qed.

Lemma includeEntries_map api fs options l :
  includeEntries api fs options l
  = result_map (resolveIncludes api fs options) l.
Proof.
  unfold includeEntries, resolveIncludes.
  destruct (default [] (opt_include options)) as [|inc incs]; [|done].
  simpl. induction l as [|x l IH]; simpl; [done|]. by rewrite <- IH.
Qed.

Lemma result_map_Forall2 {A B} (f : A → result B) l l' :
  result_map f l = Ok l' ↔ Forall2 (fun a b => f a = Ok b) l l'.
Proof.
  revert l'. induction l as [|x l IH]; intros l'; simpl.
  - split; [intros [= <-]; constructor|by inversion 1].
  - destruct (f x) as [y|] eqn:E; simpl.
    + destruct (result_map f l) as [ys|]; simpl.
      * split.
        -- intros [= <-]. constructor; [done|]. by apply IH.
        -- inversion 1 as [|? y' ? ys' Hy Hys]; subst.
           apply IH in Hys. congruence.
      * split; [done|]. inversion 1 as [|? y' ? ys' Hy Hys]; subst.
        by apply IH in Hys.
    + split; [done|]. inversion 1; congruence.
Qed.

Lemma result_map_total {A B} (f : A → result B) l :
  (∀ x, x ∈ l → ∃ y, f x = Ok y) → ∃ l', result_map f l = Ok l'.
Proof.
  induction l as [|x l IH]; intros H; simpl; [by eexists|].
  destruct (H x) as [y ->]; [apply list_elem_of_here|]. simpl.
  destruct IH as [ys ->].
  { intros z Hz. apply H. by apply list_elem_of_further. }
  by eexists.
Qed.

Lemma Forall2_functional {A B} (R : A → B → Prop) l l1 l2 :
  (∀ a b1 b2, R a b1 → R a b2 → b1 = b2) →
  Forall2 R l l1 → Forall2 R l l2 → l1 = l2.
Proof.
  intros HR H1. revert l2. induction H1 as [|a b l l1 Hab H1 IH]; intros l2.
  - by inversion 1.
  - inversion 1 as [|? b2 ? l2' Hab2 H2]; subst. f_equal; eauto.
Qed.

Lemma Forall2_elem_l {A B} (R : A → B → Prop) l l' x :
  Forall2 R l l' → x ∈ l → ∃ y, y ∈ l' ∧ R x y.
Proof.
  induction 1 as [|a b l l' Hab H IH]; [by intros ?%elem_of_nil|].
  intros [->|Hx]%elem_of_cons.
  - exists b. split; [apply list_elem_of_here|done].
  - destruct (IH Hx) as (y & Hy & HR). exists y.
    split; [by apply list_elem_of_further|done].
Qed.

(* Sorting commutes with a map that the comparator does not see. *)
Lemma insert_Forall2 (R : value → value → Prop) cmp x x' l l' :
  (∀ a a' b b', R a a' → R b b' → cmp a' b' = cmp a b) →
  R x x' → Forall2 R l l' →
  Forall2 R (insert cmp x l) (insert cmp x' l').
Proof.
  intros Hcmp Hx H. induction H as [|y y' l l' Hy H IH]; simpl.
  - by repeat constructor.
  - rewrite (Hcmp x x' y y') by done.
    destruct (0 <? cmp x y); by repeat constructor.
Qed.

Lemma insertion_sort_Forall2 (R : value → value → Prop) cmp l l' :
  (∀ a a' b b', R a a' → R b b' → cmp a' b' = cmp a b) →
  Forall2 R l l' →
  Forall2 R (insertion_sort cmp l) (insertion_sort cmp l').
Proof.
  intros Hcmp H. induction H; simpl; [constructor|].
  by apply insert_Forall2.
Qed.

Lemma sort_passes_Forall2 (R : value → value → Prop) sorts l l' :
  (∀ a a', R a a' → similar a a') →
  Forall2 R l l' →
  Forall2 R (sort_passes sorts l) (sort_passes sorts l').
Proof.
  intros HR. revert l l'. unfold sort_passes.
  induction sorts as [|s sorts IH]; intros l l' H; simpl; [done|].
  apply IH. apply insertion_sort_Forall2; [|done].
  intros a a' b b' Ha Hb. apply compareEntries_similar; by apply HR.
Qed.

Lemma sortEntries_Some options sorts l :
  opt_sort options = Some sorts →
  sortEntries options l = result_fold sort_pass l sorts.
Proof. intros H. unfold sortEntries. by rewrite H. Qed.

Lemma getEntries_without_sort api fs ref col options files stored :
  getCollectionRef api ref = Ok col →
  fs_readdir fs (entry_dir api col) = Some files →
  result_map (readEntryFile JSON_parse fs (entry_dir api col))
    (List.filter (string_endsWith ".json") files) = Ok stored →
  getEntries api fs ref (without_sort options)
  = (do included <- result_map (resolveIncludes api fs options)
                      (paginate options (applyFilters options stored));
     Ok {| entries := included;
           limit := default 1000 (opt_limit options);
           offset := default 0 (opt_offset options);
           count := if opt_includeCount options
                    then Some (Z.of_nat (length (applyFilters options stored)))
                    else None |}).
Proof.
  intros Hcol Hdir Hread.
  rewrite (getEntries_resolved _ _ _ _ _ _ _ Hcol Hdir Hread).
  change (sortEntries (without_sort options) ?l) with (Ok l).
  change (bind (Ok ?l) ?k) with (k l). cbv beta.
  by rewrite includeEntries_map.
Qed.

(* The entries of a call with sort pairs: those of the same call
   without sort, passed through the sorts; hence sorted by the last
   pair, ties by the pair before it, and so on. *)
Lemma getEntries_sorted api fs ref options sorts r :
  opt_sort options = Some sorts →
  getEntries api fs ref options = Ok r →
  forallb (fun e => negb (is_undefined e)) (entries r) = true →
  (∀ s, s ∈ sorts → consistent (compareEntries s) (entries r)) →
  ∃ r0, getEntries api fs ref (without_sort options) = Ok r0
        ∧ entries r = sort_passes sorts (entries r0)
        ∧ StronglySorted (le_of (lex_compare (rev sorts))) (entries r).
Proof.
  intros Hsort Hget Hdef Hcons.
  pose proof (getEntries_Ok_inv _ _ _ _ _ Hget) as (col & Hcol & Hinv).
  destruct (fs_readdir fs (entry_dir api col)) as [files|] eqn:Hdir.
  2: { rewrite (getEntries_missing_dir _ _ _ _ _ Hcol Hdir).
       subst r. simpl. eexists; split; [reflexivity|]. simpl.
       assert (Hnil : ∀ ss, sort_passes ss [] = []).
       { induction ss as [|s ss IH]; [done|]. unfold sort_passes in *.
         by simpl. }
       rewrite Hnil. split; [done|constructor]. }
  destruct Hinv as (stored & sorted & Hread & Hs & Hi & Hl & Ho & Hc).
  set (P := paginate options (applyFilters options stored)) in *.
  set (R := fun a b => resolveIncludes api fs options a = Ok b).
  assert (HR : ∀ a a', R a a' → similar a a').
  { intros a a' H. by apply resolveIncludes_similar in H as [? _]. }
  rewrite includeEntries_map in Hi.
  pose proof (proj1 (result_map_Forall2 _ _ _) Hi) as Hf. fold R in Hf.
  (* the sorted list has no undefined entry *)
  assert (Hdef' : forallb (fun e => negb (is_undefined e)) sorted = true).
  { apply forallb_forall. intros x Hx%list_elem_of_In.
    destruct (Forall2_elem_l _ _ _ _ Hf Hx) as (x' & Hx' & Rx).
    apply resolveIncludes_similar in Rx as [_ ->].
    rewrite forallb_forall in Hdef. apply Hdef. by apply list_elem_of_In. }
  rewrite (sortEntries_Some _ _ _ Hsort) in Hs.
  pose proof (result_fold_sort_pass_perm _ _ _ Hs) as Hp.
  apply result_fold_sort_pass in Hs;
    [|by rewrite <- (forallb_perm _ _ _ Hp)].
  (* the call without sort resolves the same entries *)
  destruct (result_map_total (resolveIncludes api fs options) P) as [P0 HP0].
  { intros x Hx. rewrite <- Hp in Hx.
    destruct (Forall2_elem_l _ _ _ _ Hf Hx) as (x' & _ & Rx). by exists x'. }
  pose proof (proj1 (result_map_Forall2 _ _ _) HP0) as Hf0. fold R in Hf0.
  assert (Heq : entries r = sort_passes sorts P0).
  { eapply (Forall2_functional R); [|exact Hf|].
    - intros a b1 b2. unfold R. congruence.
    - rewrite Hs. by apply sort_passes_Forall2. }
  rewrite (getEntries_without_sort _ _ _ _ _ _ _ Hcol Hdir Hread).
  fold P. rewrite HP0. simpl.
  eexists; split; [reflexivity|]. simpl. split; [done|].
  rewrite Heq. apply sort_passes_sorted.
  intros s Hs'. eapply consistent_perm; [|by apply Hcons].
  rewrite Heq. apply sort_passes_perm.
Qed.

(** C4. The sort pairs are applied as successive, independent stable
    passes in the order of the list: the entries returned are those of
    the same call without sort, passed through one sort after the other.
    The last pair therefore gives the dominant order, and a pair orders
    only the entries that tie on every pair after it. The entries are
    defined, and each comparator is consistent on them (the condition
    under which the order of Array.prototype.sort is determined). *)
Theorem getEntries_last_sort_key_dominates api fs ref options sorts r :
  opt_sort options = Some sorts →
  getEntries api fs ref options = Ok r →
  forallb (fun e => negb (is_undefined e)) (entries r) = true →
  forallb (fun s => consistentb (compareEntries s) (entries r)) sorts = true →
  ∃ r0, getEntries api fs ref (without_sort options) = Ok r0
        ∧ entries r = sort_passes sorts (entries r0)
        ∧ StronglySorted (le_of (lex_compare (rev sorts))) (entries r).
Proof.
  intros Hsort Hget Hdef Hcons.
  apply getEntries_sorted; try done.
  intros s Hs. apply consistentb_spec.
  rewrite forallb_forall in Hcons. apply Hcons. by apply list_elem_of_In.
Qed.

(** *** Sorting by a date field *)

(* the time stamp of the field [key] when it is a date string *)
Definition field_time (key : string) (e : value) : option Z :=
  match prop e key with
  | VStr s => Date_getTime s
  | _ => None
  end.

(* the entry is defined and its field [key] is null, undefined or a
   string that parses as a date *)
Definition datedb (key : string) (e : value) : bool :=
  negb (is_undefined e)
  && (is_nullish (prop e key) || is_some (field_time key e)).

(* [a] may stand before [b]: by time stamp, entries without a date
   first when ascending and last when descending *)
Definition date_order (dir : direction) (key : string) (a b : value) : Prop :=
  match field_time key a, field_time key b with
  | Some ta, Some tb =>
      match dir with
      | Asc => ta ≤ tb
      | Desc => tb ≤ ta
      end
  | None, Some _ => dir = Asc
  | Some _, None => dir = Desc
  | None, None => True
  end.

Lemma compareEntries_dated key dir a b :
  datedb key a = true → datedb key b = true →
  compareEntries (key, dir) a b =
    match field_time key a, field_time key b with
    | Some ta, Some tb =>
        match dir with
        | Asc => ta - tb
        | Desc => tb - ta
        end
    | None, Some _ => match dir with Asc => -1 | Desc => 1 end
    | Some _, None => match dir with Asc => 1 | Desc => -1 end
    | None, None => 0
    end.
Proof.
  unfold datedb, field_time, compareEntries.
  intros [_ Ha]%andb_prop [_ Hb]%andb_prop.
  destruct (prop a key) as [| | | |sa| |], (prop b key) as [| | | |sb| |];
    simpl in *; try done; try (by destruct dir);
    try (destruct (Date_getTime sa); [by destruct dir|done]);
    try (destruct (Date_getTime sb); [by destruct dir|done]).
  destruct (Date_getTime sa), (Date_getTime sb); try done. by destruct dir.
Qed.

Lemma compareEntries_dated_consistent key dir l :
  forallb (datedb key) l = true → consistent (compareEntries (key, dir)) l.
Proof.
  rewrite forallb_forall. intros Hl.
  assert (Hd : ∀ x, x ∈ l → datedb key x = true).
  { intros x Hx. apply Hl. by apply list_elem_of_In. }
  split.
  - intros x y Hx%Hd Hy%Hd.
    rewrite !compareEntries_dated by done.
    destruct (field_time key x), (field_time key y), dir; lia.
  - intros x y z Hx%Hd Hy%Hd Hz%Hd.
    rewrite !compareEntries_dated by done.
    destruct (field_time key x), (field_time key y), (field_time key z), dir;
      lia.
Qed.

(** C5. Sorted by a single key whose values are date strings (or null
    or undefined), the entries returned are in the order of their time
    stamps: non-increasing when descending, with every entry whose
    field is null or undefined after all the dated ones; when ascending
    the order is non-decreasing and those entries come first. *)
Theorem getEntries_sort_by_date api fs ref options key dir r :
  opt_sort options = Some [(key, dir)] →
  getEntries api fs ref options = Ok r →
  forallb (datedb key) (entries r) = true →
  StronglySorted (date_order dir key) (entries r).
Proof.
  intros Hsort Hget Hdated.
  assert (Hdef : forallb (fun e => negb (is_undefined e)) (entries r) = true).
  { rewrite forallb_forall in Hdated |- *. intros e He.
    specialize (Hdated e He). unfold datedb in Hdated.
    by apply andb_prop in Hdated as [? _]. }
  destruct (getEntries_sorted api fs ref options [(key, dir)] r)
    as (r0 & _ & _ & Hsorted); try done.
  { intros s ->%list_elem_of_singleton.
    by apply compareEntries_dated_consistent. }
  simpl in Hsorted.
  apply (StronglySorted_ext_in
           (le_of (lex (compareEntries (key, dir)) (fun _ _ => 0))));
    [|done].
  intros a b Ha Hb. unfold le_of, lex, date_order.
  rewrite forallb_forall in Hdated.
  rewrite !compareEntries_dated by (apply Hdated; by apply list_elem_of_In).
  destruct (field_time key a), (field_time key b), dir;
    try done; try lia; by case_match; lia.
Qed.

(** *** Count and limit *)

(* When the directory of the collection exists, count is the number of
   entries after the filter and before offset and limit, and it is
   present exactly when includeCount was requested. *)
Lemma getEntries_count api fs ref col options files r :
  getCollectionRef api ref = Ok col →
  fs_readdir fs (entry_dir api col) = Some files →
  getEntries api fs ref options = Ok r →
  ∃ stored,
    result_map (readEntryFile JSON_parse fs (entry_dir api col))
      (List.filter (string_endsWith ".json") files) = Ok stored
    ∧ count r = if opt_includeCount options
                then Some (Z.of_nat (length (applyFilters options stored)))
                else None.
Proof.
  intros Hcol Hdir Hget.
  pose proof (getEntries_Ok_inv _ _ _ _ _ Hget) as (col' & Hcol' & Hinv).
  rewrite Hcol in Hcol'. injection Hcol' as <-. rewrite Hdir in Hinv.
  destruct Hinv as (stored & sorted & Hread & _ & _ & _ & _ & Hc).
  by exists stored.
Qed.

(** C6 (the code departs from the claim). When the directory of the
    collection does not exist, getEntries returns early with a result
    that has no count, also when includeCount was requested. *)
Theorem getEntries_missing_directory_no_count api fs ref col options :
  getCollectionRef api ref = Ok col →
  fs !! entry_dir api col = None →
  opt_includeCount options = true →
  ∃ r, getEntries api fs ref options = Ok r ∧ count r = None.
Proof.
  intros Hcol Hdir _.
  assert (Hread : fs_readdir fs (entry_dir api col) = None).
  { unfold fs_readdir. by rewrite Hdir. }
  rewrite (getEntries_missing_dir _ _ _ col options Hcol Hread).
  by eexists.
Qed.

Lemma js_slice_0_0 {A} (l : list A) : js_slice 0 (Some 0) l = [].
Proof. unfold js_slice, rel_index. simpl. by destruct l. Qed.

Lemma js_slice_0_length {A} (n : Z) (l : list A) :
  0 ≤ n → (length (js_slice 0 (Some n) l) ≤ Z.to_nat n)%nat.
Proof.
  intros Hn. unfold js_slice, rel_index.
  destruct (n <? 0) eqn:E; [lia|]. simpl.
  rewrite length_take. lia.
Qed.

Lemma result_fold_sort_pass_nil sorts :
  result_fold sort_pass [] sorts = Ok [].
Proof. induction sorts as [|s sorts IH]; [done|]. simpl. exact IH. Qed.

(* A limit of 0 yields no entry; an absent limit is 1000. *)
Lemma getEntries_limit api fs ref options r :
  getEntries api fs ref options = Ok r →
  limit r = default 1000 (opt_limit options)
  ∧ (opt_limit options = Some 0 → entries r = [])
  ∧ (opt_limit options = None → (length (entries r) ≤ 1000)%nat).
Proof.
  intros Hget.
  pose proof (getEntries_Ok_inv _ _ _ _ _ Hget) as (col & Hcol & Hinv).
  destruct (fs_readdir fs (entry_dir api col)) as [files|] eqn:Hdir.
  2: { subst r. simpl. split; [done|]. split; [done|]. intros _. lia. }
  destruct Hinv as (stored & sorted & Hread & Hs & Hi & Hl & _).
  split; [done|].
  assert (Hlen : length (entries r) = length sorted).
  { revert Hi. unfold includeEntries.
    destruct (_ =? _)%nat; [by intros [= <-]|].
    generalize (entries r). clear. intros l.
    revert l. induction sorted as [|x xs IH]; intros l; simpl.
    - by intros [= <-].
    - destruct (result_fold _ _ _); [|done]. simpl.
      destruct (result_map _ xs) eqn:E; [|done]. simpl.
      intros [= <-]. simpl. f_equal. by apply IH. }
  unfold sortEntries in Hs.
  apply result_fold_sort_pass_perm in Hs. apply Permutation_length in Hs.
  split.
  - intros H0. apply nil_length_inv. rewrite Hlen, Hs.
    unfold paginate. rewrite H0. by rewrite (js_slice_0_0 _).
  - intros HN. rewrite Hlen, Hs. unfold paginate. rewrite HN.
    etrans; [apply (js_slice_0_length 1000); lia|]. lia.
Qed.
End QueryProperties.

(** ** Asset store *)

Lemma string_app_inv_tail a b c : a +:+ c = b +:+ c → a = b.
Proof.
  revert b. induction a as [|x a IH]; intros [|y b] H; simpl in *.
  - done.
  - apply (f_equal String.length) in H. simpl in H.
    rewrite !string_length_app in H. simpl in H. lia.
  - apply (f_equal String.length) in H. simpl in H.
    rewrite !string_length_app in H. simpl in H. lia.
  - injection H as -> H. f_equal. by apply IH.
Qed.

Lemma pretty_N_char_no_slash x : Ascii.eqb "/" (pretty_N_char x) = false.
Proof. unfold pretty_N_char. by repeat case_match. Qed.

Lemma pretty_N_go_no_slash x s :
  string_contains_char "/" s = false →
  string_contains_char "/" (pretty_N_go x s) = false.
Proof.
  revert s. induction (N.lt_wf_0 x) as [x _ IH]; intros s Hs.
  assert (x = 0 ∨ 0 < x)%N as [->|?] by lia.
  - by rewrite pretty_N_go_0.
  - rewrite pretty_N_go_step by done. apply IH.
    { by apply N.div_lt. }
    cbn [string_contains_char]. by rewrite pretty_N_char_no_slash.
Qed.

Lemma pretty_nat_flat (n : nat) : flat_name (pretty n) = true.
Proof.
  unfold flat_name, pretty, pretty_nat, pretty, pretty_N.
  case_decide; [done|]. by rewrite pretty_N_go_no_slash.
Qed.

Lemma split_last_dot_app name pre ext :
  split_last_dot name = Some (pre, ext) → name = pre +:+ ext.
Proof.
  revert pre ext. induction name as [|c name IH]; intros pre ext; simpl; [done|].
  destruct (split_last_dot name) as [[pre' ext']|].
  - intros [= <- <-]. by rewrite (IH pre' ext' eq_refl) at 1.
  - destruct (Ascii.eqb c "."); [|done]. by intros [= <- <-].
Qed.

(* The extension and the base of a flat name are flat, and the base
   followed by the extension is the name. *)
Lemma basename_extname name :
  basename name (extname name) +:+ extname name = name.
Proof.
  unfold basename, extname.
  destruct (split_last_dot name) as [[pre ext]|] eqn:E; simpl.
  2: { apply string_app_nil_r. }
  apply split_last_dot_app in E.
  destruct (String.eqb pre "" || String.eqb name "..") eqn:E'; simpl.
  - apply string_app_nil_r.
  - destruct (String.eqb ext "") eqn:E1.
    + apply String.eqb_eq in E1. rewrite E1. apply string_app_nil_r.
    + by rewrite String.eqb_refl.
Qed.

Lemma basename_extname_flat name :
  flat_name name = true →
  flat_name (basename name (extname name)) = true
  ∧ flat_name (extname name) = true.
Proof.
  intros H. rewrite <- (basename_extname name), flat_name_app in H.
  by apply andb_prop in H.
Qed.

(* The names the loop of uploadAsset tries: the name itself, then the
   name with the suffix -1, -2, ... before the extension. *)
Definition suffixed (filename : string) (k : nat) : string :=
  match k with
  | O => filename
  | S _ =>
      basename filename (extname filename) +:+ "-" +:+ pretty k
      +:+ extname filename
  end.

Lemma suffixed_flat filename k :
  flat_name filename = true → flat_name (suffixed filename k) = true.
Proof.
  intros H. destruct k as [|k]; [done|]. simpl.
  destruct (basename_extname_flat _ H) as [Hb He].
  by rewrite !flat_name_app, Hb, He, pretty_nat_flat.
Qed.

Lemma suffixed_inj filename j k :
  suffixed filename (S j) = suffixed filename (S k) → j = k.
Proof.
  unfold suffixed. intros H.
  apply (inj (String.app _)) in H. apply (inj (String.app _)) in H.
  apply string_app_inv_tail in H. apply (inj pretty) in H. lia.
Qed.

Lemma fs_access_true_elem (fs : FS) dir file l :
  fs !! dir = Some l → fs_access fs dir file = true → file ∈ l.*1.
Proof.
  intros Hl. unfold fs_access, fs_readFile. rewrite Hl. simpl.
  destruct (assoc_get file l) eqn:E; [|done].
  intros _. by eapply assoc_get_Some_elem.
Qed.

Lemma fs_access_false (fs : FS) dir file :
  fs_access fs dir file = false ↔ fs_readFile fs dir file = None.
Proof. unfold fs_access. by destruct (fs_readFile fs dir file). Qed.

Section AssetProperties.
Context {Schema : Type} {Sharp : Type}.
Variable sharp : string -> option Sharp.
Variable sharp_metadata : Sharp -> option (option Z * option Z).
Variable sharp_resize :
  Sharp -> option Z -> option Z -> ResizeOptions -> option Sharp.
Variable sharp_toFormat : Sharp -> image_format -> option Z -> option Sharp.
Variable sharp_toBuffer : Sharp -> option string.

Implicit Types (api : LocalApi Schema) (fs : FS).

Local Abbreviation getAsset :=
  (getAsset sharp sharp_metadata sharp_resize sharp_toFormat sharp_toBuffer).
Local Abbreviation transformImage :=
  (transformImage sharp sharp_metadata sharp_resize sharp_toFormat
     sharp_toBuffer).
Local Abbreviation listAssets := (listAssets sharp sharp_metadata).
Local Abbreviation describeAsset := (describeAsset sharp sharp_metadata).

(** *** The loop of uploadAsset *)

(* The loop stops at the first free name. *)
Lemma uniqueFilename_Some fuel fs dir filename c f :
  uniqueFilename fuel fs dir filename (suffixed filename c) (S c) = Some f →
  ∃ k, (c ≤ k)%nat ∧ f = suffixed filename k
       ∧ fs_access fs dir f = false
       ∧ ∀ j, (c ≤ j < k)%nat → fs_access fs dir (suffixed filename j) = true.
Proof.
  revert c. induction fuel as [|fuel IH]; intros c; simpl; [done|].
  destruct (fs_access fs dir (suffixed filename c)) eqn:E.
  - intros H. apply (IH (S c)) in H as (k & Hk & -> & Hfree & Hbusy).
    exists k. split; [lia|]. split; [done|]. split; [done|].
    intros j Hj. destruct (decide (j = c)) as [->|]; [done|].
    apply Hbusy. lia.
  - intros [= <-]. exists c. split; [lia|]. split; [done|]. split; [done|].
    intros j Hj. lia.
Qed.

(* The loop runs out of fuel only when every name it tried is taken. *)
Lemma uniqueFilename_None fuel fs dir filename c :
  uniqueFilename fuel fs dir filename (suffixed filename c) (S c) = None →
  ∀ j, (c ≤ j < c + fuel)%nat → fs_access fs dir (suffixed filename j) = true.
Proof.
  revert c. induction fuel as [|fuel IH]; intros c; simpl.
  - intros _ j Hj. lia.
  - destruct (fs_access fs dir (suffixed filename c)) eqn:E; [|done].
    intros H j Hj. destruct (decide (j = c)) as [->|]; [done|].
    apply (IH (S c)); [done|lia].
Qed.

(* The fuel of uploadAsset is enough: a directory cannot hold all the
   candidate names. *)
Lemma uniqueFilename_terminates fs dir filename :
  is_Some (uniqueFilename (uploadAsset_fuel fs dir) fs dir filename filename 1).
Proof.
  destruct (uniqueFilename _ _ _ _ _ _) eqn:E; [by eexists|]. exfalso.
  pose proof (uniqueFilename_None _ _ _ _ 0%nat E) as E'. clear E.
  rename E' into E. unfold uploadAsset_fuel in E.
  destruct (fs !! dir) as [l|] eqn:Hl.
  2: { specialize (E 0%nat ltac:(lia)). unfold fs_access, fs_readFile in E.
       by rewrite Hl in E. }
  simpl in E.
  set (names := (fun k => suffixed filename (S k)) <$> seq 0 (S (length l))).
  assert (Hnd : NoDup names).
  { apply NoDup_fmap_2_strong; [|apply NoDup_seq].
    intros j k _ _. apply suffixed_inj. }
  assert (Hsub : names ⊆+ l.*1).
  { apply NoDup_submseteq; [done|]. intros x Hx.
    apply list_elem_of_fmap in Hx as (k & -> & Hk).
    apply elem_of_seq in Hk. eapply fs_access_true_elem; [done|].
    apply E. lia. }
  apply submseteq_length in Hsub.
  unfold names in Hsub. rewrite !length_fmap, length_seq in Hsub. lia.
Qed.

(* One upload: the name written is the first free candidate, and the
   store after it is the store with that one file added. *)
Lemma uploadAsset_spec api fs file filename ct :
  flat_name filename = true →
  ∃ k r fs',
    uploadAsset api fs file filename ct = (Ok r, fs')
    ∧ up_filename r = suffixed filename k
    ∧ (∀ j, (j < k)%nat →
         is_Some (fs_readFile fs (getAssetDir api) (suffixed filename j)))
    ∧ fs_readFile fs (getAssetDir api) (up_filename r) = None
    ∧ fs_writeFile (fs_mkdir (getAssetDir api) fs) (getAssetDir api)
        (up_filename r) file = Some fs'
    ∧ up_size r = Z.of_nat (String.length file)
    ∧ up_contentType r = match ct with
                         | Some c => Some c
                         | None => getContentType filename
                         end.
Proof.
  intros Hflat. unfold uploadAsset, ensureAssetDir.
  set (dir := getAssetDir api). set (fs1 := fs_mkdir dir fs).
  destruct (uniqueFilename_terminates fs1 dir filename) as [f Hf].
  rewrite Hf.
  apply (uniqueFilename_Some _ _ _ _ 0) in Hf as (k & _ & -> & Hfree & Hbusy).
  assert (Hw : fs_writeFile fs1 dir (suffixed filename k) file
               = Some (<[dir := assoc_set (suffixed filename k) file
                                  (default [] (fs !! dir))]> fs1)).
  { apply fs_writeFile_Some; [apply fs_mkdir_lookup|by apply suffixed_flat]. }
  rewrite Hw.
  unfold fs_stat_size. erewrite fs_readFile_write_eq by exact Hw. simpl.
  exists k. eexists. eexists. split; [reflexivity|]. simpl.
  repeat split; try done.
  - intros j Hj. specialize (Hbusy j ltac:(lia)).
    unfold fs_access in Hbusy. subst fs1.
    rewrite fs_mkdir_readFile in Hbusy.
    by destruct (fs_readFile fs dir (suffixed filename j)).
  - apply fs_access_false in Hfree. subst fs1.
    by rewrite fs_mkdir_readFile in Hfree.
Qed.

Lemma upload_read_same (fs fs' : FS) dir f file :
  fs_writeFile (fs_mkdir dir fs) dir f file = Some fs' →
  fs_readFile fs' dir f = Some file.
Proof. apply fs_readFile_write_eq. Qed.

Lemma upload_read_other (fs fs' : FS) dir f file g :
  fs_writeFile (fs_mkdir dir fs) dir f file = Some fs' →
  g ≠ f → fs_readFile fs' dir g = fs_readFile fs dir g.
Proof.
  intros Hw Hne.
  rewrite (fs_readFile_write_ne _ _ _ _ _ dir g Hw) by congruence.
  apply fs_mkdir_readFile.
Qed.

(* Without options the bytes come back as they are stored. *)
Lemma getAsset_data_no_options api fs filename bytes :
  fs_readFile fs (getAssetDir api) filename = Some bytes →
  data <$> getAsset api fs filename no_assetOptions = Some bytes.
Proof.
  intros H. unfold getAsset. rewrite H.
  destruct (is_image (getContentType filename)); [|done].
  unfold transformImage.
  destruct (sharp bytes) as [t|]; [|done].
  destruct (sharp_metadata t) as [[w h]|]; done.
Qed.

(** C7. uploadAsset writes under the first free name among the
    requested name and the name with the suffix -1, -2, ... before the
    extension, so the name is free at the time of the write and no file
    that exists is overwritten. Two uploads in a row that request the
    same name store two different files, each returned by getAsset with
    its own bytes; when the name is logo.png and neither logo.png nor
    logo-1.png exists before, the files are logo.png and logo-1.png.
    The requested name is a file name of one path segment (not empty,
    and neither . nor .., which name directories). *)
Theorem uploadAsset_unique_filename api fs file1 file2 filename ct1 ct2 :
  plain_name filename = true →
  ∃ k1 r1 fs1 k2 r2 fs2,
    uploadAsset api fs file1 filename ct1 = (Ok r1, fs1)
    ∧ uploadAsset api fs1 file2 filename ct2 = (Ok r2, fs2)
    ∧ up_filename r1 = suffixed filename k1
    ∧ up_filename r2 = suffixed filename k2
    ∧ (∀ j, (j < k1)%nat →
         is_Some (fs_readFile fs (getAssetDir api) (suffixed filename j)))
    ∧ (∀ j, (j < k2)%nat →
         is_Some (fs_readFile fs1 (getAssetDir api) (suffixed filename j)))
    ∧ fs_readFile fs (getAssetDir api) (up_filename r1) = None
    ∧ fs_readFile fs1 (getAssetDir api) (up_filename r2) = None
    ∧ (∀ f bytes, fs_readFile fs (getAssetDir api) f = Some bytes →
         fs_readFile fs1 (getAssetDir api) f = Some bytes
         ∧ fs_readFile fs2 (getAssetDir api) f = Some bytes)
    ∧ up_filename r1 ≠ up_filename r2
    ∧ data <$> getAsset api fs2 (up_filename r1) no_assetOptions = Some file1
    ∧ data <$> getAsset api fs2 (up_filename r2) no_assetOptions = Some file2
    ∧ (filename = "logo.png" →
       fs_readFile fs (getAssetDir api) "logo.png" = None →
       fs_readFile fs (getAssetDir api) "logo-1.png" = None →
       up_filename r1 = "logo.png" ∧ up_filename r2 = "logo-1.png").
Proof.
  intros Hflat%plain_name_flat. set (dir := getAssetDir api).
  destruct (uploadAsset_spec api fs file1 filename ct1 Hflat)
    as (k1 & r1 & fs1 & Hup1 & Hn1 & Hbusy1 & Hfree1 & Hw1 & _).
  destruct (uploadAsset_spec api fs1 file2 filename ct2 Hflat)
    as (k2 & r2 & fs2 & Hup2 & Hn2 & Hbusy2 & Hfree2 & Hw2 & _).
  fold dir in Hbusy1, Hfree1, Hw1, Hbusy2, Hfree2, Hw2.
  exists k1, r1, fs1, k2, r2, fs2.
  assert (Hr1 : fs_readFile fs1 dir (up_filename r1) = Some file1)
    by by eapply upload_read_same.
  assert (Hne : up_filename r1 ≠ up_filename r2).
  { intros Heq. rewrite Heq in Hr1. congruence. }
  assert (Hkeep1 : ∀ f bytes, fs_readFile fs dir f = Some bytes →
                     fs_readFile fs1 dir f = Some bytes).
  { intros f bytes Hf.
    rewrite (upload_read_other _ _ _ _ _ f Hw1); [done|]. congruence. }
  assert (Hkeep2 : ∀ f bytes, fs_readFile fs1 dir f = Some bytes →
                     fs_readFile fs2 dir f = Some bytes).
  { intros f bytes Hf.
    rewrite (upload_read_other _ _ _ _ _ f Hw2); [done|]. congruence. }
  repeat (split; [done|]).
  split; [by auto|]. split; [done|].
  split; [apply getAsset_data_no_options; by apply Hkeep2|].
  split; [apply getAsset_data_no_options; by eapply upload_read_same|].
  intros -> Hlogo Hlogo1.
  assert (Hk1 : k1 = 0%nat).
  { destruct k1 as [|k1]; [done|]. destruct (Hbusy1 0%nat ltac:(lia)) as [x Hx].
    simpl in Hx. congruence. }
  subst k1. simpl in Hn1. split; [done|].
  assert (Hfree : fs_readFile fs1 dir "logo-1.png" = None).
  { rewrite (upload_read_other _ _ _ _ _ "logo-1.png" Hw1); [done|].
    rewrite Hn1. done. }
  destruct k2 as [|[|k2]].
  - simpl in Hn2. rewrite Hn2, <- Hn1 in Hfree2. congruence.
  - rewrite Hn2. reflexivity.
  - destruct (Hbusy2 1%nat ltac:(lia)) as [x Hx].
    change (suffixed "logo.png" 1) with "logo-1.png" in Hx. congruence.
Qed.

(** *** Content type *)



(** *** Listing *)

(* The file name contains the search string, letter case aside. *)
Definition matches_search (s file : string) : bool :=
  string_includes (toLowerCase s) (toLowerCase file).

(* The file names strictly after the first occurrence of [cursor]. *)
Fixpoint files_after (cursor : string) (files : list string) : list string :=
  match files with
  | [] => []
  | f :: rest => if String.eqb f cursor then rest else files_after cursor rest
  end.

(* The listing as the claim words it: search, then cursor, then limit.
   The cursor cuts the names that the search has left: a cursor that is
   not among them (or is the empty string, which counts as not given)
   cuts nothing. *)
Definition found_files (options : ListOptions) (files : list string)
  : list string :=
  match search options with
  | Some s => List.filter (matches_search s) files
  | None => files
  end.

Definition after_cursor (cursor : option string) (found : list string)
  : list string :=
  match cursor with
  | Some c =>
      if String.eqb c "" then found
      else if bool_decide (c ∈ found) then files_after c found
      else found
  | None => found
  end.

Definition listing_spec (options : ListOptions) (files : list string)
  : list string :=
  let found := found_files options files in
  let after := after_cursor (startAfter options) found in
  match list_limit options with
  | Some n => take (Z.to_nat n) after
  | None => after
  end.

Lemma filter_all {A} (p : A → bool) (l : list A) :
  (∀ x, p x = true) → List.filter p l = l.
Proof.
  intros H. induction l as [|x l IH]; simpl; [done|]. by rewrite H, IH.
Qed.

Lemma searchFiles_spec options files :
  searchFiles options files = found_files options files.
Proof.
  unfold searchFiles, found_files. destruct (search options) as [s|]; [|done].
  destruct (String.eqb s "") eqn:E; [|done].
  apply String.eqb_eq in E. subst s. symmetry. apply filter_all.
  intros f. unfold matches_search. simpl. by destruct (toLowerCase f).
Qed.

Lemma js_slice_drop {A} (k : nat) (l : list A) :
  js_slice (Z.of_nat k) None l = drop k l.
Proof.
  unfold js_slice, rel_index.
  destruct (Z.of_nat k <? 0) eqn:E; [apply Z.ltb_lt in E; lia|].
  rewrite Nat2Z.id.
  destruct (decide (k ≤ length l)%nat).
  - rewrite Nat.min_l by done. apply take_ge. rewrite length_drop. lia.
  - rewrite Nat.min_r by lia. rewrite !drop_ge by lia. apply take_nil.
Qed.

Lemma js_slice_take {A} (n : Z) (l : list A) :
  0 ≤ n → js_slice 0 (Some n) l = take (Z.to_nat n) l.
Proof.
  intros Hn. unfold js_slice, rel_index.
  destruct (n <? 0) eqn:E; [lia|]. simpl. rewrite Nat.sub_0_r.
  destruct (decide (Z.to_nat n ≤ length l)%nat).
  - by rewrite Nat.min_l.
  - rewrite Nat.min_r by lia. rewrite (take_ge l (Z.to_nat n)) by lia.
    apply take_ge. simpl. lia.
Qed.

Lemma js_slice_subseteq {A} a b (l : list A) : js_slice a b l ⊆ l.
Proof.
  unfold js_slice. etrans; [apply subseteq_take|apply subseteq_drop].
Qed.

Lemma indexOf_files_after cursor files i :
  indexOf cursor files = Some i → drop (S i) files = files_after cursor files.
Proof.
  revert i. induction files as [|f files IH]; intros i; simpl; [done|].
  destruct (String.eqb f cursor); [by intros [= <-]|].
  destruct (indexOf cursor files) as [j|]; [|done].
  intros [= <-]. by apply IH.
Qed.

Lemma indexOf_elem cursor files :
  cursor ∈ files → is_Some (indexOf cursor files).
Proof.
  induction files as [|f files IH]; [by intros ?%elem_of_nil|].
  intros [->|H]%elem_of_cons; simpl.
  - rewrite String.eqb_refl. by eexists.
  - destruct (String.eqb f cursor); [by eexists|].
    destruct (IH H) as [j ->]. by eexists.
Qed.

Lemma indexOf_not_elem cursor files :
  cursor ∉ files → indexOf cursor files = None.
Proof.
  induction files as [|f files IH]; [done|].
  intros [Hne Hin]%not_elem_of_cons. simpl.
  destruct (String.eqb f cursor) eqn:E.
  - apply String.eqb_eq in E. congruence.
  - by rewrite IH.
Qed.

Lemma cutAfter_spec options files :
  cutAfter options files = after_cursor (startAfter options) files.
Proof.
  unfold cutAfter, after_cursor.
  destruct (startAfter options) as [c|]; [|done].
  destruct (String.eqb c ""); [done|].
  case_bool_decide as Hin.
  - destruct (indexOf_elem _ _ Hin) as [i Hi]. rewrite Hi.
    rewrite <- (indexOf_files_after _ _ _ Hi).
    replace (Z.of_nat i + 1) with (Z.of_nat (S i)) by lia.
    apply js_slice_drop.
  - by rewrite indexOf_not_elem.
Qed.

Lemma limitFiles_spec options files :
  (∀ n, list_limit options = Some n → 0 < n) →
  limitFiles options files
  = match list_limit options with
    | Some n => take (Z.to_nat n) files
    | None => files
    end.
Proof.
  intros H. unfold limitFiles. destruct (list_limit options) as [n|]; [|done].
  specialize (H n eq_refl). simpl.
  destruct (n =? 0) eqn:E; [lia|]. simpl. apply js_slice_take. lia.
Qed.

Lemma limitFiles_zero options files :
  list_limit options = Some 0 → limitFiles options files = files.
Proof. intros H. unfold limitFiles. by rewrite H. Qed.

Lemma pipeline_subseteq options files :
  limitFiles options (cutAfter options (searchFiles options files)) ⊆ files.
Proof.
  assert (H1 : searchFiles options files ⊆ files).
  { unfold searchFiles. destruct (search options) as [s|]; [|done].
    destruct (String.eqb s ""); [done|].
    intros x Hx%list_elem_of_In%filter_In. apply list_elem_of_In. tauto. }
  assert (H2 : ∀ l, cutAfter options l ⊆ l).
  { intros l. unfold cutAfter. destruct (startAfter options) as [c|]; [|done].
    destruct (String.eqb c ""); [done|].
    destruct (indexOf c l); [apply js_slice_subseteq|done]. }
  assert (H3 : ∀ l, limitFiles options l ⊆ l).
  { intros l. unfold limitFiles.
    destruct (truthy_num _); [apply js_slice_subseteq|done]. }
  etrans; [apply H3|]. etrans; [apply H2|]. done.
Qed.

Lemma mapM_cons_option {A B} (f : A → option B) (x : A) (l : list A) :
  mapM f (x :: l) = y ← f x; k ← mapM f l; Some (y :: k).
Proof. reflexivity. Qed.

(* The assets returned are those of the file names that the three
   steps leave, in their order. *)
Lemma listAssets_keys api fs options files :
  fs_readdir fs (getAssetDir api) = Some files →
  map key (listAssets api fs options)
  = limitFiles options (cutAfter options (searchFiles options files)).
Proof.
  intros Hdir. unfold listAssets. rewrite Hdir.
  pose proof (pipeline_subseteq options files) as Hsub.
  revert Hsub. generalize (limitFiles options (cutAfter options
                             (searchFiles options files))).
  intros l Hsub.
  assert (Hstat : ∀ f, f ∈ l → is_Some (fs_stat_size fs (getAssetDir api) f)).
  { intros f Hf%Hsub. unfold fs_readdir in Hdir.
    unfold fs_stat_size, fs_readFile.
    destruct (fs !! getAssetDir api) as [d|]; [|done]. simpl in *.
    injection Hdir as <-.
    destruct (assoc_get f d) eqn:E; [by eexists|].
    by apply assoc_get_None_not_elem in E. }
  clear Hsub.
  assert (∃ assets, mapM (describeAsset fs (getAssetDir api)) l = Some assets
                    ∧ map key assets = l) as (assets & -> & Hk); [|done].
  induction l as [|f l IH]; [by eexists|].
  destruct IH as (assets & Hm & Hk).
  { intros g Hg. apply Hstat. by apply list_elem_of_further. }
  destruct (Hstat f) as [sz Hsz]; [apply list_elem_of_here|].
  rewrite mapM_cons_option, Hm.
  unfold describeAsset.
  rewrite Hsz. simpl. eexists; split; [done|].
  simpl. by rewrite Hk.
Qed.

(** C9. listAssets filters the directory listing to the names that
    contain the search string (letter case aside), then keeps the names
    strictly after the cursor among the names that the search has left
    (all of them when the cursor is not one of these), then truncates
    to the limit: for every search and every cursor the keys returned
    are those of [listing_spec], which takes the three steps in this
    order. With search "logo" alone the names returned are the names
    of the listing that contain "logo", and with startAfter "b.png" and
    limit 1 the result is the one name that follows "b.png" in the
    listing. The limit is positive (a limit of 0 is the subject of
    C10). *)
Theorem listAssets_search_cursor_limit api fs files :
  fs_readdir fs (getAssetDir api) = Some files →
  (∀ options,
     (∀ n, list_limit options = Some n → 0 < n) →
     map key (listAssets api fs options) = listing_spec options files)
  ∧ map key (listAssets api fs
               {| search := Some "logo"; list_limit := None;
                  startAfter := None |})
    = List.filter (fun f => string_includes "logo" (toLowerCase f)) files
  ∧ (∀ pre next rest,
       files = (pre ++ "b.png" :: next :: rest)%list → "b.png" ∉ pre →
       map key (listAssets api fs
                  {| search := None; list_limit := Some 1;
                     startAfter := Some "b.png" |})
       = [next]).
Proof.
  intros Hdir.
  assert (Hmain : ∀ options,
     (∀ n, list_limit options = Some n → 0 < n) →
     map key (listAssets api fs options) = listing_spec options files).
  { intros options Hn.
    rewrite (listAssets_keys _ _ _ _ Hdir), searchFiles_spec.
    rewrite cutAfter_spec. rewrite limitFiles_spec by done. done. }
  split; [done|]. split.
  - rewrite Hmain; [done|done].
  - intros pre next rest -> Hpre. rewrite Hmain.
    + unfold listing_spec, found_files, after_cursor. simpl.
      rewrite bool_decide_true.
      2: { apply elem_of_app. right. apply list_elem_of_here. }
      assert (Hafter : ∀ l, "b.png" ∉ l →
                files_after "b.png" (l ++ "b.png" :: next :: rest)%list
                = next :: rest).
      { induction l as [|x l IH]; intros Hl; [done|].
        apply not_elem_of_cons in Hl as [Hx Hl].
        cbn [files_after app].
        assert (String.eqb x "b.png" = false) as ->
          by by apply String.eqb_neq.
        by apply IH. }
      by rewrite Hafter.
    + intros n [= <-]. lia.
Qed.
End AssetProperties.

(** ** A limit of zero *)

Definition without_limit (options : ListOptions) : ListOptions :=
  {| search := search options; list_limit := None;
     startAfter := startAfter options |}.

Section LimitZero.
Context {Schema Sharp : Type}.
Variable JSON_parse : string -> option value.
Variable doesMatchFilter : value -> value -> bool.
Variable Date_getTime : string -> option Z.
Variable localeCompare : string -> string -> Z.
Variable sharp : string -> option Sharp.
Variable sharp_metadata : Sharp -> option (option Z * option Z).

Implicit Types (api : LocalApi Schema) (fs : FS).

Local Abbreviation getEntries :=
  (getEntries JSON_parse doesMatchFilter Date_getTime localeCompare).
Local Abbreviation listAssets := (listAssets sharp sharp_metadata).

(** C10. getEntries honours a limit of 0: a call that returns has no
    entry and reports the limit 0 (an absent limit is reported as 1000),
    and the call returns whenever the collection resolves and its entry
    files can be read. listAssets applies its limit only when it is
    truthy: with a limit of 0 it returns what it returns without a
    limit, every asset that the search and the cursor leave. *)
Theorem limit_zero api fs ref col eoptions loptions :
  (∀ r, getEntries api fs ref eoptions = Ok r →
        limit r = default 1000 (opt_limit eoptions)
        ∧ (opt_limit eoptions = Some 0 → entries r = [] ∧ limit r = 0))
  ∧ (getCollectionRef api ref = Ok col →
     (∀ files, fs_readdir fs (entry_dir api col) = Some files →
        ∃ stored,
          result_map (readEntryFile JSON_parse fs (entry_dir api col))
            (List.filter (string_endsWith ".json") files) = Ok stored) →
     opt_limit eoptions = Some 0 →
     ∃ r, getEntries api fs ref eoptions = Ok r ∧ entries r = [])
  ∧ (list_limit loptions = Some 0 →
     listAssets api fs loptions = listAssets api fs (without_limit loptions)
     ∧ ∀ files, fs_readdir fs (getAssetDir api) = Some files →
         map key (listAssets api fs loptions)
         = cutAfter loptions (searchFiles loptions files)).
Proof.
  split; [|split].
  - intros r Hget.
    destruct (getEntries_limit _ _ _ _ _ _ _ _ _ Hget) as (Hl & H0 & _).
    split; [done|]. intros Hz. split; [by apply H0|].
    by rewrite Hl, Hz.
  - intros Hcol Hread Hz.
    destruct (fs_readdir fs (entry_dir api col)) as [files|] eqn:Hdir.
    + destruct (Hread files eq_refl) as [stored Hstored].
      rewrite (getEntries_resolved _ _ _ _ _ _ _ _ _ _ _ Hcol Hdir Hstored).
      assert (Hp : paginate eoptions
                     (applyFilters doesMatchFilter eoptions stored) = []).
      { unfold paginate. rewrite Hz. apply (js_slice_0_0 _). }
      rewrite Hp. unfold sortEntries. rewrite result_fold_sort_pass_nil.
      simpl. unfold includeEntries.
      destruct (_ =? _)%nat; simpl; by eexists.
    + rewrite (getEntries_missing_dir _ _ _ _ _ _ _ _ _ Hcol Hdir).
      by eexists.
  - intros Hz. split.
    + unfold listAssets.
      destruct (fs_readdir fs (getAssetDir api)) as [files|]; [|done].
      unfold limitFiles. rewrite Hz. done.
    + intros files Hdir.
      rewrite (listAssets_keys _ _ _ _ _ _ Hdir).
      by apply limitFiles_zero.
Qed.
End LimitZero.

(** * Further properties of the class *)

(** ** The registry: constructor, setConfig and the listings *)

Section RegistryProperties.
Context {Schema : Type}.
Implicit Types (cols : list (Collection Schema)) (globs : list (Global Schema)).

(* the last declaration of the name [n] in a list of declarations *)
Definition last_named (n : string) cols : option (Collection Schema) :=
  last (List.filter (fun c => String.eqb (name c) n) cols).

Definition last_named_global (n : string) globs : option (Global Schema) :=
  last (List.filter (fun g => String.eqb (global_name g) n) globs).

Lemma collection_map_lookup cols n :
  collection_map cols !! n = last_named n cols.
Proof.
  unfold collection_map, last_named.
  induction cols as [|c cols IH] using rev_ind; [done|].
  rewrite foldl_app, List.filter_app. simpl.
  destruct (String.eqb (name c) n) eqn:E.
  - apply String.eqb_eq in E. subst n. by rewrite lookup_insert_eq, last_snoc.
  - apply String.eqb_neq in E. rewrite lookup_insert_ne by done.
    by rewrite app_nil_r.
Qed.

Lemma global_map_lookup globs n :
  global_map globs !! n = last_named_global n globs.
Proof.
  unfold global_map, last_named_global.
  induction globs as [|g globs IH] using rev_ind; [done|].
  rewrite foldl_app, List.filter_app. simpl.
  destruct (String.eqb (global_name g) n) eqn:E.
  - apply String.eqb_eq in E. subst n. by rewrite lookup_insert_eq, last_snoc.
  - apply String.eqb_neq in E. rewrite lookup_insert_ne by done.
    by rewrite app_nil_r.
Qed.

Lemma last_filter_holds {A} (p : A → bool) (l : list A) x :
  last (List.filter p l) = Some x → p x = true ∧ x ∈ l.
Proof.
  intros H. apply last_Some_elem_of in H.
  apply list_elem_of_In, filter_In in H as [H1 H2].
  split; [done|]. by apply list_elem_of_In.
Qed.

(** X1. The registry built by the constructor, and rebuilt by
    setConfig, maps a name to the last declaration of that name in the
    list it was given: a lookup by name returns that declaration and
    raises the not-found error when the list declares no such name.
    setConfig keeps nothing of the registry it replaces and leaves the
    content directory as it is. *)
Theorem registry_last_declaration_wins cols globs dir
    (api : LocalApi Schema) n :
  getCollection (new_LocalApi cols globs dir) (RefName n)
  = match last_named n cols with
    | Some c => Ok c
    | None => Throw (collection_not_found n)
    end
  ∧ getGlobal (new_LocalApi cols globs dir) (GlobalName n)
    = match last_named_global n globs with
      | Some g => Ok g
      | None => Throw (global_not_found n)
      end
  ∧ getCollection (setConfig api cols globs) (RefName n)
    = getCollection (new_LocalApi cols globs dir) (RefName n)
  ∧ getGlobal (setConfig api cols globs) (GlobalName n)
    = getGlobal (new_LocalApi cols globs dir) (GlobalName n)
  ∧ contentDir (setConfig api cols globs) = contentDir api.
Proof.
  unfold getCollection, getGlobal, getCollectionRef, getGlobalRef. simpl.
  rewrite collection_map_lookup, global_map_lookup.
  repeat split.
Qed.

(** X2. getCollections and getGlobals of a registry built by the
    constructor list every declared name once: the declarations
    returned are the last declarations of their names, and no two of
    them have the same name. *)
Theorem getCollections_one_per_name cols globs dir :
  NoDup (map name (getCollections (new_LocalApi cols globs dir)))
  ∧ (∀ c, c ∈ getCollections (new_LocalApi cols globs dir)
          ↔ last_named (name c) cols = Some c)
  ∧ NoDup (map global_name (getGlobals (new_LocalApi cols globs dir)))
  ∧ (∀ g, g ∈ getGlobals (new_LocalApi cols globs dir)
          ↔ last_named_global (global_name g) globs = Some g).
Proof.
  unfold getCollections, _getCollections, getGlobals, _getGlobals. simpl.
  assert (Hc : ∀ k c, collection_map cols !! k = Some c → name c = k).
  { intros k c. rewrite collection_map_lookup. intros H.
    apply last_filter_holds in H as [H _]. by apply String.eqb_eq in H. }
  assert (Hg : ∀ k g, global_map globs !! k = Some g → global_name g = k).
  { intros k g. rewrite global_map_lookup. intros H.
    apply last_filter_holds in H as [H _]. by apply String.eqb_eq in H. }
  split; [|split; [|split]].
  - rewrite <- list_fmap_compose.
    erewrite (map_ext_in (name ∘ snd) fst).
    + apply NoDup_fst_map_to_list.
    + intros [k c] H%list_elem_of_In. apply elem_of_map_to_list in H.
      simpl. by apply Hc.
  - intros c. rewrite list_elem_of_fmap. split.
    + intros ([k c'] & -> & H). apply elem_of_map_to_list in H. simpl.
      rewrite <- collection_map_lookup. by rewrite (Hc _ _ H).
    + intros H. exists (name c, c). split; [done|].
      apply elem_of_map_to_list. by rewrite collection_map_lookup.
  - rewrite <- list_fmap_compose.
    erewrite (map_ext_in (global_name ∘ snd) fst).
    + apply NoDup_fst_map_to_list.
    + intros [k g] H%list_elem_of_In. apply elem_of_map_to_list in H.
      simpl. by apply Hg.
  - intros g. rewrite list_elem_of_fmap. split.
    + intros ([k g'] & -> & H). apply elem_of_map_to_list in H. simpl.
      rewrite <- global_map_lookup. by rewrite (Hg _ _ H).
    + intros H. exists (global_name g, g). split; [done|].
      apply elem_of_map_to_list. by rewrite global_map_lookup.
Qed.
End RegistryProperties.

(** ** Files, paths and listings *)

(* A directory holds one file per name. *)
Definition fs_wf (fs : FS) : Prop :=
  map_Forall (fun _ (l : listing) => NoDup l.*1) fs.

Lemma assoc_get_remove_eq {A} k (l : list (string * A)) :
  NoDup l.*1 → assoc_get k (assoc_remove k l) = None.
Proof.
  induction l as [|[k' v'] l IH]; simpl; [done|].
  intros [Hk Hl]%NoDup_cons.
  destruct (String.eqb k k') eqn:E.
  - apply String.eqb_eq in E. subst k'. by apply assoc_get_None_not_elem.
  - simpl. rewrite E. by apply IH.
Qed.

Lemma assoc_get_remove_ne {A} k k' (l : list (string * A)) :
  k ≠ k' → assoc_get k' (assoc_remove k l) = assoc_get k' l.
Proof.
  intros Hne. induction l as [|[k0 v0] l IH]; simpl; [done|].
  destruct (String.eqb k k0) eqn:E.
  - apply String.eqb_eq in E. subst k0.
    destruct (String.eqb k' k) eqn:E'; [|done].
    apply String.eqb_eq in E'. congruence.
  - simpl. by rewrite IH.
Qed.

Lemma assoc_remove_absent {A} k (l : list (string * A)) :
  assoc_get k l = None → assoc_remove k l = l.
Proof.
  induction l as [|[k' v'] l IH]; simpl; [done|].
  destruct (String.eqb k k'); [done|]. intros H. by rewrite IH.
Qed.

(* fs.unlink removes the file it names and no other; it fails, and
   changes nothing, when there is no such file. *)
Lemma fs_unlink_Some (fs fs' : FS) dir file :
  fs_wf fs → fs_unlink fs dir file = Some fs' →
  fs_access fs dir file = true
  ∧ fs_readFile fs' dir file = None
  ∧ (∀ d f, (d, f) ≠ (dir, file) → fs_readFile fs' d f = fs_readFile fs d f).
Proof.
  intros Hwf. unfold fs_unlink, fs_access, fs_readFile.
  destruct (fs !! dir) as [l|] eqn:El; simpl; [|done].
  destruct (assoc_get file l) eqn:Ef; [|done].
  intros [= <-]. split; [done|]. split.
  - rewrite lookup_insert_eq. simpl. apply assoc_get_remove_eq.
    by apply (Hwf dir).
  - intros d f Hne. destruct (decide (dir = d)) as [->|Hd].
    + rewrite lookup_insert_eq, El. simpl. apply assoc_get_remove_ne. congruence.
    + by rewrite lookup_insert_ne.
Qed.

Lemma fs_unlink_None (fs : FS) dir file :
  fs_unlink fs dir file = None ↔ fs_access fs dir file = false.
Proof.
  unfold fs_unlink, fs_access, fs_readFile.
  destruct (fs !! dir) as [l|]; simpl; [|done].
  by destruct (assoc_get file l).
Qed.

Lemma path_join_inj a b b' : path_join a b = path_join a b' → b = b'.
Proof.
  unfold path_join. intros H. apply (inj (String.app _)) in H.
  by injection H.
Qed.

Lemma string_endsWith_app suffix s : string_endsWith suffix (s +:+ suffix) = true.
Proof.
  induction s as [|c s IH].
  - destruct suffix; simpl; [done|]. by rewrite Ascii.eqb_refl, String.eqb_refl.
  - rewrite string_app_cons. cbn [string_endsWith].
    destruct (String.eqb suffix _); [done|exact IH].
Qed.

Lemma result_map_Throw {A B} (f : A → result B) (l : list A) x e :
  x ∈ l → f x = Throw e → ∃ e', result_map f l = Throw e'.
Proof.
  intros Hx Hf. induction l as [|y l IH]; [by apply elem_of_nil in Hx|].
  apply elem_of_cons in Hx as [<-|Hx]; simpl.
  - rewrite Hf. by eexists.
  - destruct (f y); simpl; [|by eexists].
    destruct (IH Hx) as [e' ->]. by eexists.
Qed.

Lemma result_map_length {A B} (f : A → result B) (l : list A) l' :
  result_map f l = Ok l' → length l' = length l.
Proof.
  intros H%result_map_Forall2. symmetry. by eapply Forall2_length.
Qed.

Lemma filter_length_le {A} (p : A → bool) (l : list A) :
  (length (List.filter p l) ≤ length l)%nat.
Proof. induction l as [|x l IH]; simpl; [done|]. destruct (p x); simpl; lia. Qed.

(** ** Entry store: reading, writing and deleting *)

Section EntryStoreMore.
Context {Schema JsonSchema AjvFormats AjvError : Type}.
Variable JSON_stringify : value -> string.
Variable JSON_parse : string -> option value.
Variable convertZodSchema : Schema -> gmap string Schema -> JsonSchema.
Variable ajvFormats : list string -> AjvFormats.
Variable ajv_validate : AjvFormats -> JsonSchema -> value -> bool * list AjvError.
Variable ajv_errorsText : list AjvError -> string.
Variable doesMatchFilter : value -> value -> bool.
Variable Date_getTime : string -> option Z.
Variable localeCompare : string -> string -> Z.

Implicit Types (api : LocalApi Schema) (fs : FS).

Local Abbreviation getEntry := (getEntry JSON_parse).
Local Abbreviation readEntry := (readEntry JSON_parse).
Local Abbreviation readEntryFile := (readEntryFile JSON_parse).
Local Abbreviation validateEntry :=
  (validateEntry convertZodSchema ajvFormats ajv_validate).
Local Abbreviation setEntry :=
  (setEntry JSON_stringify convertZodSchema ajvFormats ajv_validate
     ajv_errorsText).
Local Abbreviation getEntries :=
  (getEntries JSON_parse doesMatchFilter Date_getTime localeCompare).

(* The entry is read from the file that the collection and the id name. *)
Lemma readEntry_file api fs (col : Collection Schema) id :
  readEntry api fs (Some (name col)) id
  = readEntryFile fs (entry_dir api col) (entry_file_name id).
Proof. reflexivity. Qed.

(* getEntry without include, once the collection is resolved. *)
Lemma getEntry_resolved api fs ref col id :
  getCollectionRef api ref = Ok col →
  getEntry api fs ref id None
  = Ok (try_catch (readEntryFile fs (entry_dir api col) (entry_file_name id))
          VNull).
Proof.
  intros Hcol. unfold getEntry. rewrite Hcol. simpl.
  rewrite readEntry_file.
  destruct (readEntryFile _ _ _) as [entry|]; simpl; [|done].
  by rewrite andb_false_r.
Qed.

(* A write that succeeded: the payload was valid and its envelope is
   the content of the file of the entry. *)
Lemma setEntry_Ok_inv api fs ref col id e fs' :
  getCollectionRef api ref = Ok col →
  setEntry api fs ref id e = (Ok tt, fs') →
  (validateEntry api col e).1 = true
  ∧ fs_writeFile (fs_mkdir (entry_dir api col) fs) (entry_dir api col)
      (entry_file_name id) (JSON_stringify (envelope e)) = Some fs'.
Proof.
  intros Hcol. rewrite (setEntry_resolved _ _ _ _ _ _ _ _ _ _ _ Hcol). simpl.
  destruct (validateEntry api col e).1; [|done].
  destruct (fs_writeFile _ _ _ _) as [fs1|]; [|done].
  by intros [= <-].
Qed.

Lemma readEntryFile_written (fs fs' : FS) dir file e :
  fs_writeFile fs dir file (JSON_stringify (envelope e)) = Some fs' →
  JSON_parse (JSON_stringify (envelope e)) = Some (envelope e) →
  readEntryFile fs' dir file = Ok e.
Proof.
  intros Hw Hjson. unfold readEntryFile.
  rewrite (fs_readFile_write_eq _ _ _ _ _ Hw). simpl. rewrite Hjson. done.
Qed.

(** X3. getEntry never raises for an entry it cannot read: when the
    collection resolves and the file of the entry (under a
    filename-safe id) does not exist, or its text is not JSON, or the
    JSON document is null, the call returns null, with and without
    include. *)
Theorem getEntry_unreadable_null api fs ref col id include :
  getCollectionRef api ref = Ok col →
  flat_name (js_to_string id) = true →
  (fs_readFile fs (entry_dir api col) (entry_file_name id) = None
   ∨ ∃ content,
       fs_readFile fs (entry_dir api col) (entry_file_name id) = Some content
       ∧ (JSON_parse content = None ∨ JSON_parse content = Some VNull)) →
  getEntry api fs ref id include = Ok VNull.
Proof.
  intros Hcol _ Hfile. unfold getEntry. rewrite Hcol. simpl.
  rewrite readEntry_file. unfold readEntryFile.
  destruct Hfile as [Hf|(content & Hf & [Hp|Hp])];
    rewrite Hf; simpl; rewrite ?Hp; done.
Qed.

(** X4. A write changes one entry only. After setEntry has stored an
    entry, getEntry (without include) returns for every other entry,
    of the same or of another collection, what it returned before, and
    getEntries (without include) on another collection returns what it
    returned before. Collection names are single path segments and the
    id written and the id read are filename-safe, so that different
    names are different files. *)
Theorem setEntry_other_entries api fs ref col id e fs' ref' col' id' options :
  getCollectionRef api ref = Ok col →
  flat_name (js_to_string id) = true →
  setEntry api fs ref id e = (Ok tt, fs') →
  getCollectionRef api ref' = Ok col' →
  plain_name (name col) = true →
  plain_name (name col') = true →
  flat_name (js_to_string id') = true →
  (name col', js_to_string id') ≠ (name col, js_to_string id) →
  getEntry api fs' ref' id' None = getEntry api fs ref' id' None
  ∧ (name col' ≠ name col → opt_include options = None →
     getEntries api fs' ref' options = getEntries api fs ref' options).
Proof.
  intros Hcol _ Hset Hcol' _ _ _ Hne.
  destruct (setEntry_Ok_inv _ _ _ _ _ _ _ Hcol Hset) as [_ Hw].
  assert (Hread : ∀ d f, (d, f) ≠ (entry_dir api col, entry_file_name id) →
            fs_readFile fs' d f = fs_readFile fs d f).
  { intros d f Hdf. rewrite (fs_readFile_write_ne _ _ _ _ _ d f Hw Hdf).
    apply fs_mkdir_readFile. }
  split.
  - rewrite !(getEntry_resolved _ _ _ _ _ Hcol'). unfold readEntryFile.
    rewrite Hread; [done|].
    intros [= Hd Hf]. apply Hne.
    apply path_join_inj in Hd. apply string_app_inv_tail in Hf. congruence.
  - intros Hname Hinc.
    assert (Hdir : entry_dir api col' ≠ entry_dir api col).
    { intros Hd. by apply path_join_inj in Hd. }
    assert (Hls : fs' !! entry_dir api col' = fs !! entry_dir api col').
    { revert Hw. unfold fs_writeFile.
      destruct (flat_name _); [|done].
      destruct (fs_mkdir _ _ !! _) as [l|]; [|done]. intros [= <-].
      rewrite lookup_insert_ne by done. by apply fs_mkdir_lookup_ne. }
    unfold getEntries. rewrite Hcol'. simpl.
    fold (entry_dir api col'). unfold fs_readdir. rewrite Hls.
    destruct (fs !! entry_dir api col') as [l|]; simpl; [|done].
    assert (Hmap : ∀ files,
              result_map (readEntryFile fs' (entry_dir api col')) files
              = result_map (readEntryFile fs (entry_dir api col')) files).
    { induction files as [|f files IH]; simpl; [done|].
      rewrite IH. unfold readEntryFile. rewrite Hread; [done|]. congruence. }
    rewrite Hmap.
    destruct (result_map _ _) as [stored|]; simpl; [|done].
    destruct (sortEntries _ _ _ _) as [sorted|]; simpl; [|done].
    unfold includeEntries. by rewrite Hinc.
Qed.

(** X5. deleteEntry (under a filename-safe id) returns true exactly
    when the file of the entry existed. After the call the entry is
    gone (getEntry returns null) and every other file of the store has
    the content it had; when the call returns false the store is the
    one it was given. *)
Theorem deleteEntry_spec api fs ref col id :
  getCollectionRef api ref = Ok col →
  fs_wf fs →
  flat_name (js_to_string id) = true →
  ∃ fs', deleteEntry api fs ref id
         = (Ok (fs_access fs (entry_dir api col) (entry_file_name id)), fs')
    ∧ (∀ include, getEntry api fs' ref id include = Ok VNull)
    ∧ (∀ d f, (d, f) ≠ (entry_dir api col, entry_file_name id) →
         fs_readFile fs' d f = fs_readFile fs d f)
    ∧ (fs_access fs (entry_dir api col) (entry_file_name id) = false →
       fs' = fs).
Proof.
  intros Hcol Hwf _. unfold deleteEntry. rewrite Hcol.
  fold (entry_dir api col). fold (entry_file_name id).
  destruct (fs_unlink fs (entry_dir api col) (entry_file_name id))
    as [fs'|] eqn:Hu.
  - destruct (fs_unlink_Some _ _ _ _ Hwf Hu) as (Hacc & Hgone & Hrest).
    exists fs'. rewrite Hacc. split; [done|]. split; [|split; [done|done]].
    intros include. unfold getEntry. rewrite Hcol. simpl.
    rewrite readEntry_file. unfold readEntryFile. by rewrite Hgone.
  - apply fs_unlink_None in Hu. exists fs. rewrite Hu.
    split; [done|]. split; [|split; [done|done]].
    intros include. unfold getEntry. rewrite Hcol. simpl.
    rewrite readEntry_file. unfold readEntryFile.
    apply fs_access_false in Hu. by rewrite Hu.
Qed.

(** X6. An entry stored by setEntry under a filename-safe id is listed
    by getEntries: a call without options on the collection returns the
    entry among its entries, as long as the directory of the collection
    holds no more files than the default limit of 1000. The JSON text
    of the envelope is assumed to parse back to the envelope. *)
Theorem setEntry_getEntries_lists_entry api fs ref col id e fs' r :
  getCollectionRef api ref = Ok col →
  flat_name (js_to_string id) = true →
  setEntry api fs ref id e = (Ok tt, fs') →
  JSON_parse (JSON_stringify (envelope e)) = Some (envelope e) →
  (length (default [] (fs' !! entry_dir api col)) ≤ 1000)%nat →
  getEntries api fs' ref no_options = Ok r →
  e ∈ entries r.
Proof.
  intros Hcol _ Hset Hjson Hlen Hget.
  destruct (setEntry_Ok_inv _ _ _ _ _ _ _ Hcol Hset) as [_ Hw].
  pose proof (readEntryFile_written _ _ _ _ _ Hw Hjson) as Hread.
  pose proof (fs_readFile_write_eq _ _ _ _ _ Hw) as Hfile.
  destruct (getEntries_Ok_inv _ _ _ _ _ _ _ _ _ Hget) as (col0 & Hcol0 & Hinv).
  rewrite Hcol in Hcol0. injection Hcol0 as <-.
  unfold fs_readdir in Hinv. unfold fs_readFile in Hfile.
  destruct (fs' !! entry_dir api col) as [l|] eqn:El; [|done].
  simpl in Hinv, Hfile, Hlen.
  destruct Hinv as (stored & sorted & Hstored & Hsort & Hinc & _).
  injection Hsort as <-. injection Hinc as <-.
  unfold paginate, applyFilters. simpl.
  pose proof (result_map_length _ _ _ Hstored) as Hls.
  pose proof (filter_length_le (string_endsWith ".json") (map fst l)) as Hlf.
  rewrite length_map in Hlf.
  rewrite js_slice_take by lia. rewrite take_ge by lia.
  apply result_map_Forall2 in Hstored.
  destruct (Forall2_elem_l _ _ _ (entry_file_name id) Hstored) as (y & Hy & Hr).
  { apply list_elem_of_In, filter_In. split.
    - apply list_elem_of_In. by eapply assoc_get_Some_elem.
    - apply string_endsWith_app. }
  rewrite Hread in Hr. by injection Hr as <-.
Qed.

(** X7. One unreadable file fails the whole listing: when the
    directory of the collection holds a file whose name ends in .json
    and whose text is not JSON, getEntries raises, whatever the
    options. (getEntry on the same file returns null.) *)
Theorem getEntries_corrupt_file_raises api fs ref col options file content :
  getCollectionRef api ref = Ok col →
  fs_readFile fs (entry_dir api col) file = Some content →
  string_endsWith ".json" file = true →
  JSON_parse content = None →
  ∃ e, getEntries api fs ref options = Throw e.
Proof.
  intros Hcol Hfile Hjson Hparse.
  unfold getEntries. rewrite Hcol. simpl. fold (entry_dir api col).
  unfold fs_readdir. unfold fs_readFile in Hfile.
  destruct (fs !! entry_dir api col) as [l|] eqn:El; [|done]. simpl in *.
  destruct (result_map_Throw (readEntryFile fs (entry_dir api col))
              (List.filter (string_endsWith ".json") (map fst l))
              file SyntaxError) as [e' ->].
  - apply list_elem_of_In, filter_In. split; [|done].
    apply list_elem_of_In. by eapply assoc_get_Some_elem.
  - unfold readEntryFile, fs_readFile. rewrite El. simpl.
    rewrite Hfile. simpl. by rewrite Hparse.
  - by eexists.
Qed.

(** X8. getEntry with include attaches the referenced entry: when the
    field of the entry is an object with a truthy id and the name of a
    registered collection, the call returns the entry with the field's
    property [entry] set to what getEntry returns for that collection
    and id (the referenced entry, or null when it cannot be read). *)
Theorem getEntry_include_attaches api fs ref col id fields include rf target
    tcol :
  getCollectionRef api ref = Ok col →
  readEntry api fs (Some (name col)) id = Ok (VObj fields) →
  assoc_get include fields = Some (VObj rf) →
  truthy (prop (VObj rf) "id") = true →
  prop (VObj rf) "collection" = VStr target →
  target ≠ "" →
  collections api !! target = Some tcol →
  ∃ other,
    getEntry api fs (RefName target) (prop (VObj rf) "id") None = Ok other
    ∧ getEntry api fs ref id (Some [include])
      = Ok (VObj (assoc_set include (VObj (assoc_set "entry" other rf))
                    fields)).
Proof.
  intros Hcol Hread Hfield Hid Htarget Hne Htcol.
  assert (Hreg : getCollectionRef api (RefName target) = Ok tcol).
  { unfold getCollectionRef. by rewrite Htcol. }
  rewrite (getEntry_resolved _ _ _ _ _ Hreg).
  eexists. split; [reflexivity|].
  unfold getEntry. rewrite Hcol. simpl. rewrite Hread. simpl.
  unfold resolveInclude, js_get. simpl. rewrite Hfield. simpl.
  unfold opt_get. simpl.
  change (default VUndefined (assoc_get "id" rf)) with (prop (VObj rf) "id").
  change (default VUndefined (assoc_get "collection" rf))
    with (prop (VObj rf) "collection").
  rewrite Hid, Htarget. simpl.
  apply String.eqb_neq in Hne. rewrite Hne. simpl.
  rewrite Htcol. simpl. by rewrite readEntry_file.
Qed.
End EntryStoreMore.

(** ** Query engine: pages *)

Lemma js_slice_length_le {A} a b (l : list A) :
  (length (js_slice a b l) ≤ length l)%nat.
Proof. unfold js_slice. rewrite length_take, length_drop. lia. Qed.

(* A permutation of the arguments of a map that can fail permutes its
   results. *)
Lemma result_map_perm {A B} (f : A → result B) (l l' : list A) a :
  l ≡ₚ l' → result_map f l = Ok a →
  ∃ b, result_map f l' = Ok b ∧ a ≡ₚ b.
Proof.
  intros Hp. revert a. induction Hp as [|x l l' Hp IH|x y l|l1 l2 l3 H12 IH12 H23 IH23];
    intros a; simpl.
  - intros [= <-]. by exists [].
  - destruct (f x) as [u|]; simpl; [|done].
    destruct (result_map f l) as [us|]; simpl; [|done].
    intros [= <-]. destruct (IH us eq_refl) as (b & -> & Hb). simpl.
    exists (u :: b). split; [done|]. by constructor.
  - destruct (f y) as [u|]; simpl; [|done].
    destruct (f x) as [v|]; simpl; [|done].
    destruct (result_map f l) as [us|]; simpl; [|done].
    intros [= <-]. exists (v :: u :: us). split; [done|]. constructor.
  - intros H1. destruct (IH12 a H1) as (b & H2 & Hab).
    destruct (IH23 b H2) as (c & H3 & Hbc).
    exists c. split; [done|]. by etrans.
Qed.

(* the options of a page: entries o, o+1, ..., o+n-1 of the entries
   that match the filters *)
Definition page (filters : option value) (o n : Z) : EntriesOptions :=
  {| opt_includeCount := false; opt_include := None; opt_limit := Some n;
     opt_offset := Some o; opt_filters := filters; opt_sort := None |}.

Section PageProperties.
Context {Schema : Type}.
Variable JSON_parse : string -> option value.
Variable doesMatchFilter : value -> value -> bool.
Variable Date_getTime : string -> option Z.
Variable localeCompare : string -> string -> Z.

Implicit Types (api : LocalApi Schema) (fs : FS).

Local Abbreviation getEntries :=
  (getEntries JSON_parse doesMatchFilter Date_getTime localeCompare).
Local Abbreviation sortEntries := (sortEntries Date_getTime localeCompare).
Local Abbreviation includeEntries := (includeEntries JSON_parse).
Local Abbreviation applyFilters := (applyFilters doesMatchFilter).
Local Abbreviation resolveIncludes := (resolveIncludes JSON_parse).

Lemma paginate_page filters o n (l : list value) :
  0 ≤ o → 0 ≤ n →
  paginate (page filters o n) l = take (Z.to_nat n) (drop (Z.to_nat o) l).
Proof.
  intros Ho Hn. unfold paginate. simpl.
  rewrite js_slice_take by done. f_equal.
  destruct (o =? 0) eqn:E.
  - apply Z.eqb_eq in E. by subst o.
  - rewrite <- (Z2Nat.id o) at 1 by done. apply js_slice_drop.
Qed.

Lemma paginate_length_le options (l : list value) :
  (length (paginate options l) ≤ length l)%nat.
Proof.
  unfold paginate. etrans; [apply js_slice_length_le|].
  destruct (opt_offset options) as [o|]; [|done].
  destruct (o =? 0); [done|apply js_slice_length_le].
Qed.

Lemma includeEntries_length api fs options (l l' : list value) :
  includeEntries api fs options l = Ok l' → length l' = length l.
Proof. rewrite includeEntries_map. apply result_map_length. Qed.

(** X9. The size of a page. With a limit that is not negative,
    getEntries returns at most [limit] entries (1000 when no limit is
    given), and never more entries than the count it reports. *)
Theorem getEntries_page_bounds api fs ref options r :
  getEntries api fs ref options = Ok r →
  0 ≤ limit r →
  (length (entries r) ≤ Z.to_nat (limit r))%nat
  ∧ (∀ c, count r = Some c → Z.of_nat (length (entries r)) ≤ c).
Proof.
  intros Hget Hlimit.
  destruct (getEntries_Ok_inv _ _ _ _ _ _ _ _ _ Hget) as (col & Hcol & Hinv).
  destruct (fs_readdir fs (entry_dir api col)) as [files|].
  2: { subst r. simpl. split; [lia|done]. }
  destruct Hinv as (stored & sorted & _ & Hs & Hi & Hl & _ & Hc).
  apply includeEntries_length in Hi.
  apply result_fold_sort_pass_perm, Permutation_length in Hs.
  rewrite Hi, Hs. split.
  - rewrite Hl in *. unfold paginate. by apply js_slice_0_length.
  - intros c. rewrite Hc. destruct (opt_includeCount options); [|done].
    intros [= <-]. apply inj_le, paginate_length_le.
Qed.

(** X10. Pages fit together. Without sort and include, the page of
    n + m entries at offset o is the page of n entries at offset o
    followed by the page of m entries at offset o + n: successive pages
    neither overlap nor skip an entry. *)
Theorem getEntries_pages_concat api fs ref filters o n m r :
  0 ≤ o → 0 ≤ n → 0 ≤ m →
  getEntries api fs ref (page filters o (n + m)) = Ok r →
  ∃ r1 r2,
    getEntries api fs ref (page filters o n) = Ok r1
    ∧ getEntries api fs ref (page filters (o + n) m) = Ok r2
    ∧ entries r = (entries r1 ++ entries r2)%list.
Proof.
  intros Ho Hn Hm Hget.
  destruct (getEntries_Ok_inv _ _ _ _ _ _ _ _ _ Hget) as (col & Hcol & Hinv).
  destruct (fs_readdir fs (entry_dir api col)) as [files|] eqn:Hdir.
  2: { rewrite !(getEntries_missing_dir _ _ _ _ _ _ _ _ _ Hcol Hdir).
       subst r. by do 2 eexists. }
  destruct Hinv as (stored & sorted & Hread & Hs & Hi & _).
  injection Hs as <-. injection Hi as <-.
  rewrite !(getEntries_resolved _ _ _ _ _ _ _ _ _ _ _ Hcol Hdir Hread).
  do 2 eexists. split; [reflexivity|]. split; [reflexivity|]. simpl.
  change (applyFilters (page filters ?a ?b) stored)
    with (applyFilters (page filters o n) stored).
  rewrite !paginate_page by lia.
  rewrite Z2Nat.inj_add by done. rewrite (Z2Nat.inj_add o n) by done.
  rewrite <- drop_drop. by rewrite take_take_drop.
Qed.

(** X11. The sort orders the page, it does not choose it: offset and
    limit are applied before the sort, so the entries of a call with
    sort are the entries of the same call without sort in another
    order, with the same limit, offset and count. *)
Theorem getEntries_sort_within_page api fs ref options r :
  getEntries api fs ref options = Ok r →
  ∃ r0, getEntries api fs ref (without_sort options) = Ok r0
        ∧ entries r ≡ₚ entries r0
        ∧ limit r = limit r0 ∧ offset r = offset r0 ∧ count r = count r0.
Proof.
  intros Hget.
  destruct (getEntries_Ok_inv _ _ _ _ _ _ _ _ _ Hget) as (col & Hcol & Hinv).
  destruct (fs_readdir fs (entry_dir api col)) as [files|] eqn:Hdir.
  2: { rewrite (getEntries_missing_dir _ _ _ _ _ _ _ _ _ Hcol Hdir).
       subst r. by eexists. }
  destruct Hinv as (stored & sorted & Hread & Hs & Hi & Hl & Ho & Hc).
  apply result_fold_sort_pass_perm in Hs.
  rewrite includeEntries_map in Hi.
  destruct (result_map_perm _ _ _ _ Hs Hi) as (b & Hb & Hperm).
  rewrite (getEntries_without_sort _ _ _ _ _ _ _ _ _ _ _ Hcol Hdir Hread).
  rewrite Hb. simpl. eexists. split; [reflexivity|]. simpl. done.
Qed.

(** X12. What getEntries returns is in the store and passes the
    filter: without include, every entry of the result is the entry of
    a file of the directory of the collection whose name ends in
    .json, and matches the filters when filters are given. *)
Theorem getEntries_returns_stored_matching api fs ref col options r e :
  getCollectionRef api ref = Ok col →
  opt_include options = None →
  getEntries api fs ref options = Ok r →
  e ∈ entries r →
  (∃ file, file ∈ default [] (fs_readdir fs (entry_dir api col))
           ∧ string_endsWith ".json" file = true
           ∧ readEntryFile JSON_parse fs (entry_dir api col) file = Ok e)
  ∧ (∀ filters, opt_filters options = Some filters → truthy filters = true →
       doesMatchFilter e filters = true).
Proof.
  intros Hcol Hinc Hget He.
  destruct (getEntries_Ok_inv _ _ _ _ _ _ _ _ _ Hget) as (col0 & Hcol0 & Hinv).
  rewrite Hcol in Hcol0. injection Hcol0 as <-.
  destruct (fs_readdir fs (entry_dir api col)) as [files|].
  2: { subst r. by apply elem_of_nil in He. }
  destruct Hinv as (stored & sorted & Hread & Hs & Hi & _).
  unfold includeEntries in Hi. rewrite Hinc in Hi. injection Hi as Hi.
  apply result_fold_sort_pass_perm in Hs. rewrite <- Hi, Hs in He.
  assert (Hin : e ∈ applyFilters options stored).
  { revert He. unfold paginate. intros He%js_slice_subseteq.
    destruct (opt_offset options) as [o|]; [|done].
    destruct (o =? 0); [done|]. by apply js_slice_subseteq in He. }
  clear He. split.
  - assert (Hst : e ∈ stored).
    { revert Hin. unfold applyFilters.
      destruct (opt_filters options) as [f|]; [|done].
      destruct (truthy f); [|done].
      intros H%list_elem_of_In%filter_In. apply list_elem_of_In. tauto. }
    apply result_map_Forall2 in Hread.
    apply list_elem_of_lookup in Hst as [i Hst].
    destruct (Forall2_lookup_r _ _ _ _ _ Hread Hst) as (file & Hf & Hr).
    apply list_elem_of_lookup_2, list_elem_of_In, filter_In in Hf as [Hf1 Hf2].
    exists file. split; [by apply list_elem_of_In|done].
  - intros filters Hf Ht. revert Hin. unfold applyFilters. rewrite Hf, Ht.
    intros H%list_elem_of_In%filter_In. tauto.
Qed.
End PageProperties.

(** ** Global store *)

Section GlobalStoreProperties.
Context {Schema JsonSchema AjvFormats AjvError : Type}.
Variable JSON_stringify : value -> string.
Variable JSON_parse : string -> option value.
Variable convertZodSchema : Schema -> gmap string Schema -> JsonSchema.
Variable ajvFormats : list string -> AjvFormats.
Variable ajv_validate : AjvFormats -> JsonSchema -> value -> bool * list AjvError.
Variable ajv_errorsText : list AjvError -> string.
Variable zod_parse : Schema -> value -> result value.

Implicit Types (api : LocalApi Schema) (fs : FS).

Local Abbreviation setEntry :=
  (setEntry JSON_stringify convertZodSchema ajvFormats ajv_validate
     ajv_errorsText).
Local Abbreviation _getGlobalValue := (_getGlobalValue JSON_parse).
Local Abbreviation getGlobalValue := (getGlobalValue JSON_parse).
Local Abbreviation getGlobalValues := (getGlobalValues JSON_parse).
Local Abbreviation setGlobalValue := (setGlobalValue JSON_stringify zod_parse).

Definition globals_dir api : string := path_join (contentDir api) "globals".

Definition global_file_name (glob : Global Schema) : string :=
  global_name glob +:+ ".json".

(* The value of a global is read from its file in the directory
   globals. *)
Lemma _getGlobalValue_file api fs glob :
  _getGlobalValue api fs glob
  = try_catch (readEntryFile JSON_parse fs (globals_dir api)
                 (global_file_name glob)) VNull.
Proof. reflexivity. Qed.

(* What setGlobalValue does once the global is resolved. *)
Lemma setGlobalValue_resolved api fs ref glob data :
  getGlobalRef api ref = Ok glob →
  setGlobalValue api fs ref data =
    let fs1 := fs_mkdir (globals_dir api) fs in
    match zod_parse (global_schema glob) data with
    | Throw e => (Throw e, fs1)
    | Ok parsed =>
        match fs_writeFile fs1 (globals_dir api) (global_file_name glob)
                (JSON_stringify (envelope parsed)) with
        | Some fs' => (Ok tt, fs')
        | None => (Throw FsError, fs1)
        end
    end.
Proof. intros Hglob. unfold setGlobalValue. by rewrite Hglob. Qed.

Lemma setGlobalValue_Ok_inv api fs ref glob data fs' :
  getGlobalRef api ref = Ok glob →
  setGlobalValue api fs ref data = (Ok tt, fs') →
  ∃ parsed,
    zod_parse (global_schema glob) data = Ok parsed
    ∧ fs_writeFile (fs_mkdir (globals_dir api) fs) (globals_dir api)
        (global_file_name glob) (JSON_stringify (envelope parsed)) = Some fs'.
Proof.
  intros Hglob. rewrite (setGlobalValue_resolved _ _ _ _ _ Hglob). simpl.
  destruct (zod_parse _ _) as [parsed|]; [|done].
  destruct (fs_writeFile _ _ _ _) as [fs1|] eqn:Hw; [|done].
  intros [= <-]. by exists parsed.
Qed.

(** X13. The value of a global is what the schema made of the data
    that was set: setGlobalValue stores the result of schema.parse, and
    getGlobalValue returns that result. Before any value is stored
    (the file of the global does not exist) getGlobalValue returns
    null. The name of the global is a file name, and the JSON text of
    the envelope is assumed to parse back to the envelope. *)
Theorem setGlobalValue_getGlobalValue_roundtrip api fs ref glob data parsed :
  getGlobalRef api ref = Ok glob →
  flat_name (global_name glob) = true →
  zod_parse (global_schema glob) data = Ok parsed →
  JSON_parse (JSON_stringify (envelope parsed)) = Some (envelope parsed) →
  ∃ fs', setGlobalValue api fs ref data = (Ok tt, fs')
         ∧ getGlobalValue api fs' ref = Ok parsed
         ∧ (fs_readFile fs (globals_dir api) (global_file_name glob) = None →
            getGlobalValue api fs ref = Ok VNull).
Proof.
  intros Hglob Hflat Hparse Hjson.
  rewrite (setGlobalValue_resolved _ _ _ _ _ Hglob). simpl. rewrite Hparse.
  assert (Hf : flat_name (global_file_name glob) = true).
  { unfold global_file_name. by rewrite flat_name_app, Hflat. }
  destruct (fs_writeFile _ _ _ _) as [fs'|] eqn:Hw.
  2: { by erewrite fs_writeFile_Some in Hw; [|apply fs_mkdir_lookup|]. }
  exists fs'. split; [done|].
  unfold getGlobalValue. rewrite Hglob. simpl.
  rewrite !_getGlobalValue_file. split.
  - by rewrite (readEntryFile_written _ _ _ _ _ _ _ Hw Hjson).
  - intros Hnone. unfold readEntryFile. by rewrite Hnone.
Qed.

(** X14. Data that the schema of the global rejects is not stored:
    setGlobalValue raises the error of schema.parse, every directory
    holds the same files with the same contents as before, and the
    value of the global is the one it had. *)
Theorem setGlobalValue_invalid_rejected api fs ref glob data e :
  getGlobalRef api ref = Ok glob →
  zod_parse (global_schema glob) data = Throw e →
  ∃ fs', setGlobalValue api fs ref data = (Throw e, fs')
         ∧ (∀ dir, default [] (fs' !! dir) = default [] (fs !! dir))
         ∧ (∀ dir file, fs_readFile fs' dir file = fs_readFile fs dir file)
         ∧ getGlobalValue api fs' ref = getGlobalValue api fs ref.
Proof.
  intros Hglob Hparse.
  rewrite (setGlobalValue_resolved _ _ _ _ _ Hglob). simpl. rewrite Hparse.
  eexists. split; [reflexivity|]. split; [|split].
  - intros dir. apply fs_mkdir_files.
  - intros dir file. apply fs_mkdir_readFile.
  - unfold getGlobalValue. rewrite Hglob. simpl.
    rewrite !_getGlobalValue_file. unfold readEntryFile.
    by rewrite fs_mkdir_readFile.
Qed.

(** X15. getGlobalValues returns one value for each registered global,
    and a value stored by setGlobalValue for a registered global is
    among them. *)
Theorem getGlobalValues_lists_stored_value api fs n glob data parsed fs' :
  globals api !! n = Some glob →
  setGlobalValue api fs (GlobalName n) data = (Ok tt, fs') →
  zod_parse (global_schema glob) data = Ok parsed →
  JSON_parse (JSON_stringify (envelope parsed)) = Some (envelope parsed) →
  parsed ∈ getGlobalValues api fs'
  ∧ length (getGlobalValues api fs') = length (getGlobals api).
Proof.
  intros Hn Hset Hparse Hjson.
  assert (Hglob : getGlobalRef api (GlobalName n) = Ok glob).
  { unfold getGlobalRef. by rewrite Hn. }
  destruct (setGlobalValue_Ok_inv _ _ _ _ _ _ Hglob Hset)
    as (parsed' & Hparse' & Hw).
  rewrite Hparse in Hparse'. injection Hparse' as <-.
  unfold getGlobalValues, _getGlobals. split.
  - apply list_elem_of_fmap. exists glob. split.
    + rewrite _getGlobalValue_file.
      by rewrite (readEntryFile_written _ _ _ _ _ _ _ Hw Hjson).
    + apply list_elem_of_fmap. exists (n, glob). split; [done|].
      by apply elem_of_map_to_list.
  - unfold getGlobals, _getGlobals. by rewrite !length_map.
Qed.

(** X16. Entries and globals are kept apart by the name of the
    directory only. setEntry under a filename-safe id leaves the value
    of every global as it is unless the collection is named globals; an
    entry stored in a collection of that name under the id n is the
    value of the global named n. *)
Theorem setEntry_global_values api fs ref col id e fs' gref glob :
  getCollectionRef api ref = Ok col →
  flat_name (js_to_string id) = true →
  setEntry api fs ref id e = (Ok tt, fs') →
  getGlobalRef api gref = Ok glob →
  plain_name (name col) = true →
  flat_name (global_name glob) = true →
  (name col ≠ "globals" →
   getGlobalValue api fs' gref = getGlobalValue api fs gref)
  ∧ (name col = "globals" → js_to_string id = global_name glob →
     JSON_parse (JSON_stringify (envelope e)) = Some (envelope e) →
     getGlobalValue api fs' gref = Ok e).
Proof.
  intros Hcol _ Hset Hglob _ _.
  destruct (setEntry_Ok_inv _ _ _ _ _ _ _ _ _ _ _ _ Hcol Hset) as [_ Hw].
  unfold getGlobalValue. rewrite Hglob. simpl.
  rewrite !_getGlobalValue_file. split.
  - intros Hname. unfold readEntryFile.
    rewrite (fs_readFile_write_ne _ _ _ _ _ _ _ Hw).
    + by rewrite fs_mkdir_readFile.
    + intros [= Hd _]. by apply path_join_inj in Hd.
  - intros Hname Hid Hjson.
    assert (Hd : entry_dir api col = globals_dir api).
    { unfold entry_dir, globals_dir. by rewrite Hname. }
    assert (Hf : entry_file_name id = global_file_name glob).
    { unfold entry_file_name, global_file_name. by rewrite Hid. }
    rewrite Hd, Hf in Hw.
    by rewrite (readEntryFile_written _ _ _ _ _ _ _ Hw Hjson).
Qed.
End GlobalStoreProperties.

(** ** Asset store: names, extensions and content types *)

Lemma string_app_app a b c : (a +:+ b) +:+ c = a +:+ b +:+ c.
Proof.
  induction a as [|x a IH]; [done|]. by rewrite !string_app_cons, IH.
Qed.

Lemma pretty_N_char_no_dot x : Ascii.eqb "." (pretty_N_char x) = false.
Proof. unfold pretty_N_char. by repeat case_match. Qed.

Lemma pretty_N_go_no_dot x s :
  string_contains_char "." s = false →
  string_contains_char "." (pretty_N_go x s) = false.
Proof.
  revert s. induction (N.lt_wf_0 x) as [x _ IH]; intros s Hs.
  assert (x = 0 ∨ 0 < x)%N as [->|?] by lia.
  - by rewrite pretty_N_go_0.
  - rewrite pretty_N_go_step by done. apply IH.
    { by apply N.div_lt. }
    cbn [string_contains_char]. by rewrite pretty_N_char_no_dot.
Qed.

Lemma pretty_nat_no_dot (n : nat) : string_contains_char "." (pretty n) = false.
Proof.
  unfold pretty, pretty_nat, pretty, pretty_N.
  case_decide; [done|]. by rewrite pretty_N_go_no_dot.
Qed.

Lemma split_last_dot_None s :
  split_last_dot s = None ↔ string_contains_char "." s = false.
Proof.
  induction s as [|c s IH]; [done|].
  cbn [split_last_dot string_contains_char].
  destruct (split_last_dot s) as [[p e]|].
  - split; [done|]. destruct (Ascii.eqb "." c); [done|].
    intros H. by apply IH in H.
  - rewrite (Ascii.eqb_sym "." c). destruct (Ascii.eqb c "."); [done|].
    split; [intros _; by apply IH|done].
Qed.

(* The text from the last dot on starts with a dot and has no other. *)
Lemma split_last_dot_ext s p e :
  split_last_dot s = Some (p, e) →
  ∃ e', e = String "." e' ∧ string_contains_char "." e' = false.
Proof.
  revert p. induction s as [|c s IH]; intros p; simpl; [done|].
  destruct (split_last_dot s) as [[p' e0]|] eqn:E.
  - intros [= <- <-]. by eapply IH.
  - destruct (Ascii.eqb c ".") eqn:Ec; [|done].
    apply Ascii.eqb_eq in Ec. subst c. intros [= <- <-].
    exists s. split; [done|]. by apply split_last_dot_None.
Qed.

Lemma split_last_dot_app_nodot a b :
  string_contains_char "." b = false →
  split_last_dot (a +:+ b)
  = match split_last_dot a with
    | Some (p, e) => Some (p, e +:+ b)
    | None => None
    end.
Proof.
  intros Hb. induction a as [|c a IH].
  - simpl. by apply split_last_dot_None.
  - rewrite string_app_cons. cbn [split_last_dot]. rewrite IH.
    destruct (split_last_dot a) as [[p e]|]; [done|].
    by destruct (Ascii.eqb c ".").
Qed.

Lemma split_last_dot_app_dot a b p e :
  split_last_dot b = Some (p, e) →
  split_last_dot (a +:+ b) = Some (a +:+ p, e).
Proof.
  intros Hb. induction a as [|c a IH]; [done|].
  rewrite string_app_cons. cbn [split_last_dot]. by rewrite IH.
Qed.

Lemma string_eqb_length a b :
  String.length a ≠ String.length b → String.eqb a b = false.
Proof. intros H. apply String.eqb_neq. congruence. Qed.

(* The extension and the base of a name, by the place of its last dot. *)
Lemma extname_cases filename :
  match split_last_dot filename with
  | Some (p, e) =>
      if String.eqb p "" || String.eqb filename ".."
      then extname filename = "" ∧ basename filename "" = filename
      else extname filename = e ∧ basename filename e = p
  | None => extname filename = "" ∧ basename filename "" = filename
  end.
Proof.
  unfold extname, basename.
  destruct (split_last_dot filename) as [[p e]|] eqn:E; [|done].
  destruct (String.eqb p "" || String.eqb filename ".."); [done|].
  split; [done|].
  destruct (split_last_dot_ext _ _ _ E) as (e' & -> & _).
  by rewrite String.eqb_refl.
Qed.

(* A suffix -k before the extension keeps the content type. *)
Lemma getContentType_suffixed filename k :
  getContentType (suffixed filename k) = getContentType filename.
Proof.
  destruct k as [|k]; [done|]. unfold suffixed, getContentType.
  set (mid := "-" +:+ pretty (S k)).
  assert (Hmid : string_contains_char "." mid = false).
  { subst mid. rewrite string_app_cons. cbn [string_contains_char]. simpl.
    apply pretty_nat_no_dot. }
  assert (Hlen : (0 < String.length mid)%nat).
  { subst mid. rewrite string_app_cons. simpl. lia. }
  change (basename filename (extname filename) +:+ "-" +:+ pretty (S k)
          +:+ extname filename)
    with (basename filename (extname filename) +:+ mid +:+ extname filename).
  pose proof (extname_cases filename) as Hc.
  destruct (split_last_dot filename) as [[p e]|] eqn:E.
  - destruct (String.eqb p "" || String.eqb filename "..") eqn:Ec.
    + (* a leading dot only, or the name .. *)
      destruct Hc as [-> ->]. rewrite string_app_nil_r.
      unfold extname. rewrite split_last_dot_app_nodot, E by done.
      apply orb_prop in Ec as [Ep|Ed].
      * by rewrite Ep.
      * apply String.eqb_eq in Ed. subst filename. injection E as <- <-.
        subst mid. generalize (pretty (S k)). intros x.
        vm_compute. reflexivity.
    + (* an extension *)
      destruct Hc as [-> ->].
      destruct (split_last_dot_ext _ _ _ E) as (e' & -> & He').
      do 2 f_equal. rewrite <- string_app_app. unfold extname.
      assert (Hs : split_last_dot (String "." e') = Some ("", String "." e')).
      { cbn [split_last_dot]. apply split_last_dot_None in He'.
        by rewrite He', Ascii.eqb_refl. }
      rewrite (split_last_dot_app_dot _ _ _ _ Hs), string_app_nil_r.
      apply orb_false_elim in Ec as [Ep _].
      assert (Hp : (0 < String.length p)%nat).
      { destruct p; [done|]. simpl. lia. }
      rewrite !string_eqb_length; [done| |].
      * rewrite !string_length_app. simpl. lia.
      * rewrite string_length_app. simpl. lia.
  - destruct Hc as [-> ->]. rewrite string_app_nil_r.
    unfold extname. by rewrite split_last_dot_app_nodot, E.
Qed.

Lemma last_segment_flat s : flat_name s = true → last_segment s = s.
Proof.
  unfold flat_name. destruct s as [|c s]; [done|].
  intros H. apply negb_true_iff in H. cbn [last_segment]. by rewrite H.
Qed.

(** *** Letter case *)

Lemma lower_char_dot c : Ascii.eqb (lower_char c) "." = Ascii.eqb c ".".
Proof. destruct c as [[] [] [] [] [] [] [] []]; reflexivity. Qed.

Lemma lower_char_idemp c : lower_char (lower_char c) = lower_char c.
Proof. destruct c as [[] [] [] [] [] [] [] []]; reflexivity. Qed.

Lemma toLowerCase_idemp s : toLowerCase (toLowerCase s) = toLowerCase s.
Proof.
  induction s as [|c s IH]; [done|]. simpl. by rewrite lower_char_idemp, IH.
Qed.

Lemma split_last_dot_lower s :
  split_last_dot (toLowerCase s)
  = match split_last_dot s with
    | Some (p, e) => Some (toLowerCase p, toLowerCase e)
    | None => None
    end.
Proof.
  induction s as [|c s IH]; [done|]. simpl. rewrite IH.
  destruct (split_last_dot s) as [[p e]|]; [done|].
  rewrite lower_char_dot. by destruct (Ascii.eqb c ".").
Qed.

Lemma toLowerCase_eqb_nil s : String.eqb (toLowerCase s) "" = String.eqb s "".
Proof. by destruct s. Qed.

Lemma toLowerCase_eqb_dots s : String.eqb (toLowerCase s) ".." = String.eqb s "..".
Proof.
  destruct s as [|c1 [|c2 [|c3 s]]]; simpl; try done;
    rewrite ?lower_char_dot; done.
Qed.

Lemma extname_lower s : extname (toLowerCase s) = toLowerCase (extname s).
Proof.
  unfold extname. rewrite split_last_dot_lower.
  destruct (split_last_dot s) as [[p e]|]; [|done].
  rewrite toLowerCase_eqb_nil, toLowerCase_eqb_dots.
  by destruct (_ || _).
Qed.

(** X17. The content type is read off the extension without regard to
    letter case: two file names that differ in the case of their
    letters only have the same content type. *)
Theorem getContentType_case_insensitive f g :
  toLowerCase f = toLowerCase g → getContentType f = getContentType g.
Proof.
  intros H.
  assert (Hl : ∀ s, getContentType s = getContentType (toLowerCase s)).
  { intros s. unfold getContentType.
    by rewrite extname_lower, toLowerCase_idemp. }
  by rewrite (Hl f), (Hl g), H.
Qed.

(** ** Asset store: upload, read, list and delete *)

Definition with_quality (options : AssetOptions) (q : option Z)
  : AssetOptions :=
  {| width := width options; height := height options;
     format := format options; quality := q;
     resizeOptions := resizeOptions options |}.

Definition without_cursor (options : ListOptions) : ListOptions :=
  {| search := search options; list_limit := list_limit options;
     startAfter := None |}.

Section AssetStoreMore.
Context {Schema : Type} {Sharp : Type}.
Variable sharp : string -> option Sharp.
Variable sharp_metadata : Sharp -> option (option Z * option Z).
Variable sharp_resize :
  Sharp -> option Z -> option Z -> ResizeOptions -> option Sharp.
Variable sharp_toFormat : Sharp -> image_format -> option Z -> option Sharp.
Variable sharp_toBuffer : Sharp -> option string.

Implicit Types (api : LocalApi Schema) (fs : FS).

Local Abbreviation getAsset :=
  (getAsset sharp sharp_metadata sharp_resize sharp_toFormat sharp_toBuffer).
Local Abbreviation transformImage :=
  (transformImage sharp sharp_metadata sharp_resize sharp_toFormat
     sharp_toBuffer).
Local Abbreviation listAssets := (listAssets sharp sharp_metadata).
Local Abbreviation describeAsset := (describeAsset sharp sharp_metadata).

Lemma indexOf_None cursor files :
  cursor ∉ files → indexOf cursor files = None.
Proof.
  induction files as [|f files IH]; [done|].
  intros [Hne Hin]%not_elem_of_cons. simpl.
  destruct (String.eqb f cursor) eqn:E.
  - apply String.eqb_eq in E. congruence.
  - by rewrite IH.
Qed.

(* Every asset of the list describes the file its key names. *)
Lemma listAssets_describe api fs options a :
  a ∈ listAssets api fs options →
  describeAsset fs (getAssetDir api) (key a) = Some a.
Proof.
  unfold listAssets.
  destruct (fs_readdir fs (getAssetDir api)) as [files|];
    [|by intros ?%elem_of_nil].
  destruct (mapM _ _) as [assets|] eqn:Hm; [|by intros ?%elem_of_nil].
  simpl. intros Ha. apply mapM_Some in Hm.
  apply list_elem_of_lookup in Ha as [i Hi].
  destruct (Forall2_lookup_r _ _ _ _ _ Hm Hi) as (f & _ & Hf).
  assert (key a = f) as ->; [|done].
  revert Hf. unfold describeAsset.
  destruct (fs_stat_size _ _ _); [|done]. by intros [= <-].
Qed.

(** X18. An uploaded asset is listed: after uploadAsset under a name
    that is a single path segment, listAssets (without options) holds
    an asset whose key and name are the file name that the upload
    returned, whose size is the number of bytes uploaded, and whose
    content type is that of the extension. *)
Theorem uploadAsset_listAssets api fs file filename ct :
  plain_name filename = true →
  ∃ r fs' a,
    uploadAsset api fs file filename ct = (Ok r, fs')
    ∧ a ∈ listAssets api fs' no_listOptions
    ∧ key a = up_filename r
    ∧ asset_name a = up_filename r
    ∧ size a = Z.of_nat (String.length file)
    ∧ size a = up_size r
    ∧ httpMetadata a = getContentType filename.
Proof.
  intros Hflat%plain_name_flat.
  destruct (uploadAsset_spec api fs file filename ct Hflat)
    as (k & r & fs' & Hup & Hname & _ & _ & Hw & Hsize & _).
  pose proof (fs_readFile_write_eq _ _ _ _ _ Hw) as Hread.
  assert (Hdir : ∃ l, fs' !! getAssetDir api = Some l
                      ∧ assoc_get (up_filename r) l = Some file).
  { unfold fs_readFile in Hread.
    destruct (fs' !! getAssetDir api) as [l|]; [|done]. by exists l. }
  destruct Hdir as (l & Hl & Hget).
  assert (Hls : fs_readdir fs' (getAssetDir api) = Some (map fst l)).
  { unfold fs_readdir. by rewrite Hl. }
  pose proof (listAssets_keys sharp sharp_metadata api fs' no_listOptions _ Hls)
    as Hkeys.
  assert (Hin : up_filename r ∈ map key (listAssets api fs' no_listOptions)).
  { rewrite Hkeys. unfold limitFiles, cutAfter, searchFiles. simpl.
    by eapply assoc_get_Some_elem. }
  apply list_elem_of_fmap in Hin as (a & Hk & Ha).
  exists r, fs', a. split; [done|]. split; [done|]. split; [done|].
  apply listAssets_describe in Ha. rewrite <- Hk in Ha.
  unfold describeAsset, fs_stat_size in Ha. rewrite Hread in Ha. simpl in Ha.
  injection Ha as <-. simpl.
  assert (Hflat' : flat_name (up_filename r) = true).
  { rewrite Hname. by apply suffixed_flat. }
  rewrite (last_segment_flat _ Hflat'), Hsize, Hname.
  by rewrite getContentType_suffixed.
Qed.

(* The store after an upload does not depend on the content type
   that was given. *)
Lemma uploadAsset_store api fs file filename ct ct' :
  (uploadAsset api fs file filename ct).2
  = (uploadAsset api fs file filename ct').2.
Proof.
  unfold uploadAsset, ensureAssetDir.
  destruct (uniqueFilename _ _ _ _ _ _) as [f|]; [|done].
  destruct (fs_writeFile _ _ _ _) as [fs1|]; [|done].
  by destruct (fs_stat_size _ _ _).
Qed.

(** X19. The content type given to uploadAsset is returned by the call
    and not stored: the store after the upload is the same for every
    content type given, and getAsset reports for the uploaded file the
    content type of the extension of the requested name. *)
Theorem uploadAsset_contentType_not_stored api fs file filename ct :
  plain_name filename = true →
  ∃ r fs',
    uploadAsset api fs file filename ct = (Ok r, fs')
    ∧ up_contentType r = match ct with
                         | Some c => Some c
                         | None => getContentType filename
                         end
    ∧ (∀ ct', (uploadAsset api fs file filename ct').2 = fs')
    ∧ (∀ options,
         contentType <$> getAsset api fs' (up_filename r) options
         = Some (getContentType filename)).
Proof.
  intros Hflat%plain_name_flat.
  destruct (uploadAsset_spec api fs file filename ct Hflat)
    as (k & r & fs' & Hup & Hname & _ & _ & Hw & _ & Hct).
  exists r, fs'. split; [done|]. split; [done|]. split.
  - intros ct'. rewrite (uploadAsset_store api fs file filename ct' ct).
    by rewrite Hup.
  - intros options. unfold getAsset.
    rewrite (fs_readFile_write_eq _ _ _ _ _ Hw).
    rewrite Hname, getContentType_suffixed.
    destruct (is_image (getContentType filename)); [|done].
    by destruct (transformImage file options) as [[d w] h].
Qed.


(** X21. The quality option counts only through the format option.
    Without format, the value of quality is not passed to sharp: two
    calls whose options differ in quality only, and agree on whether
    quality is given (and not 0), return the same result. *)
Theorem getAsset_quality_without_format api fs filename options q q' :
  format options = None →
  truthy_num q = truthy_num q' →
  getAsset api fs filename (with_quality options q)
  = getAsset api fs filename (with_quality options q').
Proof.
  intros Hf Hq. unfold getAsset.
  destruct (fs_readFile fs (getAssetDir api) filename) as [bytes|]; [|done].
  destruct (is_image (getContentType filename)); [|done].
  unfold transformImage, wants_transform. simpl. by rewrite Hf, Hq.
Qed.

(** X22. A cursor that names no file of the listing is ignored: when
    startAfter is not among the names that the search leaves,
    listAssets returns what it returns without startAfter (the listing
    from its start, not the empty list). *)
Theorem listAssets_unknown_cursor api fs options files cursor :
  fs_readdir fs (getAssetDir api) = Some files →
  startAfter options = Some cursor →
  cursor ∉ searchFiles options files →
  listAssets api fs options = listAssets api fs (without_cursor options).
Proof.
  intros Hdir Hc Hnot. unfold listAssets. rewrite Hdir.
  change (searchFiles (without_cursor options) files)
    with (searchFiles options files).
  assert (cutAfter options (searchFiles options files)
          = cutAfter (without_cursor options) (searchFiles options files))
    as ->; [|done].
  unfold cutAfter. rewrite Hc. simpl.
  destruct (String.eqb cursor ""); [done|]. by rewrite indexOf_None.
Qed.

(** X23. deleteAsset returns true exactly when the file existed.
    After the call getAsset returns null for the name and listAssets
    does not list it, and every other asset has the bytes it had; when
    the call returns false the store is the one it was given. *)
Theorem deleteAsset_spec api fs filename :
  fs_wf fs →
  flat_name filename = true →
  ∃ fs', deleteAsset api fs filename
         = (fs_access fs (getAssetDir api) filename, fs')
    ∧ (∀ options, getAsset api fs' filename options = None)
    ∧ (filename ∉ map key (listAssets api fs' no_listOptions))
    ∧ (∀ f, f ≠ filename →
         fs_readFile fs' (getAssetDir api) f = fs_readFile fs (getAssetDir api) f)
    ∧ (fs_access fs (getAssetDir api) filename = false → fs' = fs).
Proof.
  intros Hwf _. unfold deleteAsset.
  assert (Hlist : ∀ fs1, fs_readFile fs1 (getAssetDir api) filename = None →
            (∀ options, getAsset api fs1 filename options = None)
            ∧ filename ∉ map key (listAssets api fs1 no_listOptions)).
  { intros fs1 Hgone. split.
    - intros options. unfold getAsset. by rewrite Hgone.
    - destruct (fs_readdir fs1 (getAssetDir api)) as [files|] eqn:Hdir.
      + rewrite (listAssets_keys _ _ _ _ _ _ Hdir).
        unfold limitFiles, cutAfter, searchFiles. simpl.
        unfold fs_readdir in Hdir. unfold fs_readFile in Hgone.
        destruct (fs1 !! getAssetDir api) as [l|]; [|done].
        simpl in *. injection Hdir as <-.
        by apply assoc_get_None_not_elem.
      + unfold listAssets. rewrite Hdir. apply not_elem_of_nil. }
  destruct (fs_unlink fs (getAssetDir api) filename) as [fs'|] eqn:Hu.
  - destruct (fs_unlink_Some _ _ _ _ Hwf Hu) as (Hacc & Hgone & Hrest).
    exists fs'. rewrite Hacc. split; [done|].
    destruct (Hlist fs' Hgone) as [H1 H2].
    split; [done|]. split; [done|]. split; [|done].
    intros f Hf. apply Hrest. congruence.
  - apply fs_unlink_None in Hu. exists fs. rewrite Hu. split; [done|].
    destruct (Hlist fs) as [H1 H2]; [by apply fs_access_false|].
    done.
Qed.
End AssetStoreMore.

(** ** Entry store and query engine: edges *)

Section EdgeProperties.
Context {Schema JsonSchema AjvFormats AjvError : Type}.
Variable JSON_stringify : value -> string.
Variable JSON_parse : string -> option value.
Variable convertZodSchema : Schema -> gmap string Schema -> JsonSchema.
Variable ajvFormats : list string -> AjvFormats.
Variable ajv_validate : AjvFormats -> JsonSchema -> value -> bool * list AjvError.
Variable ajv_errorsText : list AjvError -> string.
Variable doesMatchFilter : value -> value -> bool.
Variable Date_getTime : string -> option Z.
Variable localeCompare : string -> string -> Z.

Implicit Types (api : LocalApi Schema) (fs : FS).

Local Abbreviation getEntry := (getEntry JSON_parse).
Local Abbreviation readEntry := (readEntry JSON_parse).
Local Abbreviation resolveInclude := (resolveInclude JSON_parse).
Local Abbreviation validateEntry :=
  (validateEntry convertZodSchema ajvFormats ajv_validate).
Local Abbreviation setEntry :=
  (setEntry JSON_stringify convertZodSchema ajvFormats ajv_validate
     ajv_errorsText).
Local Abbreviation getEntries :=
  (getEntries JSON_parse doesMatchFilter Date_getTime localeCompare).
Local Abbreviation applyFilters := (applyFilters doesMatchFilter).

(* a field that the include loop passes over *)
Definition not_a_reference (entry : value) (k : string) : Prop :=
  truthy (opt_get (prop entry k) "id")
  && truthy (opt_get (prop entry k) "collection") = false.

Lemma resolveInclude_not_a_reference api fs entry k :
  is_nullish entry = false → not_a_reference entry k →
  resolveInclude api fs entry k = Ok entry.
Proof.
  intros Hn Hk. unfold resolveInclude, js_get. rewrite Hn. simpl.
  unfold not_a_reference in Hk. by rewrite Hk.
Qed.

(** X24. include passes over fields that are not references: when no
    field named in include holds an object with a truthy id and a
    truthy collection (the field is missing, is not an object, or lacks
    one of the two), getEntry with include returns the entry as
    getEntry without include does. *)
Theorem getEntry_include_ignores_non_references api fs ref col id entry
    include :
  getCollectionRef api ref = Ok col →
  readEntry api fs (Some (name col)) id = Ok entry →
  (∀ k, k ∈ include → not_a_reference entry k) →
  getEntry api fs ref id (Some include) = Ok entry
  ∧ getEntry api fs ref id None = Ok entry.
Proof.
  intros Hcol Hread Hinc. unfold getEntry. rewrite Hcol. simpl.
  rewrite Hread. simpl. rewrite andb_false_r. split; [|done].
  destruct (truthy entry) eqn:Ht; [|done].
  destruct (negb _); [|done]. simpl.
  assert (Hn : is_nullish entry = false) by by destruct entry.
  assert (result_fold (resolveInclude api fs) entry include = Ok entry)
    as ->; [|done].
  induction include as [|k include IH]; [done|]. simpl.
  rewrite resolveInclude_not_a_reference; [|done|].
  - simpl. apply IH. intros k' Hk'. apply Hinc. by apply list_elem_of_further.
  - apply Hinc. apply list_elem_of_here.
Qed.

(** X25. An offset at or past the end gives an empty page: when the
    count that getEntries reports is not greater than the offset, the
    call returns no entry (and still reports the count). *)
Theorem getEntries_offset_past_end api fs ref options o c r :
  opt_offset options = Some o →
  getEntries api fs ref options = Ok r →
  count r = Some c →
  c ≤ o →
  entries r = [].
Proof.
  intros Ho Hget Hc Hle.
  destruct (getEntries_Ok_inv _ _ _ _ _ _ _ _ _ Hget) as (col & Hcol & Hinv).
  destruct (fs_readdir fs (entry_dir api col)) as [files|].
  2: { by subst r. }
  destruct Hinv as (stored & sorted & _ & Hs & Hi & _ & _ & Hcount).
  rewrite Hc in Hcount.
  destruct (opt_includeCount options); [|done]. injection Hcount as ->.
  apply nil_length_inv.
  rewrite includeEntries_map in Hi.
  apply result_map_Forall2, Forall2_length in Hi. rewrite <- Hi.
  apply result_fold_sort_pass_perm, Permutation_length in Hs. rewrite Hs.
  unfold paginate. rewrite Ho.
  assert (Hnil : (if o =? 0 then applyFilters options stored
                  else js_slice o None (applyFilters options stored)) = []).
  { destruct (o =? 0) eqn:E.
    - apply Z.eqb_eq in E. subst o. apply nil_length_inv. lia.
    - rewrite <- (Z2Nat.id o) by lia. rewrite js_slice_drop.
      apply drop_ge. lia. }
  rewrite Hnil. unfold js_slice. simpl. by rewrite take_nil.
Qed.

(** X26. A rejected write leaves a trace: setEntry creates the
    directory of the collection before it validates. For a collection
    that has no directory yet, getEntries with includeCount reports no
    count before a rejected setEntry, and the count 0 after it. *)
Theorem setEntry_rejected_creates_directory api fs ref col id e options :
  getCollectionRef api ref = Ok col →
  fs !! entry_dir api col = None →
  (validateEntry api col e).1 = false →
  opt_includeCount options = true →
  (∃ r, getEntries api fs ref options = Ok r
        ∧ entries r = [] ∧ count r = None)
  ∧ (∃ r, getEntries api (setEntry api fs ref id e).2 ref options = Ok r
          ∧ entries r = [] ∧ count r = Some 0).
Proof.
  intros Hcol Hdir Hinvalid Hcount. split.
  - rewrite (getEntries_missing_dir _ _ _ _ _ _ _ col options Hcol).
    + by eexists.
    + unfold fs_readdir. by rewrite Hdir.
  - rewrite (setEntry_invalid_store _ _ _ _ _ _ _ _ _ _ _ Hcol Hinvalid).
    rewrite (getEntries_resolved _ _ _ _ _ _ _ col options [] [] Hcol).
    + unfold applyFilters, paginate. rewrite Hcount.
      assert (Hf : (match opt_filters options with
                    | Some filters =>
                        if truthy filters
                        then List.filter
                               (fun entry => doesMatchFilter entry filters) []
                        else []
                    | None => []
                    end) = []).
      { destruct (opt_filters options) as [f|]; [|done]. by destruct (truthy f). }
      rewrite Hf.
      assert (Hp : js_slice 0 (Some (default 1000 (opt_limit options)))
                     (match opt_offset options with
                      | Some o => if o =? 0 then [] else js_slice o None []
                      | None => []
                      end) = ([] : list value)).
      { apply nil_length_inv.
        assert (H0 : ∀ a b, length (js_slice a b ([] : list value)) = 0%nat).
        { intros a b. unfold js_slice. by rewrite drop_nil, take_nil. }
        destruct (opt_offset options) as [o|]; [|apply H0].
        destruct (o =? 0); [apply H0|].
        unfold js_slice at 1. rewrite length_take, length_drop, H0. lia. }
      rewrite Hp. unfold sortEntries. rewrite result_fold_sort_pass_nil.
      simpl. unfold includeEntries.
      destruct (_ =? _)%nat; simpl; by eexists.
    + unfold fs_readdir. by rewrite fs_mkdir_lookup, Hdir.
    + done.
Qed.
End EdgeProperties.

(** * The properties on concrete stores *)

(* With the reference codec the condition on the JSON text holds for
   every JSON document: an entry that is a JSON document and passes the
   validator is read back as it was written. *)
Lemma Ref_setEntry_getEntry (api : LocalApi Ref.Schema) (fs : FS) ref col id e :
  getCollectionRef api ref = Ok col →
  flat_name (js_to_string id) = true →
  (Ref.validateEntry api col e).1 = true →
  JSONFacts.is_json e = true →
  ∃ fs', Ref.setEntry api fs ref id e = (Ok tt, fs')
         ∧ Ref.getEntry api fs' ref id None = Ok e.
Proof.
  intros Hcol Hid Hvalid Hjson.
  assert (Hparse : JSON.parse (JSON.stringify (envelope e)) = Some (envelope e)).
  { apply JSONFacts.parse_stringify. unfold envelope. cbn [JSONFacts.is_json].
    cbn [forallb snd]. by rewrite Hjson. }
  unfold Ref.setEntry. rewrite (setEntry_resolved _ _ _ _ _ _ _ _ _ _ _ Hcol).
  fold Ref.validateEntry. simpl. rewrite Hvalid.
  erewrite fs_writeFile_Some; [|apply fs_mkdir_lookup|].
  2: { unfold entry_file_name. by rewrite flat_name_app, Hid. }
  eexists; split; [reflexivity|].
  unfold Ref.getEntry, getEntry, readEntry. rewrite Hcol. simpl.
  fold (entry_dir api col). fold (entry_file_name id).
  unfold fs_readFile. rewrite lookup_insert_eq. simpl.
  rewrite assoc_get_set_eq. simpl. rewrite Hparse. simpl.
  by destruct (truthy e).
Qed.

Lemma setEntry_getEntry_roundtrip_witness :
  ∃ fs', Ref.setEntry Ref.api ∅ (RefName "posts") (VStr "hello") Ref.hello
         = (Ok tt, fs')
         ∧ Ref.getEntry Ref.api fs' (RefName "posts") (VStr "hello") None
           = Ok Ref.hello.
Proof.
  apply (setEntry_getEntry_roundtrip JSON.stringify JSON.parse
           Ref.convertZodSchema Ref.ajvFormats Ref.ajv_validate
           Ref.ajv_errorsText Ref.api ∅ (RefName "posts") Ref.posts
           (VStr "hello") Ref.hello).
  - reflexivity.
  - reflexivity.
  - reflexivity.
  - vm_compute. reflexivity.
Defined.

Lemma setEntry_invalid_rejected_witness :
  ∃ fs', Ref.setEntry Ref.api Ref.posts_store (RefName "posts") (VStr "p1")
           Ref.broken
         = (Throw (JsError
              "data must have required property 'title', data/views must be number"),
            fs')
         ∧ (∀ dir, default [] (fs' !! dir) = default [] (Ref.posts_store !! dir))
         ∧ (∀ dir file,
              fs_readFile fs' dir file = fs_readFile Ref.posts_store dir file).
Proof.
  apply (setEntry_invalid_rejected JSON.stringify Ref.convertZodSchema
           Ref.ajvFormats Ref.ajv_validate Ref.ajv_errorsText Ref.api
           Ref.posts_store (RefName "posts") Ref.posts (VStr "p1") Ref.broken).
  - reflexivity.
  - reflexivity.
Defined.

Lemma getEntry_include_swallows_not_found_witness :
  Ref.getEntry Ref.api Ref.orphan_store (RefName "posts") (VStr "orphan")
    (Some ["author"]) = Ok VNull.
Proof.
  apply (getEntry_include_swallows_not_found JSON.parse Ref.api
           Ref.orphan_store (RefName "posts") Ref.posts (VStr "orphan")
           Ref.orphan "author" "ghosts").
  - reflexivity.
  - vm_compute. reflexivity.
  - vm_compute. split; [reflexivity|]. split; [reflexivity|discriminate].
  - reflexivity.
Defined.

(* At the same store getEntries raises the error that getEntry turns
   into null. *)
Lemma getEntries_include_raises_example :
  Ref.getEntries Ref.api Ref.orphan_store (RefName "posts") Ref.include_author
  = Throw (JsError "Collection ghosts not found").
Proof. vm_compute. reflexivity. Qed.

Lemma getEntries_last_sort_key_dominates_witness :
  ∃ r0, Ref.getEntries Ref.api Ref.posts_store (RefName "posts")
          (without_sort (Ref.sort_by [("title", Asc); ("views", Desc)]))
        = Ok r0
        ∧ [Ref.p4; Ref.p2; Ref.p1; Ref.p3]
          = sort_passes Ref.Date_getTime Ref.localeCompare
              [("title", Asc); ("views", Desc)] (entries r0)
        ∧ StronglySorted
            (le_of (lex_compare Ref.Date_getTime Ref.localeCompare
                      [("views", Desc); ("title", Asc)]))
            [Ref.p4; Ref.p2; Ref.p1; Ref.p3].
Proof.
  apply (getEntries_last_sort_key_dominates JSON.parse Ref.doesMatchFilter
           Ref.Date_getTime Ref.localeCompare Ref.api Ref.posts_store
           (RefName "posts")
           (Ref.sort_by [("title", Asc); ("views", Desc)])
           [("title", Asc); ("views", Desc)]
           (Ref.result_of [Ref.p4; Ref.p2; Ref.p1; Ref.p3])).
  - reflexivity.
  - vm_compute. reflexivity.
  - reflexivity.
  - vm_compute. reflexivity.
Defined.

Lemma getEntries_sort_by_date_witness :
  StronglySorted (date_order Ref.Date_getTime Desc "createdAt")
    [Ref.p4; Ref.p1; Ref.p2; Ref.p3].
Proof.
  apply (getEntries_sort_by_date JSON.parse Ref.doesMatchFilter
           Ref.Date_getTime Ref.localeCompare Ref.api Ref.posts_store
           (RefName "posts") (Ref.sort_by [("createdAt", Desc)])
           "createdAt" Desc
           (Ref.result_of [Ref.p4; Ref.p1; Ref.p2; Ref.p3])).
  - reflexivity.
  - vm_compute. reflexivity.
  - vm_compute. reflexivity.
Defined.

Lemma getEntries_missing_directory_no_count_witness :
  ∃ r, Ref.getEntries Ref.api ∅ (RefName "posts") Ref.with_count = Ok r
       ∧ count r = None.
Proof.
  apply (getEntries_missing_directory_no_count JSON.parse Ref.doesMatchFilter
           Ref.Date_getTime Ref.localeCompare Ref.api ∅ (RefName "posts")
           Ref.posts Ref.with_count).
  - reflexivity.
  - reflexivity.
  - reflexivity.
Defined.

Lemma uploadAsset_unique_filename_witness :
  ∃ r1 fs1 r2 fs2,
    Ref.uploadAsset Ref.api ∅ "AAAA" "logo.png" None = (Ok r1, fs1)
    ∧ Ref.uploadAsset Ref.api fs1 "BBBB" "logo.png" None = (Ok r2, fs2)
    ∧ up_filename r1 = "logo.png"
    ∧ up_filename r2 = "logo-1.png"
    ∧ data <$> Ref.getAsset Ref.api fs2 (up_filename r1) no_assetOptions
      = Some "AAAA"
    ∧ data <$> Ref.getAsset Ref.api fs2 (up_filename r2) no_assetOptions
      = Some "BBBB".
Proof.
  destruct (uploadAsset_unique_filename Ref.sharp Ref.sharp_metadata
              Ref.sharp_resize Ref.sharp_toFormat Ref.sharp_toBuffer
              Ref.api ∅ "AAAA" "BBBB" "logo.png" None None eq_refl)
    as (k1 & r1 & fs1 & k2 & r2 & fs2 & H1 & H2 & _ & _ & _ & _ & _ & _ & _
        & _ & Hd1 & Hd2 & Hlogo).
  destruct (Hlogo eq_refl eq_refl eq_refl) as [Hn1 Hn2].
  exists r1, fs1, r2, fs2. repeat split; assumption.
Defined.



Lemma listAssets_search_cursor_limit_witness :
  map key (Ref.listAssets Ref.api Ref.assets_store
             {| search := Some "logo"; list_limit := None;
                startAfter := None |})
  = ["Logo.svg"; "c-logo.txt"]
  ∧ map key (Ref.listAssets Ref.api Ref.assets_store
               {| search := None; list_limit := Some 1;
                  startAfter := Some "b.png" |})
    = ["c-logo.txt"]
  ∧ map key (Ref.listAssets Ref.api Ref.assets_store
               {| search := Some "PNG"; list_limit := Some 2;
                  startAfter := Some "a.png" |})
    = ["b.png"; "d.png"]
  ∧ map key (Ref.listAssets Ref.api Ref.assets_store
               {| search := Some "png"; list_limit := Some 2;
                  startAfter := Some "Logo.svg" |})
    = ["a.png"; "b.png"].
Proof.
  destruct (listAssets_search_cursor_limit Ref.sharp Ref.sharp_metadata
              Ref.api Ref.assets_store
              ["a.png"; "Logo.svg"; "b.png"; "c-logo.txt"; "d.png"] eq_refl)
    as (Hall & Hlogo & Hcursor).
  split; [exact Hlogo|]. split.
  - apply (Hcursor ["a.png"; "Logo.svg"] "c-logo.txt" ["d.png"] eq_refl).
    intros H. repeat (apply elem_of_cons in H as [H|H]; [discriminate|]).
    by apply elem_of_nil in H.
  - split.
    + rewrite Hall; [reflexivity|]. intros n [= <-]. lia.
    + rewrite Hall; [reflexivity|]. intros n [= <-]. lia.
Defined.

Lemma limit_zero_witness :
  (∃ r, Ref.getEntries Ref.api Ref.posts_store (RefName "posts") Ref.limit_0
        = Ok r ∧ entries r = [])
  ∧ map key (Ref.listAssets Ref.api Ref.assets_store
               {| search := None; list_limit := Some 0;
                  startAfter := Some "b.png" |})
    = ["c-logo.txt"; "d.png"].
Proof.
  split.
  - destruct (limit_zero JSON.parse Ref.doesMatchFilter Ref.Date_getTime
                Ref.localeCompare Ref.sharp Ref.sharp_metadata Ref.api
                Ref.posts_store (RefName "posts") Ref.posts Ref.limit_0
                no_listOptions)
      as (_ & Hentries & _).
    apply Hentries; [reflexivity| |reflexivity].
    intros files [= <-]. eexists. vm_compute. reflexivity.
  - destruct (limit_zero JSON.parse Ref.doesMatchFilter Ref.Date_getTime
                Ref.localeCompare Ref.sharp Ref.sharp_metadata Ref.api
                Ref.assets_store (RefName "posts") Ref.posts Ref.limit_0
                {| search := None; list_limit := Some 0;
                   startAfter := Some "b.png" |})
      as (_ & _ & Hassets).
    destruct (Hassets eq_refl) as [_ Hkeys]. unfold Ref.listAssets.
    rewrite (Hkeys ["a.png"; "Logo.svg"; "b.png"; "c-logo.txt"; "d.png"] eq_refl).
    reflexivity.
Defined.

(** ** The further properties on concrete stores *)

Lemma fs_wf_singleton dir (l : listing) :
  NoDup l.*1 → fs_wf {[ dir := l ]}.
Proof. intros H. by apply map_Forall_singleton. Qed.

Lemma posts_store_wf : fs_wf Ref.posts_store.
Proof.
  apply fs_wf_singleton. apply (bool_decide_unpack _). vm_compute. exact I.
Qed.

Lemma assets_store_wf : fs_wf Ref.assets_store.
Proof.
  apply fs_wf_singleton. apply (bool_decide_unpack _). vm_compute. exact I.
Qed.

Lemma getEntry_unreadable_null_witness :
  Ref.getEntry Ref.api Ref.posts_store (RefName "posts") (VStr "nope")
    (Some ["author"]) = Ok VNull.
Proof.
  apply (getEntry_unreadable_null JSON.parse Ref.api Ref.posts_store
           (RefName "posts") Ref.posts (VStr "nope") (Some ["author"])).
  - reflexivity.
  - reflexivity.
  - left. vm_compute. reflexivity.
Defined.

Lemma setEntry_other_entries_witness :
  Ref.getEntry Ref.api Samples.posts_store_hello (RefName "posts") (VStr "p1")
    None
  = Ref.getEntry Ref.api Ref.posts_store (RefName "posts") (VStr "p1") None
  ∧ (name Ref.authors ≠ name Ref.posts → opt_include no_options = None →
     Ref.getEntries Ref.api Samples.posts_store_hello (RefName "authors")
       no_options
     = Ref.getEntries Ref.api Ref.posts_store (RefName "authors") no_options).
Proof.
  split.
  - apply (setEntry_other_entries JSON.stringify JSON.parse
             Ref.convertZodSchema Ref.ajvFormats Ref.ajv_validate
             Ref.ajv_errorsText Ref.doesMatchFilter Ref.Date_getTime
             Ref.localeCompare Ref.api Ref.posts_store (RefName "posts")
             Ref.posts (VStr "hello") Ref.hello Samples.posts_store_hello
             (RefName "posts") Ref.posts (VStr "p1") no_options).
    + reflexivity.
    + reflexivity.
    + vm_compute. reflexivity.
    + reflexivity.
    + reflexivity.
    + reflexivity.
    + reflexivity.
    + discriminate.
  - apply (setEntry_other_entries JSON.stringify JSON.parse
             Ref.convertZodSchema Ref.ajvFormats Ref.ajv_validate
             Ref.ajv_errorsText Ref.doesMatchFilter Ref.Date_getTime
             Ref.localeCompare Ref.api Ref.posts_store (RefName "posts")
             Ref.posts (VStr "hello") Ref.hello Samples.posts_store_hello
             (RefName "authors") Ref.authors (VStr "a1") no_options).
    + reflexivity.
    + reflexivity.
    + vm_compute. reflexivity.
    + reflexivity.
    + reflexivity.
    + reflexivity.
    + reflexivity.
    + discriminate.
Defined.

Lemma deleteEntry_spec_witness :
  ∃ fs', deleteEntry Ref.api Ref.posts_store (RefName "posts") (VStr "p1")
         = (Ok true, fs')
    ∧ Ref.getEntry Ref.api fs' (RefName "posts") (VStr "p1") None = Ok VNull
    ∧ Ref.getEntry Ref.api fs' (RefName "posts") (VStr "p2") None = Ok Ref.p2.
Proof.
  destruct (deleteEntry_spec JSON.parse Ref.api Ref.posts_store
              (RefName "posts") Ref.posts (VStr "p1") eq_refl posts_store_wf
              eq_refl)
    as (fs' & Hdel & Hgone & Hrest & _).
  exists fs'. split; [exact Hdel|]. split; [apply Hgone|].
  unfold Ref.getEntry.
  rewrite (getEntry_resolved JSON.parse Ref.api fs' (RefName "posts")
             Ref.posts (VStr "p2") eq_refl).
  unfold readEntryFile. rewrite Hrest by discriminate.
  vm_compute. reflexivity.
Defined.

Lemma setEntry_getEntries_lists_entry_witness :
  Ref.hello ∈ [Ref.p1; Ref.p2; Ref.p3; Ref.p4; Ref.hello].
Proof.
  apply (setEntry_getEntries_lists_entry JSON.stringify JSON.parse
           Ref.convertZodSchema Ref.ajvFormats Ref.ajv_validate
           Ref.ajv_errorsText Ref.doesMatchFilter Ref.Date_getTime
           Ref.localeCompare Ref.api Ref.posts_store (RefName "posts")
           Ref.posts (VStr "hello") Ref.hello Samples.posts_store_hello
           (Ref.result_of [Ref.p1; Ref.p2; Ref.p3; Ref.p4; Ref.hello])).
  - reflexivity.
  - reflexivity.
  - vm_compute. reflexivity.
  - vm_compute. reflexivity.
  - vm_compute. lia.
  - vm_compute. reflexivity.
Defined.

Lemma getEntries_corrupt_file_raises_witness :
  ∃ e, Ref.getEntries Ref.api Samples.corrupt_store (RefName "posts")
         no_options = Throw e.
Proof.
  apply (getEntries_corrupt_file_raises JSON.parse Ref.doesMatchFilter
           Ref.Date_getTime Ref.localeCompare Ref.api Samples.corrupt_store
           (RefName "posts") Ref.posts no_options "bad.json" "{oops").
  - reflexivity.
  - vm_compute. reflexivity.
  - reflexivity.
  - vm_compute. reflexivity.
Defined.

Lemma getEntry_include_attaches_witness :
  ∃ other,
    Ref.getEntry Ref.api Samples.linked_store (RefName "authors") (VStr "a1")
      None = Ok other
    ∧ Ref.getEntry Ref.api Samples.linked_store (RefName "posts")
        (VStr "linked") (Some ["author"])
      = Ok (VObj [("title", VStr "Linked"); ("views", VNum 2);
                  ("author",
                   VObj [("id", VStr "a1"); ("collection", VStr "authors");
                         ("entry", other)])]).
Proof.
  apply (getEntry_include_attaches JSON.parse Ref.api Samples.linked_store
           (RefName "posts") Ref.posts (VStr "linked")
           [("title", VStr "Linked"); ("views", VNum 2);
            ("author", VObj [("id", VStr "a1"); ("collection", VStr "authors")])]
           "author" [("id", VStr "a1"); ("collection", VStr "authors")]
           "authors" Ref.authors).
  - reflexivity.
  - vm_compute. reflexivity.
  - reflexivity.
  - reflexivity.
  - reflexivity.
  - discriminate.
  - reflexivity.
Defined.

Lemma getEntries_page_bounds_witness :
  (length [Ref.p1; Ref.p2] ≤ Z.to_nat 2)%nat
  ∧ (∀ c, Some 4 = Some c → Z.of_nat (length [Ref.p1; Ref.p2]) ≤ c).
Proof.
  apply (getEntries_page_bounds JSON.parse Ref.doesMatchFilter
           Ref.Date_getTime Ref.localeCompare Ref.api Ref.posts_store
           (RefName "posts") Samples.first_two_counted
           {| entries := [Ref.p1; Ref.p2]; limit := 2; offset := 0;
              count := Some 4 |}).
  - vm_compute. reflexivity.
  - simpl. lia.
Defined.

Lemma getEntries_pages_concat_witness :
  ∃ r1 r2,
    Ref.getEntries Ref.api Ref.posts_store (RefName "posts") (page None 1 1)
    = Ok r1
    ∧ Ref.getEntries Ref.api Ref.posts_store (RefName "posts") (page None 2 2)
      = Ok r2
    ∧ [Ref.p2; Ref.p3; Ref.p4] = (entries r1 ++ entries r2)%list.
Proof.
  apply (getEntries_pages_concat JSON.parse Ref.doesMatchFilter
           Ref.Date_getTime Ref.localeCompare Ref.api Ref.posts_store
           (RefName "posts") None 1 1 2
           {| entries := [Ref.p2; Ref.p3; Ref.p4]; limit := 3; offset := 1;
              count := None |}).
  - lia.
  - lia.
  - lia.
  - vm_compute. reflexivity.
Defined.

Lemma getEntries_sort_within_page_witness :
  ∃ r0,
    Ref.getEntries Ref.api Ref.posts_store (RefName "posts")
      (without_sort Samples.first_two_by_title) = Ok r0
    ∧ [Ref.p2; Ref.p1] ≡ₚ entries r0
    ∧ 2 = limit r0 ∧ 0 = offset r0 ∧ None = count r0.
Proof.
  apply (getEntries_sort_within_page JSON.parse Ref.doesMatchFilter
           Ref.Date_getTime Ref.localeCompare Ref.api Ref.posts_store
           (RefName "posts") Samples.first_two_by_title
           {| entries := [Ref.p2; Ref.p1]; limit := 2; offset := 0;
              count := None |}).
  vm_compute. reflexivity.
Defined.

Lemma getEntries_returns_stored_matching_witness :
  (∃ file, file ∈ default [] (fs_readdir Ref.posts_store
                                (entry_dir Ref.api Ref.posts))
           ∧ string_endsWith ".json" file = true
           ∧ readEntryFile JSON.parse Ref.posts_store
               (entry_dir Ref.api Ref.posts) file = Ok Ref.p4)
  ∧ (∀ filters, opt_filters Samples.by_title_a = Some filters →
       truthy filters = true → Ref.doesMatchFilter Ref.p4 filters = true).
Proof.
  apply (getEntries_returns_stored_matching JSON.parse Ref.doesMatchFilter
           Ref.Date_getTime Ref.localeCompare Ref.api Ref.posts_store
           (RefName "posts") Ref.posts Samples.by_title_a
           (Ref.result_of [Ref.p2; Ref.p4]) Ref.p4).
  - reflexivity.
  - reflexivity.
  - vm_compute. reflexivity.
  - apply list_elem_of_further, list_elem_of_here.
Defined.

Lemma setGlobalValue_getGlobalValue_roundtrip_witness :
  ∃ fs', Samples.setGlobalValue Samples.api_site ∅ (GlobalName "site")
           Samples.my_site = (Ok tt, fs')
         ∧ Samples.getGlobalValue Samples.api_site fs' (GlobalName "site")
           = Ok Samples.my_site
         ∧ (fs_readFile ∅ (globals_dir Samples.api_site)
              (global_file_name Samples.site) = None →
            Samples.getGlobalValue Samples.api_site ∅ (GlobalName "site")
            = Ok VNull).
Proof.
  apply (setGlobalValue_getGlobalValue_roundtrip JSON.stringify JSON.parse
           Ref.zod_parse Samples.api_site ∅ (GlobalName "site") Samples.site
           Samples.my_site Samples.my_site).
  - reflexivity.
  - reflexivity.
  - reflexivity.
  - vm_compute. reflexivity.
Defined.

Lemma setGlobalValue_invalid_rejected_witness :
  ∃ fs', Samples.setGlobalValue Samples.api_site Samples.site_store
           (GlobalName "site") (VObj []) = (Throw (JsError "ZodError"), fs')
         ∧ (∀ dir, default [] (fs' !! dir)
                   = default [] (Samples.site_store !! dir))
         ∧ (∀ dir file,
              fs_readFile fs' dir file = fs_readFile Samples.site_store dir file)
         ∧ Samples.getGlobalValue Samples.api_site fs' (GlobalName "site")
           = Samples.getGlobalValue Samples.api_site Samples.site_store
               (GlobalName "site").
Proof.
  apply (setGlobalValue_invalid_rejected JSON.stringify JSON.parse
           Ref.zod_parse Samples.api_site Samples.site_store
           (GlobalName "site") Samples.site (VObj []) (JsError "ZodError")).
  - reflexivity.
  - reflexivity.
Defined.

Lemma getGlobalValues_lists_stored_value_witness :
  Samples.my_site ∈ Samples.getGlobalValues Samples.api_site Samples.site_store
  ∧ length (Samples.getGlobalValues Samples.api_site Samples.site_store)
    = length (getGlobals Samples.api_site).
Proof.
  apply (getGlobalValues_lists_stored_value JSON.stringify JSON.parse
           Ref.zod_parse Samples.api_site ∅ "site" Samples.site
           Samples.my_site Samples.my_site Samples.site_store).
  - reflexivity.
  - vm_compute. reflexivity.
  - reflexivity.
  - vm_compute. reflexivity.
Defined.

Lemma setEntry_global_values_witness :
  (name Ref.posts ≠ "globals" →
   Samples.getGlobalValue Samples.api_site
     (Ref.setEntry Samples.api_site Samples.site_store (RefName "posts")
        (VStr "hello") Ref.hello).2 (GlobalName "site")
   = Samples.getGlobalValue Samples.api_site Samples.site_store
       (GlobalName "site"))
  ∧ Samples.getGlobalValue Samples.api_site
      (Ref.setEntry Samples.api_site ∅ (RefHandle Samples.globals_collection)
         (VStr "site") Samples.my_site).2 (GlobalName "site")
    = Ok Samples.my_site.
Proof.
  split.
  - apply (setEntry_global_values JSON.stringify JSON.parse
             Ref.convertZodSchema Ref.ajvFormats Ref.ajv_validate
             Ref.ajv_errorsText Samples.api_site Samples.site_store
             (RefName "posts") Ref.posts (VStr "hello") Ref.hello
             (Ref.setEntry Samples.api_site Samples.site_store
                (RefName "posts") (VStr "hello") Ref.hello).2
             (GlobalName "site") Samples.site).
    + reflexivity.
    + reflexivity.
    + vm_compute. reflexivity.
    + reflexivity.
    + reflexivity.
    + reflexivity.
  - apply (setEntry_global_values JSON.stringify JSON.parse
             Ref.convertZodSchema Ref.ajvFormats Ref.ajv_validate
             Ref.ajv_errorsText Samples.api_site ∅
             (RefHandle Samples.globals_collection) Samples.globals_collection
             (VStr "site") Samples.my_site
             (Ref.setEntry Samples.api_site ∅
                (RefHandle Samples.globals_collection) (VStr "site")
                Samples.my_site).2
             (GlobalName "site") Samples.site).
    + reflexivity.
    + reflexivity.
    + vm_compute. reflexivity.
    + reflexivity.
    + reflexivity.
    + reflexivity.
    + reflexivity.
    + reflexivity.
    + vm_compute. reflexivity.
Defined.

Lemma getContentType_case_insensitive_witness :
  getContentType "PHOTO.JPG" = getContentType "photo.jpg".
Proof.
  apply (getContentType_case_insensitive "PHOTO.JPG" "photo.jpg").
  reflexivity.
Defined.

Lemma uploadAsset_listAssets_witness :
  ∃ r fs' a,
    Ref.uploadAsset Ref.api Ref.assets_store "PNGDATA" "a.png" None
    = (Ok r, fs')
    ∧ a ∈ Ref.listAssets Ref.api fs' no_listOptions
    ∧ key a = up_filename r
    ∧ asset_name a = up_filename r
    ∧ size a = Z.of_nat (String.length "PNGDATA")
    ∧ size a = up_size r
    ∧ httpMetadata a = getContentType "a.png".
Proof.
  apply (uploadAsset_listAssets Ref.sharp Ref.sharp_metadata Ref.api
           Ref.assets_store "PNGDATA" "a.png" None).
  reflexivity.
Defined.

Lemma uploadAsset_contentType_not_stored_witness :
  ∃ r fs',
    Ref.uploadAsset Ref.api ∅ "PNGDATA" "logo.png" (Some "text/plain")
    = (Ok r, fs')
    ∧ up_contentType r = Some "text/plain"
    ∧ (∀ ct', (Ref.uploadAsset Ref.api ∅ "PNGDATA" "logo.png" ct').2 = fs')
    ∧ (∀ options,
         contentType <$> Ref.getAsset Ref.api fs' (up_filename r) options
         = Some (getContentType "logo.png")).
Proof.
  apply (uploadAsset_contentType_not_stored Ref.sharp Ref.sharp_metadata
           Ref.sharp_resize Ref.sharp_toFormat Ref.sharp_toBuffer Ref.api ∅
           "PNGDATA" "logo.png" (Some "text/plain")).
  reflexivity.
Defined.

Lemma getAsset_quality_without_format_witness :
  Ref.getAsset Ref.api Ref.photo_store "photo.jpg"
    (with_quality no_assetOptions (Some 80))
  = Ref.getAsset Ref.api Ref.photo_store "photo.jpg"
      (with_quality no_assetOptions (Some 10)).
Proof.
  apply (getAsset_quality_without_format Ref.sharp Ref.sharp_metadata
           Ref.sharp_resize Ref.sharp_toFormat Ref.sharp_toBuffer Ref.api
           Ref.photo_store "photo.jpg" no_assetOptions (Some 80) (Some 10)).
  - reflexivity.
  - reflexivity.
Defined.

Lemma listAssets_unknown_cursor_witness :
  Ref.listAssets Ref.api Ref.assets_store
    {| search := None; list_limit := Some 2; startAfter := Some "zzz.png" |}
  = Ref.listAssets Ref.api Ref.assets_store
      (without_cursor
         {| search := None; list_limit := Some 2;
            startAfter := Some "zzz.png" |}).
Proof.
  apply (listAssets_unknown_cursor Ref.sharp Ref.sharp_metadata Ref.api
           Ref.assets_store
           {| search := None; list_limit := Some 2;
              startAfter := Some "zzz.png" |}
           ["a.png"; "Logo.svg"; "b.png"; "c-logo.txt"; "d.png"] "zzz.png").
  - reflexivity.
  - reflexivity.
  - intros H. repeat (apply elem_of_cons in H as [H|H]; [discriminate|]).
    by apply elem_of_nil in H.
Defined.

Lemma deleteAsset_spec_witness :
  ∃ fs', deleteAsset Ref.api Ref.assets_store "b.png" = (true, fs')
    ∧ Ref.getAsset Ref.api fs' "b.png" no_assetOptions = None
    ∧ ("b.png" ∉ map key (Ref.listAssets Ref.api fs' no_listOptions))
    ∧ fs_readFile fs' (getAssetDir Ref.api) "a.png" = Some "A".
Proof.
  destruct (deleteAsset_spec Ref.sharp Ref.sharp_metadata Ref.sharp_resize
              Ref.sharp_toFormat Ref.sharp_toBuffer Ref.api Ref.assets_store
              "b.png" assets_store_wf eq_refl)
    as (fs' & Hdel & Hgone & Hlist & Hrest & _).
  exists fs'. split; [exact Hdel|]. split; [apply Hgone|].
  split; [exact Hlist|]. by rewrite Hrest.
Defined.

Lemma getEntry_include_ignores_non_references_witness :
  Ref.getEntry Ref.api Ref.posts_store (RefName "posts") (VStr "p1")
    (Some ["title"; "author"]) = Ok Ref.p1
  ∧ Ref.getEntry Ref.api Ref.posts_store (RefName "posts") (VStr "p1") None
    = Ok Ref.p1.
Proof.
  apply (getEntry_include_ignores_non_references JSON.parse Ref.api
           Ref.posts_store (RefName "posts") Ref.posts (VStr "p1") Ref.p1
           ["title"; "author"]).
  - reflexivity.
  - vm_compute. reflexivity.
  - intros k Hk. repeat (apply elem_of_cons in Hk as [->|Hk]; [reflexivity|]).
    by apply elem_of_nil in Hk.
Defined.

Lemma getEntries_offset_past_end_witness :
  entries {| entries := []; limit := 1000; offset := 4; count := Some 4 |} = [].
Proof.
  apply (getEntries_offset_past_end JSON.parse Ref.doesMatchFilter
           Ref.Date_getTime Ref.localeCompare Ref.api Ref.posts_store
           (RefName "posts")
           {| opt_includeCount := true; opt_include := None;
              opt_limit := None; opt_offset := Some 4; opt_filters := None;
              opt_sort := None |}
           4 4
           {| entries := []; limit := 1000; offset := 4; count := Some 4 |}).
  - reflexivity.
  - vm_compute. reflexivity.
  - reflexivity.
  - lia.
Defined.

Lemma setEntry_rejected_creates_directory_witness :
  (∃ r, Ref.getEntries Ref.api ∅ (RefName "posts") Ref.with_count = Ok r
        ∧ entries r = [] ∧ count r = None)
  ∧ (∃ r, Ref.getEntries Ref.api
            (Ref.setEntry Ref.api ∅ (RefName "posts") (VStr "p1") Ref.broken).2
            (RefName "posts") Ref.with_count = Ok r
          ∧ entries r = [] ∧ count r = Some 0).
Proof.
  apply (setEntry_rejected_creates_directory JSON.stringify JSON.parse
           Ref.convertZodSchema Ref.ajvFormats Ref.ajv_validate
           Ref.ajv_errorsText Ref.doesMatchFilter Ref.Date_getTime
           Ref.localeCompare Ref.api ∅ (RefName "posts") Ref.posts
           (VStr "p1") Ref.broken Ref.with_count).
  - reflexivity.
  - reflexivity.
  - reflexivity.
  - reflexivity.
Defined.
